(** * Nuspell: affix-aware lookup structures and the affix/dictionary parsers

    A shallow embedding of [src/nuspell/structures.cxx] and of the parsing
    half of [src/nuspell/aff_data.cxx], followed by the properties proved
    about them.

    Conventions.
    - A [basic_string<CharT>] is a list of characters ([StrT]); the [char]
      instantiation is the one written out, the [wchar_t] one runs the same
      template code.
    - [size_t] values are integers in [Z]; subtraction wraps modulo [2^64]
      and [npos] is [2^64 - 1].
    - A member function that can throw [std::out_of_range] returns an
      [option]; [None] is the exception.
    - The algorithms of [<algorithm>] whose result the C++ standard leaves
      partly open ([std::sort], [std::partition]) are arguments of the
      functions that call them, constrained in the theorems by what the
      standard guarantees.  The [std::sort] of libstdc++, the library the
      program is built against on Linux, is written out as
      [Libstdcxx.sort]. *)

From Stdlib Require Import ZArith NArith Ascii String List Bool Lia.
From Stdlib Require Import Permutation Sorted.
Import ListNotations.

Set Implicit Arguments.
Open Scope Z_scope.

(** ** The parts of the C++ standard library the code calls *)

Module Std.

Abbreviation CharT := ascii (only parsing).
Abbreviation StrT := (list ascii) (only parsing).

(** String literals of the source. *)
Definition lit (s : string) : StrT := list_ascii_of_string s.

Definition SIZE_WIDTH : Z := 64.
Definition npos : Z := 2 ^ SIZE_WIDTH - 1.

(** Unsigned [size_t] subtraction. *)
Definition size_sub (a b : Z) : Z := (a - b) mod 2 ^ SIZE_WIDTH.

Definition size {A} (s : list A) : Z := Z.of_nat (length s).

Definition empty {A} (s : list A) : bool :=
  match s with [] => true | _ => false end.

(** [char_traits<char>::lt] compares the characters as unsigned values. *)
Definition char_compare (a b : CharT) : comparison :=
  N.compare (N_of_ascii a) (N_of_ascii b).

(** [basic_string::compare(str)]: lexicographic, a proper prefix is smaller. *)
Fixpoint compare (a b : StrT) : comparison :=
  match a, b with
  | [], [] => Eq
  | [], _ :: _ => Lt
  | _ :: _, [] => Gt
  | x :: a', y :: b' =>
      match char_compare x y with
      | Eq => compare a' b'
      | c => c
      end
  end.

Definition ltb (a b : StrT) : bool :=
  match compare a b with Lt => true | _ => false end.

Definition eqb (a b : StrT) : bool :=
  match compare a b with Eq => true | _ => false end.

(** The characters [pos, pos + min(n, size - pos)) of [s], for [pos <= size]. *)
Definition sub (s : StrT) (pos n : Z) : StrT :=
  firstn (Z.to_nat (Z.min n (size s - pos))) (skipn (Z.to_nat pos) s).

(** [basic_string::substr(pos, n)]. *)
Definition substr (s : StrT) (pos n : Z) : option StrT :=
  if size s <? pos then None else Some (sub s pos n).

(** [basic_string::compare(pos, n, str)]. *)
Definition compare_at (s : StrT) (pos n : Z) (str : StrT) : option comparison :=
  if size s <? pos then None else Some (compare (sub s pos n) str).

(** [basic_string::compare(pos1, n1, str, pos2, n2)]. *)
Definition compare_at2 (s : StrT) (pos1 n1 : Z) (str : StrT) (pos2 n2 : Z)
  : option comparison :=
  if (size s <? pos1) || (size str <? pos2) then None
  else Some (compare (sub s pos1 n1) (sub str pos2 n2)).

(** [basic_string::replace(pos, n, str)]. *)
Definition replace (s : StrT) (pos n : Z) (str : StrT) : option StrT :=
  if size s <? pos then None
  else Some (firstn (Z.to_nat pos) s ++ str
               ++ skipn (Z.to_nat (pos + Z.min n (size s - pos))) s).

(** [basic_string::erase(pos, n)], used with [pos = 0] only. *)
Definition erase (s : StrT) (pos n : Z) : option StrT := replace s pos n [].

Definition pop_back (s : StrT) : StrT := removelast s.

Definition back (s : StrT) : option CharT := last (map Some s) None.

Fixpoint starts_with (pat s : StrT) : bool :=
  match pat, s with
  | [], _ => true
  | _ :: _, [] => false
  | p :: pat', c :: s' => Ascii.eqb p c && starts_with pat' s'
  end.

Fixpoint find_from (s pat : StrT) (i : Z) : Z :=
  if starts_with pat s then i
  else match s with
       | [] => npos
       | _ :: s' => find_from s' pat (i + 1)
       end.

(** [basic_string::find(str)]: index of the first occurrence, or [npos]. *)
Definition find (s pat : StrT) : Z := find_from s pat 0.

(** Construction of a [basic_string] from a [const CharT*]: the characters up
    to the first null character. *)
Fixpoint c_str (p : StrT) : StrT :=
  match p with
  | [] => []
  | c :: p' => if Ascii.eqb c zero then [] else c :: c_str p'
  end.

(** [std::unique(first, last, pred)]: each element is compared with the last
    one kept. *)
Fixpoint unique_from {A} (pred : A -> A -> bool) (kept : A) (l : list A)
  : list A :=
  match l with
  | [] => []
  | x :: l' =>
      if pred kept x then unique_from pred kept l'
      else x :: unique_from pred x l'
  end.

Definition unique {A} (pred : A -> A -> bool) (l : list A) : list A :=
  match l with
  | [] => []
  | x :: l' => x :: unique_from pred x l'
  end.

(** [std::remove_if] followed by [erase]: keeps order. *)
Definition remove_if {A} (pred : A -> bool) (l : list A) : list A :=
  filter (fun x => negb (pred x)) l.

(** [std::upper_bound(first, last, value, comp)] on a range partitioned with
    respect to [comp value]: the number of leading elements [e] for which
    [comp value e] does not hold. *)
Fixpoint upper_bound {A} (comp_value : A -> bool) (range : list A) : nat :=
  match range with
  | [] => O
  | e :: range' => if comp_value e then O else S (upper_bound comp_value range')
  end.

(** What [std::sort(first, last, comp)] guarantees about its result: a
    rearrangement of the input in which no element precedes one that is
    smaller under [comp].  The order of equivalent elements is unspecified. *)
Definition sort_ensures {A} (comp : A -> A -> bool)
  (sort : list A -> list A) : Prop :=
  forall l, Permutation l (sort l)
            /\ StronglySorted (fun a b => comp b a = false) (sort l).

(** What [std::partition(first, last, pred)] guarantees: a rearrangement with
    the elements satisfying [pred] in front; relative order is unspecified.
    The result is given as the two parts. *)
Definition partition_ensures {A} (pred : A -> bool)
  (partition : list A -> list A * list A) : Prop :=
  forall l, Permutation l (fst (partition l) ++ snd (partition l))
            /\ Forall (fun x => pred x = true) (fst (partition l))
            /\ Forall (fun x => pred x = false) (snd (partition l)).

(** Insertion sort, the order-preserving instance of [std::sort] (libstdc++
    uses it for ranges of at most sixteen elements). *)
Fixpoint insert_sorted {A} (comp : A -> A -> bool) (x : A) (l : list A)
  : list A :=
  match l with
  | [] => [x]
  | y :: l' => if comp y x then y :: insert_sorted comp x l' else x :: l
  end.

Definition insertion_sort {A} (comp : A -> A -> bool) (l : list A) : list A :=
  fold_right (insert_sorted comp) [] l.

(** *** [std::sort] as libstdc++ implements it

    The program is built against libstdc++ (its [.travis.yml] builds with
    gcc and clang on Linux), whose [std::sort] is an introsort
    ([bits/stl_algo.h], [bits/stl_heap.h]).  The range is a list, iterators
    are indices into it, [*(first + i)] is [nth], and an assignment through
    an iterator is [put].  The loops the library leaves unguarded, because a
    valid comparison stops them inside the range, stop in the model at the
    ends of the list or when their rounds are used up; a read outside the
    list, which no run under a valid comparison makes, yields [d]. *)

Module Libstdcxx.

#[local] Open Scope nat_scope.

Section Sort.
Context {A : Type} (comp : A -> A -> bool) (d : A).

(** [*(a + i) = x]. *)
Definition put (a : list A) (i : nat) (x : A) : list A :=
  firstn i a ++ x :: skipn (S i) a.

Definition iter_swap (a : list A) (i j : nat) : list A :=
  let x := nth i a d in
  let y := nth j a d in
  put (put a i y) j x.

(** [std::move_backward(first, last, d_last)]. *)
Definition move_backward (a : list A) (first last d_last : nat) : list A :=
  let n := (last - first)%nat in
  firstn (d_last - n) a ++ firstn n (skipn first a) ++ skipn d_last a.

Definition _S_threshold : nat := 16.

(** [std::__lg]: the position of the highest bit set. *)
Definition lg (n : nat) : nat := Nat.log2 n.

(** [__push_heap]; indices are relative to [first]. *)
Fixpoint push_heap (rounds : nat) (a : list A) (first holeIndex topIndex : nat)
  (value : A) : list A :=
  let parent := ((holeIndex - 1) / 2)%nat in
  match rounds with
  | S rounds' =>
      if (topIndex <? holeIndex)%nat && comp (nth (first + parent) a d) value
      then
        let a := put a (first + holeIndex) (nth (first + parent) a d) in
        push_heap rounds' a first parent topIndex value
      else put a (first + holeIndex) value
  | O => put a (first + holeIndex) value
  end.

(** The first loop of [__adjust_heap]: the hole moves to the larger child. *)
Fixpoint adjust_heap_loop (rounds : nat) (a : list A)
  (first holeIndex secondChild len : nat) : list A * nat * nat :=
  match rounds with
  | S rounds' =>
      if (secondChild <? (len - 1) / 2)%nat then
        let secondChild := (2 * (secondChild + 1))%nat in
        let secondChild :=
          if comp (nth (first + secondChild) a d)
                  (nth (first + (secondChild - 1)) a d)
          then (secondChild - 1)%nat else secondChild in
        let a := put a (first + holeIndex) (nth (first + secondChild) a d) in
        adjust_heap_loop rounds' a first secondChild secondChild len
      else (a, holeIndex, secondChild)
  | O => (a, holeIndex, secondChild)
  end.

(** [__adjust_heap].  [(len - 2) / 2] is a signed division in the source. *)
Definition adjust_heap (a : list A) (first holeIndex len : nat) (value : A)
  : list A :=
  let topIndex := holeIndex in
  let '(a, holeIndex, secondChild) :=
    adjust_heap_loop len a first holeIndex holeIndex len in
  let '(a, holeIndex) :=
    if Nat.even len
       && (Z.of_nat secondChild =? Z.quot (Z.of_nat len - 2) 2)%Z
    then
      let secondChild := (2 * (secondChild + 1))%nat in
      (put a (first + holeIndex) (nth (first + (secondChild - 1)) a d),
       (secondChild - 1)%nat)
    else (a, holeIndex) in
  push_heap len a first holeIndex topIndex value.

(** [__pop_heap(first, last, result)]. *)
Definition pop_heap (a : list A) (first last result : nat) : list A :=
  let value := nth result a d in
  let a := put a result (nth first a d) in
  adjust_heap a first 0 (last - first) value.

(** The loop of [__make_heap], from [parent] down to [0]. *)
Fixpoint make_heap_loop (a : list A) (first len parent : nat) : list A :=
  let a := adjust_heap a first parent len (nth (first + parent) a d) in
  match parent with
  | O => a
  | S parent' => make_heap_loop a first len parent'
  end.

Definition make_heap (a : list A) (first last : nat) : list A :=
  if (last - first <? 2)%nat then a
  else
    let len := (last - first)%nat in
    make_heap_loop a first len ((len - 2) / 2).

(** [__sort_heap]: [count] is [last - first]. *)
Fixpoint sort_heap_loop (count : nat) (a : list A) (first : nat) : list A :=
  match count with
  | S ((S _) as count') =>
      sort_heap_loop count' (pop_heap a first (first + count') (first + count'))
        first
  | _ => a
  end.

Definition sort_heap (a : list A) (first last : nat) : list A :=
  sort_heap_loop (last - first) a first.

(** [__heap_select]. *)
Definition heap_select (a : list A) (first middle last : nat) : list A :=
  let a := make_heap a first middle in
  fold_left
    (fun a i =>
       if comp (nth i a d) (nth first a d) then pop_heap a first middle i
       else a)
    (seq middle (last - middle)) a.

(** [__partial_sort]. *)
Definition partial_sort (a : list A) (first middle last : nat) : list A :=
  let a := heap_select a first middle last in
  sort_heap a first middle.

(** [__unguarded_linear_insert(last)], with [val] already taken out. *)
Fixpoint unguarded_linear_insert_loop (a : list A) (val : A) (last : nat)
  : list A :=
  match last with
  | S next =>
      if comp val (nth next a d)
      then unguarded_linear_insert_loop (put a last (nth next a d)) val next
      else put a last val
  | O => put a last val
  end.

Definition unguarded_linear_insert (a : list A) (last : nat) : list A :=
  unguarded_linear_insert_loop a (nth last a d) last.

(** [__insertion_sort]. *)
Definition insertion_sort (a : list A) (first last : nat) : list A :=
  if (first =? last)%nat then a
  else
    fold_left
      (fun a i =>
         if comp (nth i a d) (nth first a d) then
           let val := nth i a d in
           let a := move_backward a first i (i + 1) in
           put a first val
         else unguarded_linear_insert a i)
      (seq (first + 1) (last - (first + 1))) a.

(** [__unguarded_insertion_sort]. *)
Definition unguarded_insertion_sort (a : list A) (first last : nat) : list A :=
  fold_left unguarded_linear_insert (seq first (last - first)) a.

(** [__final_insertion_sort]. *)
Definition final_insertion_sort (a : list A) (first last : nat) : list A :=
  if (_S_threshold <? last - first)%nat then
    let a := insertion_sort a first (first + _S_threshold) in
    unguarded_insertion_sort a (first + _S_threshold) last
  else insertion_sort a first last.

(** [__move_median_to_first]. *)
Definition move_median_to_first (a : list A) (result a_ b c : nat) : list A :=
  let lt i j := comp (nth i a d) (nth j a d) in
  if lt a_ b then
    if lt b c then iter_swap a result b
    else if lt a_ c then iter_swap a result c
    else iter_swap a result a_
  else if lt a_ c then iter_swap a result a_
  else if lt b c then iter_swap a result c
  else iter_swap a result b.

(** [while (comp(first, pivot)) ++first;] *)
Fixpoint scan_up (rounds : nat) (a : list A) (first pivot : nat) : nat :=
  match rounds with
  | S rounds' =>
      if comp (nth first a d) (nth pivot a d)
      then scan_up rounds' a (S first) pivot
      else first
  | O => first
  end.

(** [while (comp(pivot, last)) --last;] *)
Fixpoint scan_down (a : list A) (last pivot : nat) : nat :=
  match last with
  | S last' =>
      if comp (nth pivot a d) (nth last a d)
      then scan_down a last' pivot
      else last
  | O => last
  end.

(** [__unguarded_partition]. *)
Fixpoint unguarded_partition (rounds : nat) (a : list A)
  (first last pivot : nat) : list A * nat :=
  let first := scan_up (length a - first) a first pivot in
  let last := (last - 1)%nat in
  let last := scan_down a last pivot in
  if negb (first <? last)%nat then (a, first)
  else
    match rounds with
    | S rounds' =>
        unguarded_partition rounds' (iter_swap a first last) (S first) last
          pivot
    | O => (a, first)
    end.

(** [__unguarded_partition_pivot]. *)
Definition unguarded_partition_pivot (a : list A) (first last : nat)
  : list A * nat :=
  let mid := (first + (last - first) / 2)%nat in
  let a := move_median_to_first a first (first + 1) mid (last - 1) in
  unguarded_partition (length a) a (first + 1) last first.

(** [__introsort_loop]: every turn of its loop takes one from
    [depth_limit], and so does the call inside it. *)
Fixpoint introsort_loop (depth_limit : nat) (a : list A) (first last : nat)
  : list A :=
  if (_S_threshold <? last - first)%nat then
    match depth_limit with
    | O => partial_sort a first last last
    | S depth_limit' =>
        let '(a, cut) := unguarded_partition_pivot a first last in
        let a := introsort_loop depth_limit' a cut last in
        introsort_loop depth_limit' a first cut
    end
  else a.

End Sort.

(** [std::sort(first, last, comp)] over the whole of [l]. *)
Definition sort {A} (comp : A -> A -> bool) (l : list A) : list A :=
  match l with
  | d :: _ =>
      let last := length l in
      let a := introsort_loop comp d (lg last * 2) l 0 last in
      final_insertion_sort comp d a 0 last
  | [] => l
  end.

End Libstdcxx.

(** *** Notions used to state the properties of [Libstdcxx.sort] *)

(** [q] is [p] with [x] put behind the elements not greater than [x] and
    before the greater ones. *)
Definition inserted_behind {A} (comp : A -> A -> bool) (x : A)
  (p q : list A) : Prop :=
  exists p1 p2,
    p = p1 ++ p2 /\ q = p1 ++ x :: p2
    /\ Forall (fun y => comp x y = false) p1
    /\ Forall (fun y => comp x y = true) p2.

(** The loop of [__unguarded_linear_insert] seen on the elements before the
    hole, last one first. *)
Fixpoint insert_back {A} (comp : A -> A -> bool) (val : A) (r : list A)
  : list A :=
  match r with
  | y :: r' => if comp val y then y :: insert_back comp val r' else val :: r
  | [] => [val]
  end.

(** One turn of the loop of [__insertion_sort] seen on the part [p] already
    passed. *)
Definition insertion_step {A} (comp : A -> A -> bool) (d : A) (p : list A)
  (x : A) : list A :=
  if comp x (hd d p) then x :: p else rev (insert_back comp x (rev p)).

(** The order-preserving instance of [std::partition]. *)
Definition stable_partition {A} (pred : A -> bool) (l : list A)
  : list A * list A :=
  (filter pred l, filter (fun x => negb (pred x)) l).

(** The index of the first character from [i] on that satisfies [p], or
    [npos]. *)
Fixpoint index_where (p : CharT -> bool) (s : StrT) (i : Z) : Z :=
  match s with
  | [] => npos
  | c :: s' => if p c then i else index_where p s' (i + 1)
  end.

(** [basic_string::find(c, pos)]. *)
Definition find_char (s : StrT) (c : CharT) (pos : Z) : Z :=
  if size s <? pos then npos
  else index_where (Ascii.eqb c) (skipn (Z.to_nat pos) s) pos.

(** [basic_string::find_first_not_of(c, pos)]. *)
Definition find_first_not_of (s : StrT) (c : CharT) (pos : Z) : Z :=
  if size s <? pos then npos
  else index_where (fun x => negb (Ascii.eqb c x)) (skipn (Z.to_nat pos) s) pos.

(** [s[i]] for [i < size]. *)
Definition at_ (s : StrT) (i : Z) : CharT := nth (Z.to_nat i) s zero.

End Std.

(** ** structures.cxx *)

Module Structures.
Import Std.

(** *** Flag_Set *)

Definition char16_t := N.
Definition u16string := list char16_t.

(** [sort_uniq(Container&)] at [u16string]: [operator<] on [char16_t] is a
    total order, so every [std::sort] returns the same sequence. *)
Definition sort_uniq (c : u16string) : u16string :=
  unique N.eqb (insertion_sort N.ltb c).

Record Flag_Set := { flags : u16string }.

(** [Flag_Set::Flag_Set(const std::u16string&)]. *)
Definition Flag_Set_of (s : u16string) : Flag_Set := {| flags := sort_uniq s |}.

(** [Flag_Set::insert(const std::u16string&)]. *)
Definition Flag_Set_insert (fs : Flag_Set) (s : u16string) : Flag_Set :=
  {| flags := sort_uniq (flags fs ++ s) |}.

(** Modelled from the spec: [Flag_Set::contains] is declared in
    structures.hxx, which is not part of the sources at hand; it is the
    membership test on the backing sequence. *)
Definition contains (fs : Flag_Set) (flag : char16_t) : bool :=
  existsb (N.eqb flag) (flags fs).

(** [std::u16string::find(char16_t)]: the index of the first occurrence. *)
Fixpoint u16_find (s : u16string) (c : char16_t) : option nat :=
  match s with
  | [] => None
  | x :: s' => if N.eqb x c then Some O else option_map S (u16_find s' c)
  end.

(** [Flag_Set::erase]: the value returned and the set as it is left. *)
Definition Flag_Set_erase (fs : Flag_Set) (flag : char16_t)
  : bool * Flag_Set :=
  match u16_find (flags fs) flag with
  | Some i =>
      (true, {| flags := firstn i (flags fs) ++ skipn (S i) (flags fs) |})
  | None => (false, fs)
  end.

(** *** Substr_Replacer *)

Definition Table_Pairs := list (StrT * StrT).

Definition key_less (a b : StrT * StrT) : bool := ltb (fst a) (fst b).
Definition key_equal (a b : StrT * StrT) : bool := eqb (fst a) (fst b).

(** [Substr_Replacer<CharT>::sort_uniq], over the [std::sort] in use. *)
Definition Substr_Replacer_sort_uniq
  (sort : (StrT * StrT -> StrT * StrT -> bool) -> Table_Pairs -> Table_Pairs)
  (table : Table_Pairs) : Table_Pairs :=
  let table := sort key_less table in
  let table := unique key_equal table in
  (* remove empty key "" *)
  match table with
  | front :: rest => if empty (fst front) then rest else table
  | [] => table
  end.

(** [Comparer_Str_Rep<CharT>::cmp_prefix_of].  The five-argument [compare]
    takes a string, so [of.data()] is converted to one and ends at the first
    null character. *)
Definition cmp_prefix_of (p of_ : StrT) : option comparison :=
  compare_at2 p 0 npos (c_str of_) 0 (Z.min (size p) (size of_)).

(** [operator()(StrViewT a, const pair<StrT, StrT>& b)]. *)
Definition csr_less (a : StrT) (b : StrT * StrT) : bool :=
  match cmp_prefix_of (fst b) a with Some Gt => true | _ => false end.

(** [Comparer_Str_Rep<CharT>::eq]. *)
Definition csr_eq (a : StrT * StrT) (b : StrT) : bool :=
  match cmp_prefix_of (fst a) b with Some Eq => true | _ => false end.

(** The loop of [find_match]: [it] is an index into [t], [last_match] the
    entry found so far.  Every round but the last moves [it] forward, so
    [length t + 1] rounds are enough. *)
Fixpoint find_match_loop (rounds : nat) (t : Table_Pairs) (s : StrT)
  (it : nat) (last_match : option (StrT * StrT)) : option (StrT * StrT) :=
  match rounds with
  | O => last_match
  | S rounds' =>
      let it2 := (it + upper_bound (csr_less s) (skipn it t))%nat in
      if Nat.eqb it2 it then
        (* not found, s is smaller that the range *)
        last_match
      else
        let it2 := pred it2 in
        match nth_error t it2 with
        | Some e =>
            if csr_eq e s then
              (* Match found. Try another search maybe for longer. *)
              find_match_loop rounds' t s (S it2) (Some e)
            else
              (* not found, s is greater that the range *)
              last_match
        | None => last_match
        end
  end.

(** [find_match]; [None] stands for [end(t)]. *)
Definition find_match (t : Table_Pairs) (s : StrT) : option (StrT * StrT) :=
  find_match_loop (S (length t)) t s O None.

(** The loop of [Substr_Replacer<CharT>::replace], from index [i] on.  [None]
    when the loop has not ended after [rounds] rounds. *)
Fixpoint replace_loop (rounds : nat) (table : Table_Pairs) (s : StrT) (i : Z)
  : option StrT :=
  match rounds with
  | O => None
  | S rounds' =>
      if i <? size s then
        let substr := skipn (Z.to_nat i) s in
        match find_match table substr with
        | Some match_ =>
            (* match found. match.first is the found string,
               match.second is the replacement. *)
            match replace s i (size (fst match_)) (snd match_) with
            | Some s' => replace_loop rounds' table s' (i + size (snd match_))
            | None => None
            end
        | None => replace_loop rounds' table s (i + 1)
        end
      else Some s
  end.

(** [Substr_Replacer<CharT>::replace].  Each round shortens the part of [s]
    that is still to be scanned when the table has no empty key. *)
Definition Substr_Replacer_replace (table : Table_Pairs) (s : StrT)
  : option StrT :=
  if empty table then Some s
  else replace_loop (S (length s)) table s 0.

(** *** Break_Table *)

Record Break_Table := {
  table : list StrT;
  start_word_breaks_last_it : nat;
  end_word_breaks_last_it : nat
}.

(** Modelled from the spec: the three range accessors are declared in
    structures.hxx, which is not part of the sources at hand; they are the
    ranges between the stored partition boundaries. *)
Definition start_word_breaks (bt : Break_Table) : list StrT :=
  firstn (start_word_breaks_last_it bt) (table bt).

Definition end_word_breaks (bt : Break_Table) : list StrT :=
  firstn (end_word_breaks_last_it bt - start_word_breaks_last_it bt)
    (skipn (start_word_breaks_last_it bt) (table bt)).

Definition middle_word_breaks (bt : Break_Table) : list StrT :=
  skipn (end_word_breaks_last_it bt) (table bt).

Definition dolar : CharT := "$"%char.
Definition caret : CharT := "^"%char.

Definition is_start_word_break (x : StrT) : bool :=
  negb (empty x) && match x with c :: _ => Ascii.eqb c caret | [] => false end.

Definition is_end_word_break (x : StrT) : bool :=
  negb (empty x)
  && match back x with Some c => Ascii.eqb c dolar | None => false end.

(** [e.erase(0, 1)]; position 0 is never out of range. *)
Definition erase_front (e : StrT) : StrT :=
  match erase e 0 1 with Some e' => e' | None => e end.

(** [Break_Table<CharT>::order_entries], over the [std::partition] in use. *)
Definition order_entries
  (partition : (StrT -> bool) -> list StrT -> list StrT * list StrT)
  (table : list StrT) : Break_Table :=
  let (starts, rest) := partition is_start_word_break table in
  let starts := map erase_front starts in
  let (ends, middle) := partition is_end_word_break rest in
  let ends := map pop_back ends in
  let middle := remove_if (fun s => empty s) middle in
  {| table := starts ++ ends ++ middle;
     start_word_breaks_last_it := length starts;
     end_word_breaks_last_it := length starts + length ends |}.

(** The result of [break_and_spell] together with the arguments of the calls
    of [spell_func], in the order they are made. *)
Definition Probed := (bool * list StrT)%type.

Definition probed_after (call : StrT) (r : option Probed) : option Probed :=
  match r with
  | Some (res, calls) => Some (res, call :: calls)
  | None => None
  end.

(** The three loops of [Break_Table<CharT>::break_and_spell]; each takes what
    follows it as [next]. *)
Fixpoint start_loop (spell_func : StrT -> bool) (s : StrT)
  (pats : list StrT) (next : option Probed) : option Probed :=
  match pats with
  | [] => next
  | pat :: pats' =>
      match compare_at s 0 (size pat) pat with
      | None => None
      | Some Eq =>
          match substr s (size pat) npos with
          | None => None
          | Some arg =>
              if spell_func arg then Some (true, [arg])
              else probed_after arg (start_loop spell_func s pats' next)
          end
      | Some _ => start_loop spell_func s pats' next
      end
  end.

Fixpoint end_loop (spell_func : StrT -> bool) (s : StrT)
  (pats : list StrT) (next : option Probed) : option Probed :=
  match pats with
  | [] => next
  | pat :: pats' =>
      if size s <? size pat then end_loop spell_func s pats' next
      else
        match compare_at s (size_sub (size s) (size pat)) (size pat) pat with
        | None => None
        | Some Eq =>
            match substr s (size pat) npos with
            | None => None
            | Some arg =>
                if spell_func arg then Some (true, [arg])
                else probed_after arg (end_loop spell_func s pats' next)
            end
        | Some _ => end_loop spell_func s pats' next
        end
  end.

Fixpoint middle_loop (spell_func : StrT -> bool) (s : StrT)
  (pats : list StrT) : option Probed :=
  match pats with
  | [] => Some (false, [])
  | pat :: pats' =>
      let i := find s pat in
      if (0 <? i) && (i <? size_sub (size s) (size pat)) then
        match substr s 0 i, substr s (i + size pat) npos with
        | Some part1, Some part2 =>
            if spell_func part1 then
              if spell_func part2 then Some (true, [part1; part2])
              else probed_after part1
                     (probed_after part2 (middle_loop spell_func s pats'))
            else probed_after part1 (middle_loop spell_func s pats')
        | _, _ => None
        end
      else middle_loop spell_func s pats'
  end.

(** [Break_Table<CharT>::break_and_spell]. *)
Definition break_and_spell (bt : Break_Table) (s : StrT)
  (spell_func : StrT -> bool) : option Probed :=
  start_loop spell_func s (start_word_breaks bt)
    (end_loop spell_func s (end_word_breaks bt)
       (middle_loop spell_func s (middle_word_breaks bt))).

(** *** Prefix_Entry and Suffix_Entry *)

Record Affix_Entry := {
  flag : char16_t;
  cross_product : bool;
  stripping : StrT;
  appending : StrT;
  condition : StrT   (* the source of the anchored regular expression *)
}.

(** [Prefix_Entry::Prefix_Entry]. *)
Definition Prefix_Entry (flag : char16_t) (cross_product : bool)
  (strip append condition : StrT) : Affix_Entry :=
  {| flag := flag; cross_product := cross_product; stripping := strip;
     appending := append; condition := caret :: condition |}.

(** [Suffix_Entry::Suffix_Entry]. *)
Definition Suffix_Entry (flag : char16_t) (cross_product : bool)
  (strip append condition : StrT) : Affix_Entry :=
  {| flag := flag; cross_product := cross_product; stripping := strip;
     appending := append; condition := condition ++ [dolar] |}.

(** [Prefix_Entry::to_root]. *)
Definition Prefix_to_root (e : Affix_Entry) (word : StrT) : option StrT :=
  replace word 0 (size (appending e)) (stripping e).

(** [Prefix_Entry::to_derived]. *)
Definition Prefix_to_derived (e : Affix_Entry) (word : StrT) : option StrT :=
  replace word 0 (size (stripping e)) (appending e).

(** [Suffix_Entry::to_root]. *)
Definition Suffix_to_root (e : Affix_Entry) (word : StrT) : option StrT :=
  replace word (size_sub (size word) (size (appending e)))
    (size (appending e)) (stripping e).

(** [Suffix_Entry::to_derived]. *)
Definition Suffix_to_derived (e : Affix_Entry) (word : StrT) : option StrT :=
  replace word (size_sub (size word) (size (stripping e)))
    (size (stripping e)) (appending e).

(** *** Notions used to state the properties *)

(** The patterns of a table increase strictly. *)
Definition strictly_sorted (t : Table_Pairs) : Prop :=
  StronglySorted (fun a b => key_less a b = true) t.

(** The first pair of [t] whose pattern is [k]. *)
Definition first_with_key (k : StrT) (t : Table_Pairs) : option (StrT * StrT) :=
  List.find (fun p => eqb (fst p) k) t.

(** [pat] occurs in [s] at index [i]. *)
Definition occurs_at (pat s : StrT) (i : nat) : Prop :=
  (i <= length s)%nat /\ starts_with pat (skipn i s) = true.

(** [i] is the index of the first occurrence of [pat] in [s]. *)
Definition first_occurrence (pat s : StrT) (i : nat) : Prop :=
  occurs_at pat s i
  /\ forall j, (j < i)%nat -> starts_with pat (skipn j s) = false.

(** Appending the calls of one loop to those of the loops after it. *)
Definition probed_with (calls : list StrT) (r : option Probed) : option Probed :=
  match r with
  | Some (res, calls') => Some (res, calls ++ calls')
  | None => None
  end.

(** A split of [s] that the last loop may try: around the first occurrence of
    a middle break, when that occurrence is strictly inside [s]. *)
Definition middle_split (pats : list StrT) (s part1 part2 : StrT) : Prop :=
  exists pat i,
    In pat pats /\ first_occurrence pat s i
    /\ (0 < i)%nat /\ (i + length pat < length s)%nat
    /\ part1 = firstn i s /\ part2 = skipn (i + length pat) s.

(** The class invariant of [Flag_Set]: the flags increase strictly. *)
Definition Flag_Set_ok (fs : Flag_Set) : Prop :=
  StronglySorted N.lt (flags fs).

(** The last call of [spell_func] was made and returned [true]. *)
Definition last_accepted (spell_func : StrT -> bool) (calls : list StrT)
  : Prop :=
  calls <> [] /\ spell_func (last calls []) = true.

(** [c] is shorter than [s]. *)
Definition shorter_than (s : StrT) (c : StrT) : Prop :=
  (length c < length s)%nat.

End Structures.

(** ** Input streams

    [std::istream] as the parsers use it: the characters not yet read and the
    two state bits the code tests.  Every operation follows the C++11 rules
    for formatted and unformatted input ([sentry], which bits are set when,
    what happens to the target on failure); the streams are imbued with the
    classic locale. *)

Module Istream.
Import Std.

Record istream := {
  buf : StrT;
  failbit : bool;
  eofbit : bool
}.

Definition istringstream (s : StrT) : istream :=
  {| buf := s; failbit := false; eofbit := false |}.

Definition good (i : istream) : bool := negb (failbit i) && negb (eofbit i).
Definition fail (i : istream) : bool := failbit i.
Definition eof (i : istream) : bool := eofbit i.

Definition setstate (f e : bool) (i : istream) : istream :=
  {| buf := buf i; failbit := failbit i || f; eofbit := eofbit i || e |}.

Definition with_buf (i : istream) (b : StrT) : istream :=
  {| buf := b; failbit := failbit i; eofbit := eofbit i |}.

(** [ss.clear()]. *)
Definition clear (i : istream) : istream :=
  {| buf := buf i; failbit := false; eofbit := false |}.

(** [ss.str(line)]: a new buffer, the state bits stay. *)
Definition str (i : istream) (s : StrT) : istream := with_buf i s.

(** [isspace(c, locale::classic())]. *)
Definition isspace (c : CharT) : bool :=
  let n := N_of_ascii c in ((n =? 32) || ((9 <=? n) && (n <=? 13)))%N.

Definition isdigit (c : CharT) : bool :=
  let n := N_of_ascii c in ((48 <=? n) && (n <=? 57))%N.

Fixpoint skip_space (b : StrT) : StrT :=
  match b with
  | c :: b' => if isspace c then skip_space b' else b
  | [] => []
  end.

(** The longest prefix of characters satisfying [p], and the rest. *)
Fixpoint span (p : CharT -> bool) (b : StrT) : StrT * StrT :=
  match b with
  | c :: b' =>
      if p c then let (t, rest) := span p b' in (c :: t, rest) else ([], b)
  | [] => ([], [])
  end.

(** [istream::sentry]: fails on a stream that is not good; when skipping
    white space runs into the end, sets [failbit] and [eofbit]. *)
Definition sentry (noskipws : bool) (i : istream) : bool * istream :=
  if good i then
    if noskipws then (true, i)
    else
      match skip_space (buf i) with
      | [] => (false, setstate true true (with_buf i []))
      | b => (true, with_buf i b)
      end
  else (false, setstate true false i).

(** [in >> std::ws]. *)
Definition ws (i : istream) : istream :=
  let (ok, i) := sentry true i in
  if ok then
    let b := skip_space (buf i) in
    setstate false (empty b) (with_buf i b)
  else i.

(** [in.get()]; [None] is [traits_type::eof()]. *)
Definition get (i : istream) : option CharT * istream :=
  let (ok, i) := sentry true i in
  if ok then
    match buf i with
    | c :: b => (Some c, with_buf i b)
    | [] => (None, setstate true true i)
    end
  else (None, i).

(** [in.peek()]. *)
Definition peek (i : istream) : option CharT * istream :=
  let (ok, i) := sentry true i in
  if ok then
    match buf i with
    | c :: _ => (Some c, i)
    | [] => (None, setstate false true i)
    end
  else (None, i).

(** [in.read(s, n)]: the characters read (their number is [gcount()]). *)
Definition read (n : nat) (i : istream) : StrT * istream :=
  let (ok, i) := sentry true i in
  if ok then
    let s := firstn n (buf i) in
    let i' := with_buf i (skipn n (buf i)) in
    (s, if Nat.eqb (length s) n then i' else setstate true true i')
  else ([], i).

(** [in.putback(c)]: clears [eofbit] first; does nothing more than setting
    [failbit] on a stream that is not good. *)
Definition putback (c : CharT) (i : istream) : istream :=
  let i := {| buf := buf i; failbit := failbit i; eofbit := false |} in
  let (ok, i) := sentry true i in
  if ok then with_buf i (c :: buf i) else i.

(** [in.ignore(n)] after the conversion of [n] to the signed [streamsize]. *)
Definition ignore (n : Z) (i : istream) : istream :=
  let n := if 2 ^ (SIZE_WIDTH - 1) <=? n then n - 2 ^ SIZE_WIDTH else n in
  let (ok, i) := sentry true i in
  if ok && (0 <? n) then
    let i' := with_buf i (skipn (Z.to_nat n) (buf i)) in
    if size (buf i) <? n then setstate false true i' else i'
  else i.

(** [std::getline(in, line, delim)]; [line] is kept when the sentry fails. *)
Fixpoint split_at (delim : CharT) (b : StrT) : StrT * option StrT :=
  match b with
  | [] => ([], None)
  | c :: b' =>
      if Ascii.eqb c delim then ([], Some b')
      else let (l, r) := split_at delim b' in (c :: l, r)
  end.

Definition getline_delim (delim : CharT) (line : StrT) (i : istream)
  : StrT * istream :=
  let (ok, i) := sentry true i in
  if ok then
    match split_at delim (buf i) with
    | (l, Some rest) => (l, with_buf i rest)
    | (l, None) => (l, setstate (empty l) true (with_buf i []))
    end
  else (line, i).

Definition newline : CharT := ascii_of_N 10.
Definition tab : CharT := ascii_of_N 9.

Definition getline (line : StrT) (i : istream) : StrT * istream :=
  getline_delim newline line i.

(** [in >> s] for a string: [s] is kept when the sentry fails. *)
Definition extract_string (s : StrT) (i : istream) : StrT * istream :=
  let (ok, i) := sentry false i in
  if ok then
    let (token, rest) := span (fun c => negb (isspace c)) (buf i) in
    (token, setstate (empty token) (empty rest) (with_buf i rest))
  else (s, i).

(** [in >> c] for a [char]. *)
Definition extract_char (c : CharT) (i : istream) : CharT * istream :=
  let (ok, i) := sentry false i in
  if ok then
    match buf i with
    | c' :: b => (c', with_buf i b)
    | [] => (c, setstate true true i)
    end
  else (c, i).

Definition digit_value (c : CharT) : Z := Z.of_N (N_of_ascii c) - 48.

Definition digits_value (ds : StrT) : Z :=
  fold_left (fun acc c => 10 * acc + digit_value c) ds 0.

(** An optional sign in front of a number. *)
Definition take_sign (b : StrT) : bool * StrT :=
  match b with
  | c :: b' =>
      if Ascii.eqb c "-" then (true, b')
      else if Ascii.eqb c "+" then (false, b')
      else (false, b)
  | [] => (false, b)
  end.

(** [num_get::get] in base ten for an unsigned type of [bits] bits: value,
    failure, rest of the buffer.  No digit: zero and failure.  Too large: the
    greatest value and failure.  A minus sign negates in the unsigned
    type (libstdc++). *)
Definition num_get_unsigned (bits : Z) (b : StrT) : Z * bool * StrT :=
  let (negative, b) := take_sign b in
  let (ds, rest) := span isdigit b in
  if empty ds then (0, true, rest)
  else
    let v := digits_value ds in
    if 2 ^ bits <=? v then (2 ^ bits - 1, true, rest)
    else (if negative then (2 ^ bits - v) mod 2 ^ bits else v, false, rest).

(** [num_get::get] for a signed type of [bits] bits. *)
Definition num_get_signed (bits : Z) (b : StrT) : Z * bool * StrT :=
  let (negative, b) := take_sign b in
  let (ds, rest) := span isdigit b in
  if empty ds then (0, true, rest)
  else
    let v := digits_value ds in
    if negative then
      if 2 ^ (bits - 1) <? v then (- 2 ^ (bits - 1), true, rest)
      else (- v, false, rest)
    else
      if 2 ^ (bits - 1) <=? v then (2 ^ (bits - 1) - 1, true, rest)
      else (v, false, rest).

(** [in >> n] for [unsigned short] (16 bits) and [size_t] (64 bits): [n] is
    kept when the sentry fails. *)
Definition extract_unsigned (bits : Z) (n : Z) (i : istream) : Z * istream :=
  let (ok, i) := sentry false i in
  if ok then
    let '(v, failed, rest) := num_get_unsigned bits (buf i) in
    (v, setstate failed (empty rest) (with_buf i rest))
  else (n, i).

(** [in >> n] for [short]: read as a [long], then narrowed with [failbit]
    when out of range. *)
Definition extract_short (n : Z) (i : istream) : Z * istream :=
  let (ok, i) := sentry false i in
  if ok then
    let '(l, failed, rest) := num_get_signed 64 (buf i) in
    let i := setstate failed (empty rest) (with_buf i rest) in
    if l <? - 2 ^ 15 then (- 2 ^ 15, setstate true false i)
    else if 2 ^ 15 <=? l then (2 ^ 15 - 1, setstate true false i)
    else (l, i)
  else (n, i).

End Istream.

(** ** aff_data.cxx *)

Module Aff.
Import Std Structures Istream.

(** *** What the parsers take from elsewhere *)

Inductive Flag_Type :=
| FLAG_SINGLE_CHAR
| FLAG_DOUBLE_CHAR
| FLAG_NUMBER
| FLAG_UTF8.

(** Modelled from the spec: the casing classes of string_utils.hxx, which is
    not part of the sources at hand. *)
Inductive Casing := ALL_LOWER | ALL_CAPITAL | PASCAL | CAMEL | MIXED.

(** The text functions of Boost.Locale and of string_utils.cxx that the
    parsers call and whose code is not part of the sources at hand.  A locale
    is given by its name. *)
Class Text_Utils := {
  (* boost::locale::conv::utf_to_utf<char32_t> *)
  utf_to_utf32 : StrT -> list N;
  (* validate_utf8 *)
  validate_utf8 : StrT -> bool;
  (* classify_casing(word, locale_aff) *)
  classify_casing : StrT -> StrT -> Casing;
  (* boost::locale::to_upper(word, locale_aff) *)
  locale_to_upper : StrT -> StrT -> StrT
}.

(** Modelled from the spec: [is_all_ascii], [latin1_to_ucs2], [is_all_bmp]
    and [u32_to_ucs2_skip_non_bmp] of string_utils.cxx, which is not part of
    the sources at hand: each byte becomes one flag by zero extension, and
    only the scalar values of the Basic Multilingual Plane become flags. *)
Definition is_all_ascii (s : StrT) : bool :=
  forallb (fun c => (N_of_ascii c <? 128)%N) s.

Definition latin1_to_ucs2 (s : StrT) (out : u16string) : u16string :=
  out ++ map N_of_ascii s.

Definition is_bmp (c : N) : bool := (c <=? 65535)%N.

Definition is_all_bmp (s : list N) : bool := forallb is_bmp s.

Definition u32_to_ucs2_skip_non_bmp (s : list N) (out : u16string) : u16string :=
  out ++ filter is_bmp s.

(** [boost::algorithm::to_upper] under the classic locale. *)
Definition classic_toupper (c : CharT) : CharT :=
  let n := N_of_ascii c in
  if ((97 <=? n) && (n <=? 122))%N then ascii_of_N (n - 32) else c.

Definition to_upper (s : StrT) : StrT := map classic_toupper s.

(** *** Encoding *)

Record Encoding := { name : StrT }.

(** [Encoding::operator=(const std::string&)]. *)
Definition Encoding_of (e : StrT) : Encoding :=
  let name := to_upper e in
  if eqb name (lit "UTF8") then {| name := lit "UTF-8" |}
  else {| name := name |}.

(** Modelled from the spec: [Encoding::empty] and [Encoding::is_utf8] are
    declared in aff_data.hxx, which is not part of the sources at hand. *)
Definition Encoding_empty (e : Encoding) : bool := empty (name e).
Definition is_utf8 (e : Encoding) : bool := eqb (name e) (lit "UTF-8").

(** *** Effects: the stream read from, what is written to [cerr], and
    [exit] *)

Inductive outcome (A : Type) : Type :=
| Returns (a : A)
| Exits (status : Z).
Arguments Returns {A} a.
Arguments Exits {A} status.

(** What [operator<<] puts on [cerr]. *)
Inductive cerr_item :=
| Text (s : string)
| Chars (s : StrT)
| Num (n : Z)
| Endl.

Definition World := (istream * list cerr_item)%type.

Definition M (A : Type) : Type := World -> outcome (A * World).

Definition ret {A} (a : A) : M A := fun w => Returns (a, w).

Definition bind {A B} (m : M A) (k : A -> M B) : M B :=
  fun w =>
    match m w with
    | Returns (a, w') => k a w'
    | Exits status => Exits status
    end.

Notation "x <- m ;; k" := (bind m (fun x => k))
  (at level 61, m at next level, right associativity).
Notation "m ;;; k" := (bind m (fun _ => k))
  (at level 61, right associativity).

(** An operation on the stream that yields a value. *)
Definition on_in {A} (op : istream -> A * istream) : M A :=
  fun w => let (a, i) := op (fst w) in Returns (a, (i, snd w)).

(** An operation on the stream without a value. *)
Definition upd_in (op : istream -> istream) : M unit :=
  fun w => Returns (tt, (op (fst w), snd w)).

(** A test of the stream state. *)
Definition ask {A} (test : istream -> A) : M A :=
  fun w => Returns (test (fst w), w).

Definition cerr (items : list cerr_item) : M unit :=
  fun w => Returns (tt, (fst w, snd w ++ items)).

Definition exit {A} (status : Z) : M A := fun _ => Exits status.

Definition when (b : bool) (m : M unit) : M unit := if b then m else ret tt.

(** [reset_failbit_istream]. *)
Definition reset_failbit_istream (i : istream) : istream :=
  {| buf := buf i; failbit := false; eofbit := eofbit i |}.

(** [read_to_slash_or_space]: the loop over [in.get()] makes at most one
    round for every character of the buffer and one more. *)
Fixpoint read_to_slash_or_space_loop (rounds : nat) (out : StrT)
  (readSomething : bool) : M (option CharT * StrT * bool) :=
  match rounds with
  | O => ret (None, out, readSomething)
  | S rounds' =>
      c <- on_in get ;;
      match c with
      | Some ch =>
          if negb (isspace ch) && negb (Ascii.eqb ch "/") then
            read_to_slash_or_space_loop rounds' (out ++ [ch]) true
          else ret (c, out, readSomething)
      | None => ret (c, out, readSomething)
      end
  end.

Definition read_to_slash_or_space (out : StrT) : M (bool * StrT) :=
  upd_in ws ;;;
  rounds <- ask (fun i => S (length (buf i))) ;;
  r <- read_to_slash_or_space_loop rounds out false ;;
  let '(c, out, readSomething) := r in
  let slash := match c with Some ch => Ascii.eqb ch "/" | None => false end in
  when (readSomething || slash) (upd_in reset_failbit_istream) ;;;
  ret (slash, out).

(** *** Counted commands *)

(** [std::unordered_map<std::string, V>]. *)
Definition amap (V : Type) := list (StrT * V).

Fixpoint amap_find {V} (k : StrT) (m : amap V) : option V :=
  match m with
  | [] => None
  | (k', v) :: m' => if eqb k k' then Some v else amap_find k m'
  end.

(** [m[k] = v]. *)
Fixpoint amap_set {V} (k : StrT) (v : V) (m : amap V) : amap V :=
  match m with
  | [] => [(k, v)]
  | (k', v') :: m' =>
      if eqb k k' then (k, v) :: m' else (k', v') :: amap_set k v m'
  end.

Definition amap_count {V} (k : StrT) (m : amap V) : bool :=
  match amap_find k m with Some _ => true | None => false end.

(** The conversion of a [size_t] to the [int] the counts are kept in. *)
Definition to_int (a : Z) : Z := (a + 2 ^ 31) mod 2 ^ 32 - 2 ^ 31.

(** *** The state the parsers build *)

(** Modelled from the spec: the record [Compound_Check_Pattern] of
    aff_data.hxx, which is not part of the sources at hand. *)
Record Compound_Check_Pattern := {
  first_word_end : StrT;
  second_word_begin : StrT;
  replacement : StrT;
  first_word_flag : char16_t;
  second_word_flag : char16_t
}.

(** Modelled from the spec: the record [Affix] of aff_data.hxx, which is not
    part of the sources at hand, with the fields [parse_affix] fills. *)
Record Affix := {
  Affix_flag : char16_t;
  Affix_cross_product : bool;
  Affix_stripping : StrT;
  Affix_appending : StrT;
  Affix_new_flags : Flag_Set;
  Affix_condition : StrT;
  Affix_morphological_fields : list StrT
}.

(** The dictionary: a multimap from word to flag set, as the list of its
    entries in the order they were put in. *)
Definition Dic_Data := list (StrT * Flag_Set).

(** The settings [parse_aff] reaches through its maps from command to
    target, kept by command. *)
Record Settings := {
  command_strings : amap StrT;
  command_bools : amap bool;
  command_shorts : amap Z;
  command_vec_str : amap (list StrT);
  command_vec_pair : amap (list (StrT * StrT));
  command_flag : amap char16_t
}.

Record Compound := {
  compound_check_patterns : list Compound_Check_Pattern;
  compound_rules : list u16string;
  compound_syllable_max : Z;
  compound_syllable_vowels : StrT;
  compound_syllable_num : u16string
}.

(** The members of [Aff_Data] that the parsers read or write, together with
    the local lists of [parse_aff] ([encoding], the conversion tables and
    the language and ignored characters among the settings, the affix
    lists, the break patterns, the counts), which [parse_aff] starts
    empty. *)
Record Aff_Data := {
  flag_type : Flag_Type;
  flag_aliases : list Flag_Set;
  settings : Settings;
  compound : Compound;
  encoding : Encoding;
  morphological_aliases : list (list StrT);
  break_patterns : list StrT;
  break_exists : bool;
  prefixes : list Affix;
  suffixes : list Affix;
  cmd_with_vec_cnt : amap Z;
  cmd_affix : amap (bool * Z);
  command : StrT;
  locale_aff : StrT;
  words : Dic_Data
}.

Definition set_command_strings (v : amap StrT) (s : Settings) : Settings :=
  {| command_strings := v; command_bools := command_bools s; command_shorts
     := command_shorts s; command_vec_str := command_vec_str s;
     command_vec_pair := command_vec_pair s; command_flag := command_flag s
     |}.

Definition set_command_bools (v : amap bool) (s : Settings) : Settings :=
  {| command_strings := command_strings s; command_bools := v;
     command_shorts := command_shorts s; command_vec_str := command_vec_str
     s; command_vec_pair := command_vec_pair s; command_flag := command_flag
     s |}.

Definition set_command_shorts (v : amap Z) (s : Settings) : Settings :=
  {| command_strings := command_strings s; command_bools := command_bools s;
     command_shorts := v; command_vec_str := command_vec_str s;
     command_vec_pair := command_vec_pair s; command_flag := command_flag s
     |}.

Definition set_command_vec_str (v : amap (list StrT)) (s : Settings) : Settings :=
  {| command_strings := command_strings s; command_bools := command_bools s;
     command_shorts := command_shorts s; command_vec_str := v;
     command_vec_pair := command_vec_pair s; command_flag := command_flag s
     |}.

Definition set_command_vec_pair (v : amap (list (StrT * StrT))) (s : Settings) : Settings :=
  {| command_strings := command_strings s; command_bools := command_bools s;
     command_shorts := command_shorts s; command_vec_str := command_vec_str
     s; command_vec_pair := v; command_flag := command_flag s |}.

Definition set_command_flag (v : amap char16_t) (s : Settings) : Settings :=
  {| command_strings := command_strings s; command_bools := command_bools s;
     command_shorts := command_shorts s; command_vec_str := command_vec_str
     s; command_vec_pair := command_vec_pair s; command_flag := v |}.

Definition set_compound_check_patterns (v : list Compound_Check_Pattern) (c : Compound) : Compound :=
  {| compound_check_patterns := v; compound_rules := compound_rules c;
     compound_syllable_max := compound_syllable_max c;
     compound_syllable_vowels := compound_syllable_vowels c;
     compound_syllable_num := compound_syllable_num c |}.

Definition set_compound_rules (v : list u16string) (c : Compound) : Compound :=
  {| compound_check_patterns := compound_check_patterns c; compound_rules :=
     v; compound_syllable_max := compound_syllable_max c;
     compound_syllable_vowels := compound_syllable_vowels c;
     compound_syllable_num := compound_syllable_num c |}.

Definition set_compound_syllable_max (v : Z) (c : Compound) : Compound :=
  {| compound_check_patterns := compound_check_patterns c; compound_rules :=
     compound_rules c; compound_syllable_max := v; compound_syllable_vowels
     := compound_syllable_vowels c; compound_syllable_num :=
     compound_syllable_num c |}.

Definition set_compound_syllable_vowels (v : StrT) (c : Compound) : Compound :=
  {| compound_check_patterns := compound_check_patterns c; compound_rules :=
     compound_rules c; compound_syllable_max := compound_syllable_max c;
     compound_syllable_vowels := v; compound_syllable_num :=
     compound_syllable_num c |}.

Definition set_compound_syllable_num (v : u16string) (c : Compound) : Compound :=
  {| compound_check_patterns := compound_check_patterns c; compound_rules :=
     compound_rules c; compound_syllable_max := compound_syllable_max c;
     compound_syllable_vowels := compound_syllable_vowels c;
     compound_syllable_num := v |}.

Definition set_flag_type (v : Flag_Type) (a : Aff_Data) : Aff_Data :=
  {| flag_type := v; flag_aliases := flag_aliases a; settings := settings a;
     compound := compound a; encoding := encoding a; morphological_aliases
     := morphological_aliases a; break_patterns := break_patterns a;
     break_exists := break_exists a; prefixes := prefixes a; suffixes :=
     suffixes a; cmd_with_vec_cnt := cmd_with_vec_cnt a; cmd_affix :=
     cmd_affix a; command := command a; locale_aff := locale_aff a; words :=
     words a |}.

Definition set_flag_aliases (v : list Flag_Set) (a : Aff_Data) : Aff_Data :=
  {| flag_type := flag_type a; flag_aliases := v; settings := settings a;
     compound := compound a; encoding := encoding a; morphological_aliases
     := morphological_aliases a; break_patterns := break_patterns a;
     break_exists := break_exists a; prefixes := prefixes a; suffixes :=
     suffixes a; cmd_with_vec_cnt := cmd_with_vec_cnt a; cmd_affix :=
     cmd_affix a; command := command a; locale_aff := locale_aff a; words :=
     words a |}.

Definition set_settings (v : Settings) (a : Aff_Data) : Aff_Data :=
  {| flag_type := flag_type a; flag_aliases := flag_aliases a; settings :=
     v; compound := compound a; encoding := encoding a;
     morphological_aliases := morphological_aliases a; break_patterns :=
     break_patterns a; break_exists := break_exists a; prefixes := prefixes
     a; suffixes := suffixes a; cmd_with_vec_cnt := cmd_with_vec_cnt a;
     cmd_affix := cmd_affix a; command := command a; locale_aff :=
     locale_aff a; words := words a |}.

Definition set_compound (v : Compound) (a : Aff_Data) : Aff_Data :=
  {| flag_type := flag_type a; flag_aliases := flag_aliases a; settings :=
     settings a; compound := v; encoding := encoding a;
     morphological_aliases := morphological_aliases a; break_patterns :=
     break_patterns a; break_exists := break_exists a; prefixes := prefixes
     a; suffixes := suffixes a; cmd_with_vec_cnt := cmd_with_vec_cnt a;
     cmd_affix := cmd_affix a; command := command a; locale_aff :=
     locale_aff a; words := words a |}.

Definition set_encoding (v : Encoding) (a : Aff_Data) : Aff_Data :=
  {| flag_type := flag_type a; flag_aliases := flag_aliases a; settings :=
     settings a; compound := compound a; encoding := v;
     morphological_aliases := morphological_aliases a; break_patterns :=
     break_patterns a; break_exists := break_exists a; prefixes := prefixes
     a; suffixes := suffixes a; cmd_with_vec_cnt := cmd_with_vec_cnt a;
     cmd_affix := cmd_affix a; command := command a; locale_aff :=
     locale_aff a; words := words a |}.

Definition set_morphological_aliases (v : list (list StrT)) (a : Aff_Data) : Aff_Data :=
  {| flag_type := flag_type a; flag_aliases := flag_aliases a; settings :=
     settings a; compound := compound a; encoding := encoding a;
     morphological_aliases := v; break_patterns := break_patterns a;
     break_exists := break_exists a; prefixes := prefixes a; suffixes :=
     suffixes a; cmd_with_vec_cnt := cmd_with_vec_cnt a; cmd_affix :=
     cmd_affix a; command := command a; locale_aff := locale_aff a; words :=
     words a |}.

Definition set_break_patterns (v : list StrT) (a : Aff_Data) : Aff_Data :=
  {| flag_type := flag_type a; flag_aliases := flag_aliases a; settings :=
     settings a; compound := compound a; encoding := encoding a;
     morphological_aliases := morphological_aliases a; break_patterns := v;
     break_exists := break_exists a; prefixes := prefixes a; suffixes :=
     suffixes a; cmd_with_vec_cnt := cmd_with_vec_cnt a; cmd_affix :=
     cmd_affix a; command := command a; locale_aff := locale_aff a; words :=
     words a |}.

Definition set_break_exists (v : bool) (a : Aff_Data) : Aff_Data :=
  {| flag_type := flag_type a; flag_aliases := flag_aliases a; settings :=
     settings a; compound := compound a; encoding := encoding a;
     morphological_aliases := morphological_aliases a; break_patterns :=
     break_patterns a; break_exists := v; prefixes := prefixes a; suffixes
     := suffixes a; cmd_with_vec_cnt := cmd_with_vec_cnt a; cmd_affix :=
     cmd_affix a; command := command a; locale_aff := locale_aff a; words :=
     words a |}.

Definition set_prefixes (v : list Affix) (a : Aff_Data) : Aff_Data :=
  {| flag_type := flag_type a; flag_aliases := flag_aliases a; settings :=
     settings a; compound := compound a; encoding := encoding a;
     morphological_aliases := morphological_aliases a; break_patterns :=
     break_patterns a; break_exists := break_exists a; prefixes := v;
     suffixes := suffixes a; cmd_with_vec_cnt := cmd_with_vec_cnt a;
     cmd_affix := cmd_affix a; command := command a; locale_aff :=
     locale_aff a; words := words a |}.

Definition set_suffixes (v : list Affix) (a : Aff_Data) : Aff_Data :=
  {| flag_type := flag_type a; flag_aliases := flag_aliases a; settings :=
     settings a; compound := compound a; encoding := encoding a;
     morphological_aliases := morphological_aliases a; break_patterns :=
     break_patterns a; break_exists := break_exists a; prefixes := prefixes
     a; suffixes := v; cmd_with_vec_cnt := cmd_with_vec_cnt a; cmd_affix :=
     cmd_affix a; command := command a; locale_aff := locale_aff a; words :=
     words a |}.

Definition set_cmd_with_vec_cnt (v : amap Z) (a : Aff_Data) : Aff_Data :=
  {| flag_type := flag_type a; flag_aliases := flag_aliases a; settings :=
     settings a; compound := compound a; encoding := encoding a;
     morphological_aliases := morphological_aliases a; break_patterns :=
     break_patterns a; break_exists := break_exists a; prefixes := prefixes
     a; suffixes := suffixes a; cmd_with_vec_cnt := v; cmd_affix :=
     cmd_affix a; command := command a; locale_aff := locale_aff a; words :=
     words a |}.

Definition set_cmd_affix (v : amap (bool * Z)) (a : Aff_Data) : Aff_Data :=
  {| flag_type := flag_type a; flag_aliases := flag_aliases a; settings :=
     settings a; compound := compound a; encoding := encoding a;
     morphological_aliases := morphological_aliases a; break_patterns :=
     break_patterns a; break_exists := break_exists a; prefixes := prefixes
     a; suffixes := suffixes a; cmd_with_vec_cnt := cmd_with_vec_cnt a;
     cmd_affix := v; command := command a; locale_aff := locale_aff a; words
     := words a |}.

Definition set_command (v : StrT) (a : Aff_Data) : Aff_Data :=
  {| flag_type := flag_type a; flag_aliases := flag_aliases a; settings :=
     settings a; compound := compound a; encoding := encoding a;
     morphological_aliases := morphological_aliases a; break_patterns :=
     break_patterns a; break_exists := break_exists a; prefixes := prefixes
     a; suffixes := suffixes a; cmd_with_vec_cnt := cmd_with_vec_cnt a;
     cmd_affix := cmd_affix a; command := v; locale_aff := locale_aff a;
     words := words a |}.

Definition set_locale_aff (v : StrT) (a : Aff_Data) : Aff_Data :=
  {| flag_type := flag_type a; flag_aliases := flag_aliases a; settings :=
     settings a; compound := compound a; encoding := encoding a;
     morphological_aliases := morphological_aliases a; break_patterns :=
     break_patterns a; break_exists := break_exists a; prefixes := prefixes
     a; suffixes := suffixes a; cmd_with_vec_cnt := cmd_with_vec_cnt a;
     cmd_affix := cmd_affix a; command := command a; locale_aff := v; words
     := words a |}.

Definition set_words (v : Dic_Data) (a : Aff_Data) : Aff_Data :=
  {| flag_type := flag_type a; flag_aliases := flag_aliases a; settings :=
     settings a; compound := compound a; encoding := encoding a;
     morphological_aliases := morphological_aliases a; break_patterns :=
     break_patterns a; break_exists := break_exists a; prefixes := prefixes
     a; suffixes := suffixes a; cmd_with_vec_cnt := cmd_with_vec_cnt a;
     cmd_affix := cmd_affix a; command := command a; locale_aff :=
     locale_aff a; words := v |}.

Section Parsers.
Context {text_utils : Text_Utils}.

(** [parse_vector_of_T]; [default] is the element [vec.emplace_back()]
    makes, and [parseLineFunc] returns the element it has filled. *)
Definition parse_vector_of_T {T} (default : T) (line_num : Z)
  (command : StrT) (counts : amap Z) (vec : list T)
  (parseLineFunc : T -> M T) : M (amap Z * list T) :=
  match amap_find command counts with
  | None =>
      (* first line *)
      a <- on_in (extract_unsigned SIZE_WIDTH 0) ;;
      failed <- ask fail ;;
      a <- (if failed then
              cerr [Text "Nuspell error: a vector command (series of of similar commands) has no count. Ignoring all of them.";
                    Endl] ;;;
              ret 0
            else ret a) ;;
      ret (amap_set command (to_int a) counts, vec)
  | Some cnt =>
      if negb (cnt =? 0) then
        e <- parseLineFunc default ;;
        failed <- ask fail ;;
        vec <- (if failed then
                  cerr [Text "Nuspell error: single entry of a vector command (series of of similar commands) is invalid";
                        Endl] ;;;
                  ret vec
                else ret (vec ++ [e])) ;;
        ret (amap_set command (cnt - 1) counts, vec)
      else
        cerr [Text "Nuspell warning: extra entries of "; Chars command;
              Text "\n"; Text "Nuspell warning in line "; Num line_num;
              Endl] ;;;
        ret (counts, vec)
  end.

(** *** Flags *)

Definition err_message : string :=
  "Nuspell warning: bytes above 127 in UTF-8 stream should not be treated alone as flags, please update dictionary to use FLAG UTF-8 and make the file valid UTF-8".

(** The pairs of bytes of a [FLAG_DOUBLE_CHAR] token, high byte first, and
    the byte left over when the length is odd. *)
Fixpoint double_char_flags (s : StrT) : u16string :=
  match s with
  | c1 :: c2 :: s' =>
      N.lor (N.shiftl (N_of_ascii c1) 8) (N_of_ascii c2) :: double_char_flags s'
  | [c] => [N_of_ascii c]
  | [] => []
  end.

(** The loop of the [FLAG_NUMBER] case: every round takes a comma from the
    stream. *)
Fixpoint number_flags_loop (rounds : nat) (ret_ : u16string) : M u16string :=
  match rounds with
  | O => ret ret_
  | S rounds' =>
      is_good <- ask good ;;
      if is_good then
        c <- on_in peek ;;
        match c with
        | Some ch =>
            if Ascii.eqb ch "," then
              on_in get ;;;
              flag <- on_in (extract_unsigned 16 0) ;;
              failed <- ask fail ;;
              if negb failed then
                number_flags_loop rounds' (ret_ ++ [Z.to_N flag])
              else
                (* err, comma and no number after that *)
                cerr [Text "Nuspell error: long flag, no number after comma";
                      Endl] ;;;
                ret ret_
            else ret ret_
        | None => ret ret_
        end
      else ret ret_
  end.

(** [decode_flags]. *)
Definition decode_flags (line_num : Z) (t : Flag_Type) (enc : Encoding)
  : M u16string :=
  match t with
  | FLAG_SINGLE_CHAR =>
      s <- on_in (extract_string []) ;;
      failed <- ask fail ;;
      if failed then
        (* err no flag at all *)
        cerr [Text "Nuspell error: missing single-character flag in line ";
              Num line_num; Endl] ;;;
        exit 0
      else
        when (is_utf8 enc && negb (is_all_ascii s))
          (cerr [Text err_message; Text "\n";
                 Text "Nuspell warning in line "; Num line_num; Text "\n";
                 Endl]) ;;;
        ret (latin1_to_ucs2 s [])
  | FLAG_DOUBLE_CHAR =>
      s <- on_in (extract_string []) ;;
      failed <- ask fail ;;
      if failed then
        (* err no flag at all *)
        cerr [Text "Nuspell error: missing double-character flag in line ";
              Num line_num; Endl] ;;;
        ret []
      else
        when (is_utf8 enc && negb (is_all_ascii s))
          (cerr [Text err_message; Text "\n";
                 Text "Nuspell warning in line "; Num line_num; Endl]) ;;;
        ret (double_char_flags s)
  | FLAG_NUMBER =>
      flag <- on_in (extract_unsigned 16 0) ;;
      failed <- ask fail ;;
      if failed then
        (* err no flag at all *)
        cerr [Text "Nuspell error: missing numerical flag in line ";
              Num line_num; Endl] ;;;
        ret []
      else
        rounds <- ask (fun i => S (length (buf i))) ;;
        number_flags_loop rounds [Z.to_N flag]
  | FLAG_UTF8 =>
      s <- on_in (extract_string []) ;;
      when (negb (is_utf8 enc))
        (cerr [Text "Nuspell error: file encoding is not UTF-8, yet flags are";
               Endl]) ;;;
      failed <- ask fail ;;
      if failed then
        (* err no flag at all *)
        cerr [Text "Nuspell error: missing UTF-8 flag in line ";
              Num line_num; Endl] ;;;
        ret []
      else
        let u32flags := utf_to_utf32 s in
        when (negb (is_all_bmp u32flags))
          (cerr [Text "Nuspell warning: flags must be in BMP, skipping non-BMP\n";
                 Text "Nuspell warning in line "; Num line_num; Endl]) ;;;
        ret (u32_to_ucs2_skip_non_bmp u32flags [])
  end.

(** [decode_single_flag]. *)
Definition decode_single_flag (line_num : Z) (t : Flag_Type) (enc : Encoding)
  : M char16_t :=
  flags <- decode_flags line_num t enc ;;
  match flags with
  | front :: _ => ret front
  | [] => ret 0%N
  end.

(** [decode_flags_possible_alias]. *)
Definition decode_flags_possible_alias (line_num : Z) (t : Flag_Type)
  (enc : Encoding) (flag_aliases : list Flag_Set) : M u16string :=
  if empty flag_aliases then decode_flags line_num t enc
  else
    i <- on_in (extract_unsigned SIZE_WIDTH 0) ;;
    failed <- ask fail ;;
    if negb failed && (0 <? i) && (i <=? size flag_aliases) then
      ret (match nth_error flag_aliases (Z.to_nat (i - 1)) with
           | Some alias => flags alias
           | None => []
           end)
    else
      cerr [Text "Nuspell error: invalid flag alias index\n"] ;;;
      ret [].

(** *** Affix entries *)

(** [parse_morhological_fields]: the loop takes a token in every round. *)
Fixpoint morhological_fields_loop (rounds : nat) (vecOut : list StrT)
  : M (list StrT) :=
  match rounds with
  | O => ret vecOut
  | S rounds' =>
      morph <- on_in (extract_string []) ;;
      failed <- ask fail ;;
      if failed then ret vecOut
      else morhological_fields_loop rounds' (vecOut ++ [morph])
  end.

Definition parse_morhological_fields (vecOut : list StrT) : M (list StrT) :=
  is_good <- ask good ;;
  if negb is_good then ret vecOut
  else
    rounds <- ask (fun i => S (length (buf i))) ;;
    vecOut <- morhological_fields_loop rounds vecOut ;;
    upd_in reset_failbit_istream ;;;
    ret vecOut.

(** [parse_affix]; returns [command], [vec] and [cmd_affix] as it leaves
    them. *)
Definition parse_affix (line_num : Z) (command : StrT) (t : Flag_Type)
  (enc : Encoding) (flag_aliases : list Flag_Set) (vec : list Affix)
  (cmd_affix : amap (bool * Z)) : M (StrT * list Affix * amap (bool * Z)) :=
  f <- decode_single_flag line_num t enc ;;
  if (f =? 0)%N then
    (* err *)
    ret (command, vec, cmd_affix)
  else
    let f1 := ascii_of_N (N.land f 255) in
    let f2 := ascii_of_N (N.land (N.shiftr f 8) 255) in
    let command := command ++ [f1; f2] in
    (* note: the current affix parser does not allow the same flag
       to be used once with cross product and again witohut
       one flag is tied to one cross product value *)
    match amap_find command cmd_affix with
    | None =>
        cross_char <- on_in (extract_char zero) ;; (* 'Y' or 'N' *)
        cnt <- on_in (extract_unsigned SIZE_WIDTH 0) ;;
        let cross := Ascii.eqb cross_char "Y" in
        failed <- ask fail ;;
        cnt <- (if failed then
                  cerr [Text "Nuspell error: a SFX/PFX header command is invalid, missing count or cross product in line ";
                        Num line_num; Endl] ;;;
                  ret 0
                else ret cnt) ;;
        ret (command, vec, amap_set command (cross, to_int cnt) cmd_affix)
    | Some (cross, cnt) =>
        if negb (cnt =? 0) then
          stripping <- on_in (extract_string []) ;;
          let stripping := if eqb stripping (lit "0") then [] else stripping in
          r <- read_to_slash_or_space [] ;;
          let (slash, appending) := r : bool * StrT in
          new_flags <- (if slash then
                          decode_flags_possible_alias line_num t enc
                            flag_aliases
                        else ret []) ;;
          let appending := if eqb appending (lit "0") then [] else appending in
          failed <- ask fail ;;
          if failed then ret (command, vec, cmd_affix)
          else
            condition <- on_in (extract_string []) ;;
            let condition := if empty condition then lit "." else condition in
            failed <- ask fail ;;
            morphological_fields <-
              (if failed then upd_in reset_failbit_istream ;;; ret []
               else parse_morhological_fields []) ;;
            let elem :=
              {| Affix_flag := f;
                 Affix_cross_product := cross;
                 Affix_stripping := stripping;
                 Affix_appending := appending;
                 Affix_new_flags :=
                   if slash then Flag_Set_of new_flags else {| flags := [] |};
                 Affix_condition := condition;
                 Affix_morphological_fields := morphological_fields |} in
            ret (command, vec ++ [elem],
                 amap_set command (cross, cnt - 1) cmd_affix)
        else
          cerr [Text "Nuspell warning: extra entries of ";
                Chars (sub command 0 3); Text "\n";
                Text "Nuspell warning in line "; Num line_num; Endl] ;;;
          ret (command, vec, cmd_affix)
    end.

(** [parse_flag_type]. *)
Definition parse_flag_type (line_num : Z) (flag_type : Flag_Type)
  : M Flag_Type :=
  p <- on_in (extract_string []) ;;
  let p := to_upper p in
  if eqb p (lit "LONG") then ret FLAG_DOUBLE_CHAR
  else if eqb p (lit "NUM") then ret FLAG_NUMBER
  else if eqb p (lit "UTF-8") then ret FLAG_UTF8
  else
    cerr [Text "Nuspell error: unknown FLAG type"; Endl] ;;;
    ret flag_type.

(** *** COMPOUNDRULE *)

(** A character the [.] of an ECMAScript regular expression matches. *)
Definition regex_dot (c : CharT) : bool :=
  negb (Ascii.eqb c (ascii_of_N 10)) && negb (Ascii.eqb c (ascii_of_N 13)).

Definition is_quantifier (c : CharT) : bool :=
  Ascii.eqb c "?" || Ascii.eqb c "*".

(** The successive matches of [\((..)\)([?*]?)] in [str], from left to right,
    each giving its flag and, if there is one, its quantifier. *)
Fixpoint double_char_rule (str : StrT) : u16string :=
  match str with
  | [] => []
  | c0 :: rest0 =>
      match rest0 with
      | c1 :: c2 :: c3 :: rest =>
          if Ascii.eqb c0 "(" && regex_dot c1 && regex_dot c2
             && Ascii.eqb c3 ")"
          then
            N.lor (N.shiftl (N_of_ascii c1) 8) (N_of_ascii c2)
            :: match rest with
               | q :: rest' =>
                   if is_quantifier q
                   then N_of_ascii q :: double_char_rule rest'
                   else double_char_rule rest
               | [] => []
               end
          else double_char_rule rest0
      | _ => double_char_rule rest0
      end
  end.

(** The successive matches of [\(([0-9]+)\)([?*]?)] in [str]; a number above
    [char16_t(-1)] gives no flag.  Every round moves on by a character at
    least. *)
Fixpoint number_rule (rounds : nat) (str : StrT) : u16string :=
  match rounds with
  | O => []
  | S rounds' =>
      match str with
      | [] => []
      | c0 :: rest0 =>
          if Ascii.eqb c0 "(" then
            let (ds, rest1) := span isdigit rest0 in
            match ds, rest1 with
            | _ :: _, c :: rest2 =>
                if Ascii.eqb c ")" then
                  let fl := digits_value ds in
                  let number := if fl <=? 65535 then [Z.to_N fl] else [] in
                  match rest2 with
                  | q :: rest3 =>
                      if is_quantifier q
                      then number ++ N_of_ascii q :: number_rule rounds' rest3
                      else number ++ number_rule rounds' rest2
                  | [] => number
                  end
                else number_rule rounds' rest0
            | _, _ => number_rule rounds' rest0
            end
          else number_rule rounds' rest0
      end
  end.

(** [parse_compound_rule]. *)
Definition parse_compound_rule (line_num : Z) (t : Flag_Type)
  (enc : Encoding) (ret_ : u16string) : M u16string :=
  match t with
  | FLAG_SINGLE_CHAR | FLAG_UTF8 => decode_flags line_num t enc
  | FLAG_DOUBLE_CHAR =>
      str <- on_in (extract_string []) ;;
      ret (ret_ ++ double_char_rule str)
  | FLAG_NUMBER =>
      str <- on_in (extract_string []) ;;
      ret (ret_ ++ number_rule (length str) str)
  end.

(** *** Start and end of a file *)

Definition BOM : StrT := [ascii_of_N 239; ascii_of_N 187; ascii_of_N 191].

(** [strip_bom]. *)
Definition strip_bom (i : istream) : istream :=
  let (bom, i) := read 3 i in
  if negb (Nat.eqb (length bom) 3) || negb (eqb bom BOM) then
    reset_failbit_istream (fold_left (fun i c => putback c i) (rev bom) i)
  else i.

(** [get_locale_name], with its third argument [filename] left empty as
    [set_encoding_and_language] calls it. *)
Definition get_locale_name (lang enc : StrT) : StrT :=
  let enc := if empty enc then lit "ISO8859-1" else enc in
  let lang := if empty lang then lit "en_US" else lang in
  lang ++ lit "." ++ enc.

(** *** parse_aff *)

(** The keys of the maps from command to target that [parse_aff] sets up. *)
Definition command_strings_keys : list StrT :=
  [lit "LANG"; lit "IGNORE"; lit "KEY"; lit "TRY"; lit "WORDCHARS"].

Definition command_bools_keys : list StrT :=
  [lit "COMPLEXPREFIXES"; lit "ONLYMAXDIFF"; lit "NOSPLITSUGS";
   lit "SUGSWITHDOTS"; lit "FORBIDWARN"; lit "COMPOUNDMORESUFFIXES";
   lit "CHECKCOMPOUNDDUP"; lit "CHECKCOMPOUNDREP"; lit "CHECKCOMPOUNDCASE";
   lit "CHECKCOMPOUNDTRIPLE"; lit "SIMPLIFIEDTRIPLE"; lit "FULLSTRIP";
   lit "CHECKSHARPS"].

Definition command_vec_str_keys : list StrT := [lit "MAP"].

Definition command_shorts_keys : list StrT :=
  [lit "MAXCPDSUGS"; lit "MAXNGRAMSUGS"; lit "MAXDIFF"; lit "COMPOUNDMIN";
   lit "COMPOUNDWORDMAX"].

Definition command_vec_pair_keys : list StrT :=
  [lit "REP"; lit "PHONE"; lit "ICONV"; lit "OCONV"].

Definition command_flag_keys : list StrT :=
  [lit "NOSUGGEST"; lit "WARN"; lit "COMPOUNDFLAG"; lit "COMPOUNDBEGIN";
   lit "COMPOUNDLAST"; lit "COMPOUNDMIDDLE"; lit "ONLYINCOMPOUND";
   lit "COMPOUNDPERMITFLAG"; lit "COMPOUNDFORBIDFLAG"; lit "COMPOUNDROOT";
   lit "FORCEUCASE"; lit "CIRCUMFIX"; lit "FORBIDDENWORD"; lit "KEEPCASE";
   lit "NEEDAFFIX"; lit "SUBSTANDARD"].

(** [map.count(command)] for one of these maps. *)
Definition count (keys : list StrT) (command : StrT) : bool :=
  existsb (eqb command) keys.

(** The target of a command; a target not written yet holds the value it was
    constructed with, which for a string or a vector is the empty one. *)
Definition target {V} (default : V) (command : StrT) (m : amap V) : V :=
  match amap_find command m with Some v => v | None => default end.

Definition on_settings (f : Settings -> Settings) (a : Aff_Data) : Aff_Data :=
  set_settings (f (settings a)) a.

Definition on_compound (f : Compound -> Compound) (a : Aff_Data) : Aff_Data :=
  set_compound (f (compound a)) a.

Definition more_than_once (command : StrT) (line_num : Z) : M unit :=
  cerr [Text "Nuspell warning: setting "; Chars command;
        Text " more than once, ignoring\n";
        Text "Nuspell warning in line "; Num line_num; Endl].

(** The chain of [if ... else if ...] on [command] in the loop of
    [parse_aff]. *)
Definition parse_aff_command (line_num : Z) (command : StrT) (a : Aff_Data)
  : M Aff_Data :=
  if eqb command (lit "PFX") || eqb command (lit "SFX") then
    let is_prefix := match command with c :: _ => Ascii.eqb c "P" | [] => false end in
    let vec := if is_prefix then prefixes a else suffixes a in
    r <- parse_affix line_num command (flag_type a) (encoding a)
           (flag_aliases a) vec (cmd_affix a) ;;
    let '(command, vec, cmd_affix) := r in
    let a := set_command command (set_cmd_affix cmd_affix a) in
    ret (if is_prefix then set_prefixes vec a else set_suffixes vec a)
  else if count command_strings_keys command then
    let str := target [] command (command_strings (settings a)) in
    if empty str then
      str <- on_in (extract_string str) ;;
      ret (on_settings
             (fun s => set_command_strings
                         (amap_set command str (command_strings s)) s) a)
    else
      more_than_once command line_num ;;;
      ret a
  else if count command_bools_keys command then
    ret (on_settings
           (fun s => set_command_bools
                       (amap_set command true (command_bools s)) s) a)
  else if count command_shorts_keys command then
    n <- on_in (extract_short
                  (target 0 command (command_shorts (settings a)))) ;;
    ret (on_settings
           (fun s => set_command_shorts
                       (amap_set command n (command_shorts s)) s) a)
  else if count command_flag_keys command then
    f <- decode_single_flag line_num (flag_type a) (encoding a) ;;
    ret (on_settings
           (fun s => set_command_flag
                       (amap_set command f (command_flag s)) s) a)
  else if count command_vec_str_keys command then
    let vec := target [] command (command_vec_str (settings a)) in
    let func := fun p : StrT => on_in (extract_string p) in
    r <- parse_vector_of_T [] line_num command (cmd_with_vec_cnt a) vec func ;;
    let (counts, vec) := r : amap Z * list StrT in
    ret (set_cmd_with_vec_cnt counts
           (on_settings
              (fun s => set_command_vec_str
                          (amap_set command vec (command_vec_str s)) s) a))
  else if count command_vec_pair_keys command then
    let vec := target [] command (command_vec_pair (settings a)) in
    let func := fun p : StrT * StrT =>
      first <- on_in (extract_string (fst p)) ;;
      second <- on_in (extract_string (snd p)) ;;
      ret (first, second) in
    r <- parse_vector_of_T ([], []) line_num command (cmd_with_vec_cnt a)
           vec func ;;
    let (counts, vec) := r : amap Z * list (StrT * StrT) in
    ret (set_cmd_with_vec_cnt counts
           (on_settings
              (fun s => set_command_vec_pair
                          (amap_set command vec (command_vec_pair s)) s) a))
  else if eqb command (lit "SET") then
    if Encoding_empty (encoding a) then
      str <- on_in (extract_string []) ;;
      ret (set_encoding (Encoding_of str) a)
    else
      more_than_once command line_num ;;;
      ret a
  else if eqb command (lit "FLAG") then
    t <- parse_flag_type line_num (flag_type a) ;;
    ret (set_flag_type t a)
  else if eqb command (lit "AF") then
    let func := fun _ : Flag_Set =>
      p <- decode_flags line_num (flag_type a) (encoding a) ;;
      ret (Flag_Set_of p) in
    r <- parse_vector_of_T {| flags := [] |} line_num command
           (cmd_with_vec_cnt a) (flag_aliases a) func ;;
    let (counts, vec) := r : amap Z * list Flag_Set in
    ret (set_cmd_with_vec_cnt counts (set_flag_aliases vec a))
  else if eqb command (lit "AM") then
    r <- parse_vector_of_T [] line_num command (cmd_with_vec_cnt a)
           (morphological_aliases a) parse_morhological_fields ;;
    let (counts, vec) := r : amap Z * list (list StrT) in
    ret (set_cmd_with_vec_cnt counts (set_morphological_aliases vec a))
  else if eqb command (lit "BREAK") then
    let func := fun p : StrT => on_in (extract_string p) in
    r <- parse_vector_of_T [] line_num command (cmd_with_vec_cnt a)
           (break_patterns a) func ;;
    let (counts, vec) := r : amap Z * list StrT in
    ret (set_break_exists true
           (set_cmd_with_vec_cnt counts (set_break_patterns vec a)))
  else if eqb command (lit "CHECKCOMPOUNDPATTERN") then
    let func := fun p : Compound_Check_Pattern =>
      r1 <- read_to_slash_or_space (first_word_end p) ;;
      let (slash1, first_word_end) := r1 : bool * StrT in
      first_word_flag <-
        (if slash1 then decode_single_flag line_num (flag_type a) (encoding a)
         else ret (first_word_flag p)) ;;
      r2 <- read_to_slash_or_space (second_word_begin p) ;;
      let (slash2, second_word_begin) := r2 : bool * StrT in
      second_word_flag <-
        (if slash2 then decode_single_flag line_num (flag_type a) (encoding a)
         else ret (second_word_flag p)) ;;
      failed <- ask fail ;;
      if failed then
        ret {| first_word_end := first_word_end;
               second_word_begin := second_word_begin;
               replacement := replacement p;
               first_word_flag := first_word_flag;
               second_word_flag := second_word_flag |}
      else
        replacement <- on_in (extract_string (replacement p)) ;;
        upd_in reset_failbit_istream ;;;
        ret {| first_word_end := first_word_end;
               second_word_begin := second_word_begin;
               replacement := replacement;
               first_word_flag := first_word_flag;
               second_word_flag := second_word_flag |} in
    r <- parse_vector_of_T
           {| first_word_end := []; second_word_begin := [];
              replacement := []; first_word_flag := 0%N;
              second_word_flag := 0%N |}
           line_num command (cmd_with_vec_cnt a)
           (compound_check_patterns (compound a)) func ;;
    let (counts, vec) := r : amap Z * list Compound_Check_Pattern in
    ret (set_cmd_with_vec_cnt counts
           (on_compound (set_compound_check_patterns vec) a))
  else if eqb command (lit "COMPOUNDRULE") then
    let func := fun rule : u16string =>
      parse_compound_rule line_num (flag_type a) (encoding a) rule in
    r <- parse_vector_of_T [] line_num command (cmd_with_vec_cnt a)
           (compound_rules (compound a)) func ;;
    let (counts, vec) := r : amap Z * list u16string in
    ret (set_cmd_with_vec_cnt counts (on_compound (set_compound_rules vec) a))
  else if eqb command (lit "COMPOUNDSYLLABLE") then
    max <- on_in (extract_short (compound_syllable_max (compound a))) ;;
    vowels <- on_in (extract_string (compound_syllable_vowels (compound a))) ;;
    ret (on_compound
           (fun c => set_compound_syllable_max max
                       (set_compound_syllable_vowels vowels c)) a)
  else if eqb command (lit "SYLLABLENUM") then
    num <- decode_flags line_num (flag_type a) (encoding a) ;;
    ret (on_compound (set_compound_syllable_num num) a)
  else ret a.

(** The body of the loop of [parse_aff] for one line; the stream it works on
    is the string stream [ss]. *)
Definition parse_aff_line (line_num : Z) (line : StrT) (a : Aff_Data)
  : M Aff_Data :=
  when (is_utf8 (encoding a) && negb (validate_utf8 line))
    (cerr [Text "Nuspell warning: invalid utf in aff file"; Endl]) ;;;
  upd_in (fun ss => clear (str ss line)) ;;;
  upd_in ws ;;;
  at_eof <- ask eof ;;
  c <- (if at_eof then ret None else on_in peek) ;;
  let is_comment :=
    match c with Some ch => Ascii.eqb ch "#" | None => false end in
  if at_eof || is_comment then
    ret a (* skip comment or empty lines *)
  else
    command <- on_in (extract_string (command a)) ;;
    let command := to_upper command in
    upd_in ws ;;;
    a <- parse_aff_command line_num command (set_command command a) ;;
    failed <- ask fail ;;
    when failed
      (cerr [Text "Nuspell error: could not parse affix file line ";
             Num line_num; Text ": "; Chars line; Endl]) ;;;
    ret a.

(** The loop [while (getline(in, line))] of [parse_aff]: every round takes a
    line from [in_]. *)
Fixpoint parse_aff_lines (rounds : nat) (line_num : Z) (line : StrT)
  (a : Aff_Data) (in_ : istream) (w : World)
  : outcome (Aff_Data * istream * World) :=
  match rounds with
  | O => Returns (a, in_, w)
  | S rounds' =>
      let (line, in_) := getline line in_ in
      if fail in_ then Returns (a, in_, w)
      else
        match parse_aff_line (line_num + 1) line a w with
        | Returns (a, w) =>
            parse_aff_lines rounds' (line_num + 1) line a in_ w
        | Exits status => Exits status
        end
  end.

(** The lists local to [parse_aff], empty at its start. *)
Definition parse_aff_start (a : Aff_Data) : Aff_Data :=
  let s := settings a in
  let s :=
    set_command_strings
      (amap_set (lit "LANG") [] (amap_set (lit "IGNORE") [] (command_strings s)))
      s in
  let s :=
    set_command_vec_pair
      (amap_set (lit "ICONV") [] (amap_set (lit "OCONV") [] (command_vec_pair s)))
      s in
  {| flag_type := FLAG_SINGLE_CHAR; flag_aliases := flag_aliases a;
     settings := s; compound := compound a; encoding := {| name := [] |};
     morphological_aliases := []; break_patterns := [];
     break_exists := false; prefixes := []; suffixes := [];
     cmd_with_vec_cnt := []; cmd_affix := []; command := [];
     locale_aff := locale_aff a; words := words a |}.

(** [Aff_Data::parse_aff], up to the point where the gathered lists are
    moved into the lookup structures: the constructions of
    [Substr_Replacer], [Break_Table], [Prefix_Entry] and [Suffix_Entry]
    above are what that move runs.  The result is the value returned, the
    state, the stream as it is left and what was written to [cerr]. *)
Definition parse_aff (a : Aff_Data) (in_ : istream) (cerr0 : list cerr_item)
  : outcome (bool * Aff_Data * istream * list cerr_item) :=
  let a := parse_aff_start a in
  let in_ := strip_bom in_ in
  match parse_aff_lines (S (length (buf in_))) 0 [] a in_
          (istringstream [], cerr0) with
  | Exits status => Exits status
  | Returns (a, in_, w) =>
      (* default BREAK definition *)
      let a :=
        if negb (break_exists a) then
          set_break_patterns
            (break_patterns a ++ [lit "-"; lit "^-"; lit "-$"]) a
        else a in
      (* now fill data structures from temporary data *)
      let a :=
        set_locale_aff
          (get_locale_name
             (target [] (lit "LANG") (command_strings (settings a)))
             (name (encoding a))) a in
      Returns (eof in_, a, in_, snd w) (* success when eof is reached *)
  end.

(** *** parse_dic *)

Definition is_lower_letter (c : CharT) : bool :=
  let n := N_of_ascii c in ((97 <=? n) && (n <=? 122))%N.

(** The loop of [dic_find_end_of_word_heuristics]: [a] moves forward in
    every round. *)
Fixpoint dic_find_end_of_word_loop (rounds : nat) (line : StrT) (a : Z) : Z :=
  match rounds with
  | O => npos
  | S rounds' =>
      let a := find_char line " " a in
      if a =? npos then npos
      else
        let b := find_first_not_of line " " a in
        if b =? npos then npos
        else if size_sub (size line) 3 <? b then npos
        else if is_lower_letter (at_ line b)
                && is_lower_letter (at_ line (b + 1))
                && Ascii.eqb (at_ line (b + 2)) ":"
        then a
        else dic_find_end_of_word_loop rounds' line b
  end.

(** [dic_find_end_of_word_heuristics]. *)
Definition dic_find_end_of_word_heuristics (line : StrT) : Z :=
  if size line <? 4 then npos
  else dic_find_end_of_word_loop (S (length line)) line 0.

(** The search of [parse_dic] for the first slash that no backslash
    precedes. *)
Fixpoint find_slash (rounds : nat) (line : StrT) (slash_pos : Z) : Z :=
  match rounds with
  | O => slash_pos
  | S rounds' =>
      let slash_pos := find_char line "/" slash_pos in
      if slash_pos =? npos then slash_pos
      else if slash_pos =? 0 then slash_pos
      else if negb (Ascii.eqb (at_ line (slash_pos - 1)) "\") then slash_pos
      else find_slash rounds' line (slash_pos + 1)
  end.

Definition HIDDEN_HOMONYM_FLAG : char16_t := 65535%N.

(** [words.equal_range(word)]. *)
Definition equal_range (words : Dic_Data) (word : StrT) : Dic_Data :=
  filter (fun w => eqb (fst w) word) words.

Definition is_hidden_homonym (w : StrT * Flag_Set) : bool :=
  contains (snd w) HIDDEN_HOMONYM_FLAG.

(** [h->second = flags] on the first entry for [word] that carries the
    hidden-homonym flag; [None] when [find_if] finds none. *)
Fixpoint replace_hidden_homonym (words : Dic_Data) (word : StrT)
  (flags : Flag_Set) : option Dic_Data :=
  match words with
  | [] => None
  | w :: words' =>
      if eqb (fst w) word && is_hidden_homonym w
      then Some ((fst w, flags) :: words')
      else match replace_hidden_homonym words' word flags with
           | Some words'' => Some (w :: words'')
           | None => None
           end
  end.

(** The [switch (casing)] of [parse_dic], under the locale [loc]. *)
Definition insert_by_casing (loc : StrT) (words : Dic_Data) (word : StrT)
  (flags : u16string) : Dic_Data :=
  match classify_casing loc word with
  | ALL_CAPITAL =>
      (* check for hidden homonym *)
      match replace_hidden_homonym words word (Flag_Set_of flags) with
      | Some words' => words' (* replace if found *)
      | None => words ++ [(word, Flag_Set_of flags)]
      end
  | PASCAL | CAMEL =>
      let words := words ++ [(word, Flag_Set_of flags)] in
      (* add the hidden homonym directly in uppercase *)
      let up := locale_to_upper loc word in
      if existsb is_hidden_homonym (equal_range words up) then words
      else words ++ [(up, Flag_Set_of (flags ++ [HIDDEN_HOMONYM_FLAG]))]
  | _ => words ++ [(word, Flag_Set_of flags)]
  end.

(** The body of the loop of [parse_dic] for one line, on the string stream
    [ss]. *)
Definition parse_dic_line (line_number : Z) (line : StrT) (encoding : Encoding)
  (a : Aff_Data) : M Aff_Data :=
  upd_in (fun ss => clear (str ss line)) ;;;
  when (is_utf8 encoding && negb (validate_utf8 line))
    (cerr [Text "Invalid utf in dic file"; Endl]) ;;;
  let slash_pos := find_slash (S (length line)) line 0 in
  entry <-
    (if negb (slash_pos =? npos) then
       (* slash found, word until slash *)
       let word := sub line 0 slash_pos in
       upd_in (ignore (slash_pos + 1)) ;;;
       flags <- decode_flags_possible_alias line_number (flag_type a)
                  encoding (flag_aliases a) ;;
       failed <- ask fail ;;
       ret (if failed then None else Some (word, flags))
     else if negb (find_char line tab 0 =? npos) then
       (* Tab found, word until tab. No flags. *)
       word <- on_in (getline_delim tab []) ;;
       ret (Some (word, []))
     else
       let end_ := dic_find_end_of_word_heuristics line in
       let word := sub line 0 end_ in
       upd_in (ignore end_) ;;;
       ret (Some (word, []))) ;;
  match entry with
  | None => ret a
  | Some (word, flags) =>
      if empty word then ret a
      else ret (set_words
                  (insert_by_casing (locale_aff a) (words a) word flags) a)
  end.

(** The loop [while (getline(in, line))] of [parse_dic]. *)
Fixpoint parse_dic_lines (rounds : nat) (line_number : Z) (line : StrT)
  (encoding : Encoding) (a : Aff_Data) (in_ : istream) (w : World)
  : outcome (Aff_Data * istream * World) :=
  match rounds with
  | O => Returns (a, in_, w)
  | S rounds' =>
      let (line, in_) := getline line in_ in
      if fail in_ then Returns (a, in_, w)
      else
        match parse_dic_line (line_number + 1) line encoding a w with
        | Returns (a, w) =>
            parse_dic_lines rounds' (line_number + 1) line encoding a in_ w
        | Exits status => Exits status
        end
  end.

(** The encoding of a locale made by [boost::locale::generator] from a name
    [language.encoding]: what follows the first dot, up to a [@]. *)
Definition locale_encoding (loc : StrT) : StrT :=
  match snd (split_at "." loc) with
  | Some rest => fst (split_at "@" rest)
  | None => []
  end.

(** [Aff_Data::parse_dic]: the value returned, the state, the stream as it is
    left and what was written to [cerr]. *)
Definition parse_dic (a : Aff_Data) (in_ : istream) (cerr0 : list cerr_item)
  : outcome (bool * Aff_Data * istream * list cerr_item) :=
  let in_ := strip_bom in_ in
  let (line, in_) := getline [] in_ in
  if fail in_ then Returns (false, a, in_, cerr0)
  else
    let encoding := Encoding_of (locale_encoding (locale_aff a)) in
    let cerr1 :=
      if is_utf8 encoding && negb (validate_utf8 line)
      then cerr0 ++ [Text "Invalid utf in dic file"; Endl] else cerr0 in
    let ss := str (istringstream []) line in
    let (approximate_size, ss) := extract_unsigned SIZE_WIDTH 0 ss in
    if fail ss then Returns (false, a, in_, cerr1)
    else
      match parse_dic_lines (S (length (buf in_))) 1 line encoding a in_
              (ss, cerr1) with
      | Exits status => Exits status
      | Returns (a, in_, w) =>
          Returns (eof in_, a, in_, snd w) (* success if we reached eof *)
      end.

End Parsers.

(** An [Aff_Data] in which nothing has been set. *)
Definition Aff_Data_new : Aff_Data :=
  {| flag_type := FLAG_SINGLE_CHAR; flag_aliases := [];
     settings :=
       {| command_strings := []; command_bools := []; command_shorts := [];
          command_vec_str := []; command_vec_pair := []; command_flag := [] |};
     compound :=
       {| compound_check_patterns := []; compound_rules := [];
          compound_syllable_max := 0; compound_syllable_vowels := [];
          compound_syllable_num := [] |};
     encoding := {| name := [] |}; morphological_aliases := [];
     break_patterns := []; break_exists := false; prefixes := [];
     suffixes := []; cmd_with_vec_cnt := []; cmd_affix := []; command := [];
     locale_aff := []; words := [] |}.

(** Modelled from the spec: the text functions for ASCII text under an
    English locale.  A word without upper-case letters is [ALL_LOWER], one
    without lower-case letters [ALL_CAPITAL], another one [PASCAL] when it
    starts with an upper-case letter and [CAMEL] when not. *)
Definition is_upper_letter (c : CharT) : bool :=
  let n := N_of_ascii c in ((65 <=? n) && (n <=? 90))%N.

Definition ascii_classify_casing (word : StrT) : Casing :=
  if negb (existsb is_upper_letter word) then ALL_LOWER
  else if negb (existsb is_lower_letter word) then ALL_CAPITAL
  else match word with
       | c :: _ => if is_upper_letter c then PASCAL else CAMEL
       | [] => ALL_LOWER
       end.

Definition ascii_text_utils : Text_Utils :=
  {| utf_to_utf32 := map N_of_ascii;
     validate_utf8 := is_all_ascii;
     classify_casing := fun _ => ascii_classify_casing;
     locale_to_upper := fun _ => to_upper |}.

(** The state in which the dictionary of the scenario is read: nothing set
    but the locale, made from the encoding UTF-8 and the language en_US. *)
Definition utf8_en_US : Aff_Data :=
  set_locale_aff (get_locale_name (lit "en_US") (lit "UTF-8")) Aff_Data_new.

(** *** Notions used to state the properties *)

(** What holds of every value a computation returns. *)
Definition post {A} (m : M A) (Q : A -> Prop) : Prop :=
  forall w a w', m w = Returns (a, w') -> Q a.

(** A value of [char16_t]. *)
Definition char16 (f : N) : Prop := (f < 65536)%N.

(** A character that [read_to_slash_or_space] takes into the token. *)
Definition token_char (c : CharT) : bool :=
  negb (isspace c) && negb (Ascii.eqb c "/").

(** An affix entry as [parse_affix] makes them: a flag that is not zero,
    strip and append strings that are not ["0"], a condition that is not
    empty, and continuation flags that satisfy the invariant of
    [Flag_Set]. *)
Definition Affix_ok (e : Affix) : Prop :=
  Affix_flag e <> 0%N
  /\ Affix_stripping e <> lit "0"
  /\ Affix_appending e <> lit "0"
  /\ Affix_condition e <> []
  /\ Flag_Set_ok (Affix_new_flags e).

(** What a line of an affix file can do to the state: nothing to the
    dictionary and to the locale; to the break patterns only with the mark
    that a [BREAK] line was read; and it keeps the affix entries and the
    flag aliases well formed. *)
Definition aff_step (a a' : Aff_Data) : Prop :=
  words a' = words a
  /\ locale_aff a' = locale_aff a
  /\ (break_exists a' = false ->
      break_exists a = false /\ break_patterns a' = break_patterns a)
  /\ (Forall Affix_ok (prefixes a) -> Forall Affix_ok (prefixes a'))
  /\ (Forall Affix_ok (suffixes a) -> Forall Affix_ok (suffixes a'))
  /\ (Forall Flag_Set_ok (flag_aliases a) ->
      Forall Flag_Set_ok (flag_aliases a')).

(** [l] is the list of the words of [b]: the maximal runs of characters
    that are not white space, from left to right. *)
Inductive words_of : StrT -> list StrT -> Prop :=
| words_of_nil (sp : StrT) :
    Forall (fun c => isspace c = true) sp -> words_of sp []
| words_of_cons (sp t rest : StrT) (l : list StrT) :
    Forall (fun c => isspace c = true) sp ->
    t <> [] ->
    Forall (fun c => isspace c = false) t ->
    match rest with [] => True | d :: _ => isspace d = true end ->
    words_of rest l ->
    words_of (sp ++ t ++ rest) (t :: l).

(** A slash of [line] at index [q] that no backslash precedes. *)
Definition unescaped_slash (line : StrT) (q : Z) : Prop :=
  at_ line q = "/"%char /\ (q = 0 \/ at_ line (q - 1) <> "\"%char).

(** A morphological field starts at index [b] of [line]: two lower-case
    letters and a colon. *)
Definition field_at (line : StrT) (b : Z) : Prop :=
  is_lower_letter (at_ line b) = true
  /\ is_lower_letter (at_ line (b + 1)) = true
  /\ at_ line (b + 2) = ":"%char.

(** A morphological field starts at index [b] of [line], inside the line
    and after a space. *)
Definition field_after_space (line : StrT) (b : Z) : Prop :=
  0 < b /\ b + 2 < size line /\ at_ line (b - 1) = " "%char
  /\ field_at line b.

(** What [parse_dic] leaves of a dictionary: every member but [words] as it
    was, every word still there, and every entry that does not carry the
    hidden-homonym flag as it was. *)
Definition dic_extends (a a' : Aff_Data) : Prop :=
  a' = set_words (words a') a
  /\ incl (map fst (words a)) (map fst (words a'))
  /\ forall e, In e (words a) -> is_hidden_homonym e = false ->
               In e (words a').

End Aff.

(** * Properties *)

(** ** Facts about the standard-library functions *)

Module Std_Facts.
Import Std.

Lemma char_compare_eq (a b : CharT) : char_compare a b = Eq <-> a = b.
Proof.
  unfold char_compare. rewrite N.compare_eq_iff. split.
  - intros H. rewrite <- (ascii_N_embedding a), <- (ascii_N_embedding b).
    now rewrite H.
  - now intros ->.
Qed.

Lemma compare_eq (a b : StrT) : compare a b = Eq <-> a = b.
Proof.
  revert b. induction a as [|x a IH]; intros [|y b]; simpl.
  - tauto.
  - split; discriminate.
  - split; discriminate.
  - destruct (char_compare x y) eqn:E.
    + apply char_compare_eq in E. subst y. rewrite IH.
      split; [now intros -> | now intros [= ->]].
    + split; [discriminate|]. intros [= Hxy _]. subst y.
      rewrite (proj2 (char_compare_eq x x) eq_refl) in E. discriminate.
    + split; [discriminate|]. intros [= Hxy _]. subst y.
      rewrite (proj2 (char_compare_eq x x) eq_refl) in E. discriminate.
Qed.

Lemma compare_antisym (a b : StrT) : compare b a = CompOpp (compare a b).
Proof.
  revert b. induction a as [|x a IH]; intros [|y b]; simpl; try reflexivity.
  unfold char_compare. rewrite (N.compare_antisym (N_of_ascii x)).
  destruct (N.compare (N_of_ascii x) (N_of_ascii y)); simpl; auto.
Qed.

Lemma eqb_eq (a b : StrT) : eqb a b = true <-> a = b.
Proof.
  unfold eqb. rewrite <- compare_eq. destruct (compare a b); intuition congruence.
Qed.

Lemma ltb_irrefl (a : StrT) : ltb a a = false.
Proof.
  unfold ltb. now rewrite (proj2 (compare_eq a a) eq_refl).
Qed.

Lemma ltb_nil_r (a : StrT) : ltb a [] = false.
Proof. destruct a; reflexivity. Qed.

(** The order is total: what is neither greater nor equal is smaller. *)
Lemma ltb_total (a b : StrT) : ltb b a = false -> a <> b -> ltb a b = true.
Proof.
  unfold ltb. rewrite (compare_antisym a b). intros H Hne.
  destruct (compare a b) eqn:E; simpl in *; try congruence.
  apply compare_eq in E. contradiction.
Qed.

Lemma ltb_asym (a b : StrT) : ltb a b = true -> ltb b a = false.
Proof.
  unfold ltb. rewrite (compare_antisym a b).
  destruct (compare a b); simpl; congruence.
Qed.

Lemma size_nonneg {A} (s : list A) : 0 <= size s.
Proof. unfold size. lia. Qed.

Lemma size_app {A} (a b : list A) : size (a ++ b) = size a + size b.
Proof. unfold size. rewrite length_app. lia. Qed.

Lemma starts_with_app (pat s : StrT) :
  starts_with pat s = true <-> exists r, s = pat ++ r.
Proof.
  revert s. induction pat as [|p pat IH]; intros s; simpl.
  - split; eauto.
  - destruct s as [|c s].
    + split; [discriminate|]. intros [r Hr]. discriminate.
    + rewrite andb_true_iff, IH. split.
      * intros [Hc [r ->]]. apply Ascii.eqb_eq in Hc. subst. eauto.
      * intros [r [= -> ->]]. split; [apply Ascii.eqb_refl | eauto].
Qed.

Lemma compare_lt_trans (a b c : StrT) :
  compare a b = Lt -> compare b c = Lt -> compare a c = Lt.
Proof.
  revert b c. induction a as [|x a IH]; intros [|y b] [|z c]; simpl;
    try discriminate; try reflexivity.
  unfold char_compare.
  destruct (N.compare_spec (N_of_ascii x) (N_of_ascii y)) as [Exy|Lxy|Gxy];
    destruct (N.compare_spec (N_of_ascii y) (N_of_ascii z)) as [Eyz|Lyz|Gyz];
    try discriminate; intros Hab Hbc.
  - rewrite Exy, Eyz, N.compare_refl. eauto.
  - rewrite (proj2 (N.compare_lt_iff _ _)) by lia. reflexivity.
  - rewrite (proj2 (N.compare_lt_iff _ _)) by lia. reflexivity.
  - rewrite (proj2 (N.compare_lt_iff _ _)) by lia. reflexivity.
Qed.

Lemma ltb_trans (a b c : StrT) :
  ltb a b = true -> ltb b c = true -> ltb a c = true.
Proof.
  unfold ltb. intros Hab Hbc.
  destruct (compare a b) eqn:Eab; try discriminate.
  destruct (compare b c) eqn:Ebc; try discriminate.
  now rewrite (compare_lt_trans _ _ _ Eab Ebc).
Qed.

(** "Not greater" is transitive. *)
Lemma not_ltb_trans (a b c : StrT) :
  ltb b a = false -> ltb c b = false -> ltb c a = false.
Proof.
  intros Hab Hbc. destruct (ltb c a) eqn:Hca; [|reflexivity].
  destruct (eqb a b) eqn:Eab.
  - apply eqb_eq in Eab. subst b. congruence.
  - assert (a <> b) by (intros ->; rewrite (proj2 (eqb_eq b b) eq_refl) in Eab;
                        discriminate).
    pose proof (ltb_total Hab H) as Hlt.
    pose proof (ltb_trans _ _ _ Hca Hlt). congruence.
Qed.

Section Insertion_Sort.
Context {A : Type} (comp : A -> A -> bool).
Hypothesis comp_asym : forall a b, comp a b = true -> comp b a = false.
Hypothesis not_comp_trans :
  forall a b c, comp b a = false -> comp c b = false -> comp c a = false.

Lemma insert_sorted_perm (x : A) (l : list A) :
  Permutation (x :: l) (insert_sorted comp x l).
Proof.
  induction l as [|y l IH]; simpl; [reflexivity|].
  destruct (comp y x); [|reflexivity].
  rewrite perm_swap. now apply perm_skip.
Qed.

Lemma insertion_sort_perm (l : list A) : Permutation l (insertion_sort comp l).
Proof.
  induction l as [|x l IH]; simpl; [constructor|].
  rewrite <- insert_sorted_perm. now apply perm_skip.
Qed.

Lemma insert_sorted_sorted (x : A) (l : list A) :
  StronglySorted (fun a b => comp b a = false) l ->
  StronglySorted (fun a b => comp b a = false) (insert_sorted comp x l).
Proof.
  induction l as [|y l IH]; simpl; intros Hs.
  - repeat constructor.
  - apply StronglySorted_inv in Hs. destruct Hs as [Hs Hy].
    destruct (comp y x) eqn:E.
    + constructor; [auto|].
      apply (Permutation_Forall (insert_sorted_perm x l)).
      constructor; auto.
    + constructor; [constructor; auto|].
      constructor; [exact E|].
      eapply Forall_impl; [|exact Hy]. intros z Hz. simpl in Hz. eauto.
Qed.

Lemma insertion_sort_ensures : sort_ensures comp (insertion_sort comp).
Proof.
  intros l. split; [apply insertion_sort_perm|].
  induction l as [|x l IH]; simpl; [constructor|].
  now apply insert_sorted_sorted.
Qed.

End Insertion_Sort.

(** *** [Libstdcxx.sort] on ranges of at most sixteen elements

    Such a range is left to [__insertion_sort], which puts each element
    behind the elements before it that are not greater: it keeps equivalent
    elements in input order. *)

Section Sort_Small.
Context {A : Type} (comp : A -> A -> bool).
Hypothesis comp_asym : forall a b, comp a b = true -> comp b a = false.
Hypothesis not_comp_trans :
  forall a b c, comp b a = false -> comp c b = false -> comp c a = false.

Local Abbreviation sorted := (StronglySorted (fun a b => comp b a = false)).

Lemma put_middle (d : A) (p r : list A) (x y : A) :
  Libstdcxx.put (p ++ x :: r) (length p) y = p ++ y :: r.
Proof.
  unfold Libstdcxx.put.
  rewrite firstn_app, firstn_all, Nat.sub_diag. cbn [firstn].
  rewrite app_nil_r.
  replace (S (length p)) with (length (p ++ [x]))%nat
    by (rewrite length_app; simpl; lia).
  replace (p ++ x :: r) with ((p ++ [x]) ++ r) by now rewrite <- app_assoc.
  rewrite skipn_app, skipn_all, Nat.sub_diag. reflexivity.
Qed.

Lemma unguarded_linear_insert_loop_spec (d : A) (val : A) (r : list A) :
  forall (hole : A) (rest : list A),
    Libstdcxx.unguarded_linear_insert_loop comp d (rev r ++ hole :: rest) val
      (length r)
    = rev (insert_back comp val r) ++ rest.
Proof.
  induction r as [|y r IH]; intros hole rest.
  - cbn. reflexivity.
  - cbn [length Libstdcxx.unguarded_linear_insert_loop insert_back rev].
    assert (Hy : nth (length r) ((rev r ++ [y]) ++ hole :: rest) d = y).
    { rewrite <- app_assoc. rewrite <- (length_rev r). apply nth_middle. }
    rewrite Hy.
    assert (Hput : forall z,
      Libstdcxx.put ((rev r ++ [y]) ++ hole :: rest) (S (length r)) z
      = (rev r ++ [y]) ++ z :: rest).
    { intros z.
      replace (S (length r)) with (length (rev r ++ [y]))%nat
        by (rewrite length_app, length_rev; simpl; lia).
      apply (put_middle d). }
    rewrite !Hput. destruct (comp val y).
    + rewrite <- app_assoc. cbn [app]. rewrite IH.
      cbn [rev]. now rewrite <- app_assoc.
    + cbn [rev]. now rewrite <- !app_assoc.
Qed.

Lemma insert_back_split (val : A) (r : list A) :
  exists r1 r2,
    r = r1 ++ r2 /\ insert_back comp val r = r1 ++ val :: r2
    /\ Forall (fun y => comp val y = true) r1
    /\ (match r2 with y :: _ => comp val y = false | [] => True end).
Proof.
  induction r as [|y r (r1 & r2 & E & Ei & H1 & H2)]; simpl.
  - exists [], []. repeat split; constructor.
  - destruct (comp val y) eqn:Ec.
    + exists (y :: r1), r2. subst r. rewrite Ei. repeat split; auto.
    + exists [], (y :: r). repeat split; auto.
Qed.

Lemma sorted_app (l1 l2 : list A) :
  sorted (l1 ++ l2) <->
  sorted l1 /\ sorted l2
  /\ Forall (fun a => Forall (fun b => comp b a = false) l2) l1.
Proof.
  induction l1 as [|a l1 IH]; simpl.
  - split; [intros H; repeat split; auto; constructor | tauto].
  - split.
    + intros H. apply StronglySorted_inv in H. destruct H as [Hs Ha].
      apply IH in Hs. destruct Hs as (H1 & H2 & H3).
      apply Forall_app in Ha. destruct Ha as [Ha1 Ha2].
      repeat split; auto; constructor; auto.
    + intros (H1 & H2 & H3).
      apply StronglySorted_inv in H1. destruct H1 as [H1 Ha].
      apply Forall_cons_iff in H3. destruct H3 as [H3 H4].
      constructor; [apply IH; auto|]. apply Forall_app. auto.
Qed.

(** A turn of [__insertion_sort] puts the element behind those not greater. *)
Lemma insertion_step_spec (d : A) (p : list A) (x : A) :
  sorted p -> inserted_behind comp x p (insertion_step comp d p x).
Proof.
  intros Hs. unfold insertion_step.
  destruct (comp x (hd d p)) eqn:Ec.
  - exists [], p. repeat split; [constructor|].
    destruct p as [|h p]; [constructor|]. simpl in Ec.
    apply StronglySorted_inv in Hs. destruct Hs as [_ Hh].
    constructor; [exact Ec|].
    eapply Forall_impl; [|exact Hh]. intros y Hy. simpl in Hy.
    destruct (comp x y) eqn:Exy; [reflexivity|].
    rewrite (not_comp_trans Hy Exy) in Ec. discriminate.
  - destruct (insert_back_split x (rev p)) as (r1 & r2 & E & Ei & H1 & H2).
    exists (rev r2), (rev r1).
    assert (Ep : p = rev r2 ++ rev r1).
    { rewrite <- rev_app_distr, <- E. now rewrite rev_involutive. }
    repeat split.
    + exact Ep.
    + rewrite Ei, rev_app_distr. cbn [rev]. now rewrite <- app_assoc.
    + destruct r2 as [|y r2]; [constructor|].
      rewrite Ep in Hs. apply sorted_app in Hs. destruct Hs as (Hs & _ & _).
      cbn [rev] in *. apply sorted_app in Hs. destruct Hs as (_ & _ & Hs).
      apply Forall_app. split.
      * eapply Forall_impl; [|exact Hs]. intros z Hz. simpl in Hz.
        apply Forall_inv in Hz. eauto.
      * repeat constructor. exact H2.
    + apply Forall_rev. exact H1.
Qed.

Lemma inserted_behind_perm (x : A) (p q : list A) :
  inserted_behind comp x p q -> Permutation (x :: p) q.
Proof.
  intros (p1 & p2 & -> & -> & _). apply Permutation_middle.
Qed.

Lemma inserted_behind_sorted (x : A) (p q : list A) :
  inserted_behind comp x p q -> sorted p -> sorted q.
Proof.
  intros (p1 & p2 & -> & -> & H1 & H2) Hs.
  apply sorted_app in Hs. destruct Hs as (Hs1 & Hs2 & H12).
  apply sorted_app. repeat split; auto.
  - constructor; [exact Hs2|].
    eapply Forall_impl; [|exact H2]. intros y Hy. simpl in Hy. auto.
  - rewrite Forall_forall in *. intros a Ha.
    constructor; [now apply H1 | now apply H12].
Qed.

Lemma insertion_step_length (d : A) (p : list A) (x : A) :
  length (insertion_step comp d p x) = S (length p).
Proof.
  unfold insertion_step. destruct (comp x (hd d p)); [reflexivity|].
  destruct (insert_back_split x (rev p)) as (r1 & r2 & E & Ei & _).
  rewrite length_rev, Ei, length_app. simpl.
  rewrite <- (length_rev p), E, length_app. lia.
Qed.

(** The loop of [__insertion_sort] from [first = 0], over the part [p]
    already passed and the part [r] still to come. *)
Lemma insertion_sort_fold (d : A) (r : list A) :
  forall p : list A,
    p <> [] ->
    fold_left
      (fun a i =>
         if comp (nth i a d) (nth O a d) then
           Libstdcxx.put (Libstdcxx.move_backward a O i (i + 1)) O (nth i a d)
         else Libstdcxx.unguarded_linear_insert comp d a i)
      (seq (length p) (length r)) (p ++ r)
    = fold_left (insertion_step comp d) r p.
Proof.
  induction r as [|x r IH]; intros p Hp.
  - cbn. now rewrite app_nil_r.
  - cbn [length seq fold_left].
    assert (Hx : nth (length p) (p ++ x :: r) d = x) by apply nth_middle.
    assert (H0 : nth O (p ++ x :: r) d = hd d p)
      by (destruct p; [congruence|reflexivity]).
    rewrite Hx, H0.
    assert (Hstep :
      (if comp x (hd d p) then
         Libstdcxx.put
           (Libstdcxx.move_backward (p ++ x :: r) O (length p) (length p + 1))
           O x
       else Libstdcxx.unguarded_linear_insert comp d (p ++ x :: r) (length p))
      = insertion_step comp d p x ++ r).
    { unfold insertion_step. destruct (comp x (hd d p)).
      - unfold Libstdcxx.move_backward, Libstdcxx.put.
        replace (length p + 1 - (length p - 0))%nat with 1%nat by lia.
        rewrite Nat.sub_0_r. cbn [skipn firstn app].
        destruct p as [|h p]; [congruence|].
        cbn [app firstn skipn]. f_equal.
        change (h :: p ++ x :: r) with ((h :: p) ++ x :: r).
        rewrite firstn_app, firstn_all, Nat.sub_diag. cbn [firstn].
        rewrite app_nil_r. f_equal.
        replace (length (h :: p) + 1)%nat with (length ((h :: p) ++ [x]))
          by (rewrite length_app; reflexivity).
        replace ((h :: p) ++ x :: r) with (((h :: p) ++ [x]) ++ r)
          by now rewrite <- app_assoc.
        now rewrite skipn_app, skipn_all, Nat.sub_diag.
      - unfold Libstdcxx.unguarded_linear_insert. rewrite Hx.
        pose proof (unguarded_linear_insert_loop_spec d x (rev p) x r) as H.
        rewrite rev_involutive, length_rev in H. exact H. }
    rewrite Hstep, <- (insertion_step_length d p x).
    apply IH. intros E. pose proof (insertion_step_length d p x) as Hl.
    rewrite E in Hl. discriminate.
Qed.

(** On at most sixteen elements [Libstdcxx.sort] is that loop. *)
Lemma sort_small (d : A) (l : list A) :
  (length (d :: l) <= 16)%nat ->
  Libstdcxx.sort comp (d :: l) = fold_left (insertion_step comp d) l [d].
Proof.
  intros Hlen. unfold Libstdcxx.sort.
  assert (Hth : (Libstdcxx._S_threshold <? length (d :: l) - 0)%nat = false).
  { apply Nat.ltb_ge. unfold Libstdcxx._S_threshold. lia. }
  assert (Hloop : forall depth_limit,
            Libstdcxx.introsort_loop comp d depth_limit (d :: l) 0
              (length (d :: l)) = d :: l).
  { intros [|depth_limit]; cbn [Libstdcxx.introsort_loop]; now rewrite Hth. }
  cbv zeta. rewrite Hloop. unfold Libstdcxx.final_insertion_sort.
  rewrite Hth. unfold Libstdcxx.insertion_sort.
  cbn [length Nat.eqb]. replace (S (length l) - (0 + 1))%nat with (length l) by lia.
  apply (@insertion_sort_fold d l [d]). discriminate.
Qed.

(** So it sorts, and leaves each element behind the earlier ones that are
    not greater. *)
Lemma sort_small_ensures (l : list A) :
  (length l <= 16)%nat ->
  Permutation l (Libstdcxx.sort comp l) /\ sorted (Libstdcxx.sort comp l).
Proof.
  destruct l as [|d l]; [intros _; split; constructor|].
  intros Hlen. rewrite (sort_small Hlen). clear Hlen.
  assert (H : forall r p, sorted p ->
            Permutation (p ++ r) (fold_left (insertion_step comp d) r p)
            /\ sorted (fold_left (insertion_step comp d) r p)).
  { induction r as [|x r IH]; intros p Hs; cbn [fold_left].
    - rewrite app_nil_r. split; [reflexivity|exact Hs].
    - pose proof (insertion_step_spec d x Hs) as Hi.
      destruct (IH _ (inserted_behind_sorted Hi Hs)) as [Hp Hs'].
      split; [|exact Hs'].
      rewrite <- Hp, <- (inserted_behind_perm Hi).
      now rewrite <- Permutation_middle. }
  apply (H l [d]). repeat constructor.
Qed.

End Sort_Small.

Lemma stable_partition_ensures {A} (pred : A -> bool) :
  partition_ensures pred (stable_partition pred).
Proof.
  intros l. unfold stable_partition. simpl. split; [|split].
  - induction l as [|x l IH]; simpl; [constructor|].
    destruct (pred x); simpl; [now apply perm_skip|].
    now apply Permutation_cons_app.
  - apply Forall_forall. intros x Hx. now apply filter_In in Hx.
  - apply Forall_forall. intros x Hx. apply filter_In in Hx.
    now apply negb_true_iff.
Qed.

End Std_Facts.

(** ** Prefix and suffix entries *)

Module Affix_Facts.
Import Std Std_Facts Structures.

Lemma size_sub_no_wrap (a b : Z) :
  0 <= b <= a -> a < 2 ^ SIZE_WIDTH -> size_sub a b = a - b.
Proof.
  intros H1 H2. unfold size_sub. apply Z.mod_small. lia.
Qed.

Lemma size_sub_wrap (a b : Z) :
  0 <= a < b -> b < 2 ^ SIZE_WIDTH -> size_sub a b = a - b + 2 ^ SIZE_WIDTH.
Proof.
  intros H1 H2. unfold size_sub.
  symmetry. apply Z.mod_unique with (q := -1); lia.
Qed.

Lemma replace_front (a r b : StrT) :
  replace (a ++ r) 0 (size a) b = Some (b ++ r).
Proof.
  unfold replace. pose proof (size_nonneg (a ++ r)).
  destruct (Z.ltb_spec (size (a ++ r)) 0); [lia|].
  rewrite size_app. pose proof (size_nonneg r).
  rewrite Z.min_l by lia. simpl.
  unfold size. rewrite Nat2Z.id, skipn_app, skipn_all, Nat.sub_diag.
  reflexivity.
Qed.

Lemma replace_back (r a b : StrT) :
  size r < 2 ^ SIZE_WIDTH ->
  replace (r ++ a) (size_sub (size (r ++ a)) (size a)) (size a) b
  = Some (r ++ b).
Proof.
  intros Hr. unfold replace, size_sub. rewrite size_app.
  replace (size r + size a - size a) with (size r) by lia.
  pose proof (size_nonneg r). pose proof (size_nonneg a).
  rewrite Z.mod_small by lia.
  destruct (Z.ltb_spec (size r + size a) (size r)); [lia|].
  rewrite Z.min_l by lia.
  replace (Z.to_nat (size r + size a)) with (length (r ++ a))
    by (rewrite length_app; unfold size; lia).
  unfold size. rewrite Nat2Z.id, skipn_all, firstn_app, firstn_all, Nat.sub_diag.
  simpl. now rewrite !app_nil_r.
Qed.

(** C9.  [to_derived(to_root(w)) == w] for every prefix entry and every word
    that starts with the entry's append string, and for every suffix entry
    and every word that ends with it; the root in between is the word with
    the append string replaced by the strip string.  The length of the word
    is a [size_t] value. *)
Theorem to_derived_to_root (e : Affix_Entry) (w r : StrT) :
  size w < 2 ^ SIZE_WIDTH ->
  (w = appending e ++ r ->
   Prefix_to_root e w = Some (stripping e ++ r)
   /\ Prefix_to_derived e (stripping e ++ r) = Some w)
  /\ (w = r ++ appending e ->
      Suffix_to_root e w = Some (r ++ stripping e)
      /\ Suffix_to_derived e (r ++ stripping e) = Some w).
Proof.
  intros Hw. split; intros ->.
  - unfold Prefix_to_root, Prefix_to_derived. now rewrite !replace_front.
  - rewrite size_app in Hw. pose proof (size_nonneg (appending e)).
    unfold Suffix_to_root, Suffix_to_derived.
    rewrite !replace_back by lia. auto.
Qed.

Lemma to_derived_to_root_witness :
  let e := Suffix_Entry 65%N true (lit "y") (lit "ies") (lit "[^aeiou]y") in
  Suffix_to_root e (lit "berries") = Some (lit "berry")
  /\ Suffix_to_derived e (lit "berry") = Some (lit "berries").
Proof.
  intros e.
  apply (proj2 (@to_derived_to_root e (lit "berries") (lit "berr")
                  ltac:(vm_compute; reflexivity))).
  reflexivity.
Defined.

(** C10.  [Suffix_Entry::to_root] and [to_derived] splice at
    [word.size() - appending.size()] (respectively [stripping.size()])
    without a bounds check: the call throws [std::out_of_range] exactly when
    the word is shorter than the text to remove, and otherwise returns the
    word with its last characters replaced.  All lengths are [size_t]
    values. *)
Theorem Suffix_splice_in_range (e : Affix_Entry) (w : StrT) :
  size w < 2 ^ SIZE_WIDTH ->
  size (appending e) < 2 ^ SIZE_WIDTH ->
  size (stripping e) < 2 ^ SIZE_WIDTH ->
  (Suffix_to_root e w = None <-> size w < size (appending e))
  /\ (size (appending e) <= size w ->
      Suffix_to_root e w
      = Some (firstn (length w - length (appending e)) w ++ stripping e))
  /\ (Suffix_to_derived e w = None <-> size w < size (stripping e))
  /\ (size (stripping e) <= size w ->
      Suffix_to_derived e w
      = Some (firstn (length w - length (stripping e)) w ++ appending e)).
Proof.
  assert (splice : forall (w a b : StrT),
    size w < 2 ^ SIZE_WIDTH -> size a < 2 ^ SIZE_WIDTH ->
    (replace w (size_sub (size w) (size a)) (size a) b = None
     <-> size w < size a)
    /\ (size a <= size w ->
        replace w (size_sub (size w) (size a)) (size a) b
        = Some (firstn (length w - length a) w ++ b))).
  { clear. intros w a b Hw Ha.
    pose proof (size_nonneg w). pose proof (size_nonneg a).
    destruct (Z_lt_le_dec (size w) (size a)) as [Hlt|Hle].
    - split; [|lia]. split; [auto|intros _].
      unfold replace. rewrite size_sub_wrap by lia.
      destruct (Z.ltb_spec (size w) (size w - size a + 2 ^ SIZE_WIDTH));
        [reflexivity|lia].
    - assert (Hsplit : exists r t, w = r ++ t /\ length t = length a).
      { exists (firstn (length w - length a) w),
               (skipn (length w - length a) w).
        split; [symmetry; apply firstn_skipn|].
        rewrite length_skipn. unfold size in Hle. lia. }
      destruct Hsplit as (r & t & -> & Ht).
      assert (Hr : size r < 2 ^ SIZE_WIDTH).
      { rewrite size_app in Hw. pose proof (size_nonneg t). lia. }
      replace (size a) with (size t) by (unfold size; lia).
      rewrite replace_back by exact Hr.
      split; [split; [discriminate|]|intros _].
      { rewrite size_app. pose proof (size_nonneg r). lia. }
      replace (length (r ++ t) - length a)%nat with (length r)
        by (rewrite length_app; lia).
      rewrite firstn_app, firstn_all, Nat.sub_diag. simpl.
      now rewrite app_nil_r. }
  intros Hw Ha Hs. unfold Suffix_to_root, Suffix_to_derived.
  destruct (splice w (appending e) (stripping e) Hw Ha) as [H1 H2].
  destruct (splice w (stripping e) (appending e) Hw Hs) as [H3 H4].
  auto.
Qed.

Lemma Suffix_splice_in_range_witness :
  let e := Suffix_Entry 65%N true (lit "y") (lit "ies") (lit "[^aeiou]y") in
  (Suffix_to_root e (lit "es") = None <-> size (lit "es") < size (lit "ies"))
  /\ Suffix_to_derived e (lit "berry") = Some (lit "berries").
Proof.
  intros e.
  pose proof (@Suffix_splice_in_range e (lit "es")
                ltac:(vm_compute; reflexivity) ltac:(vm_compute; reflexivity)
                ltac:(vm_compute; reflexivity)) as [H1 _].
  pose proof (@Suffix_splice_in_range e (lit "berry")
                ltac:(vm_compute; reflexivity) ltac:(vm_compute; reflexivity)
                ltac:(vm_compute; reflexivity)) as [_ [_ [_ H4]]].
  split; [exact H1|].
  apply H4. vm_compute. discriminate.
Defined.

End Affix_Facts.

(** ** Substr_Replacer *)

Module Substr_Replacer_Facts.
Import Std Std_Facts Structures.

Lemma key_less_asym (a b : StrT * StrT) :
  key_less a b = true -> key_less b a = false.
Proof. apply ltb_asym. Qed.

Lemma not_key_less_trans (a b c : StrT * StrT) :
  key_less b a = false -> key_less c b = false -> key_less c a = false.
Proof. apply not_ltb_trans. Qed.

Lemma key_equal_eq (a b : StrT * StrT) : key_equal a b = true <-> fst a = fst b.
Proof. apply eqb_eq. Qed.

Lemma unique_from_In {A} (pred : A -> A -> bool) (kept : A) (l : list A) p :
  In p (unique_from pred kept l) -> In p l.
Proof.
  revert kept. induction l as [|x l IH]; simpl; intros kept; [tauto|].
  destruct (pred kept x); simpl; intros H.
  - right. eauto.
  - destruct H; [now left | right; eauto].
Qed.

Lemma unique_In {A} (pred : A -> A -> bool) (l : list A) p :
  In p (unique pred l) -> In p l.
Proof.
  destruct l as [|x l]; simpl; [tauto|].
  intros [H|H]; [now left | right; eapply unique_from_In; eauto].
Qed.

(** On a sorted range [unique] leaves the patterns strictly increasing. *)
Lemma unique_from_strictly_sorted (kept : StrT * StrT) (l : Table_Pairs) :
  StronglySorted (fun a b => key_less b a = false) (kept :: l) ->
  strictly_sorted (kept :: unique_from key_equal kept l).
Proof.
  revert kept. induction l as [|x l IH]; intros kept Hs; simpl.
  - repeat constructor.
  - apply StronglySorted_inv in Hs. destruct Hs as [Hs Hk].
    pose proof (StronglySorted_inv Hs) as [Hs' Hx].
    apply Forall_cons_iff in Hk. destruct Hk as [Hkx Hk].
    destruct (key_equal kept x) eqn:E.
    + apply IH. constructor; assumption.
    + assert (Hlt : key_less kept x = true).
      { apply ltb_total; [exact Hkx|]. intros Heq.
        apply key_equal_eq in Heq. congruence. }
      specialize (IH x Hs). apply StronglySorted_inv in IH.
      destruct IH as [IH1 IH2].
      constructor; [constructor; assumption|].
      constructor; [exact Hlt|].
      eapply Forall_impl; [|exact IH2]. intros z Hz. simpl in Hz.
      unfold key_less in *. eapply ltb_trans; eauto.
Qed.

Lemma unique_strictly_sorted (l : Table_Pairs) :
  StronglySorted (fun a b => key_less b a = false) l ->
  strictly_sorted (unique key_equal l).
Proof.
  destruct l as [|x l]; simpl; [constructor|].
  apply unique_from_strictly_sorted.
Qed.

(** [unique] keeps a pair for every pattern of the range. *)
Lemma unique_from_keeps_keys (kept : StrT * StrT) (l : Table_Pairs) p :
  In p l ->
  In (fst p) (map fst (kept :: unique_from key_equal kept l)).
Proof.
  revert kept. induction l as [|x l IH]; intros kept; simpl; [tauto|].
  intros [->|Hin].
  - destruct (key_equal kept p) eqn:E.
    + left. now apply key_equal_eq.
    + right. now left.
  - destruct (key_equal kept x) eqn:E.
    + apply (IH kept Hin).
    + right. apply (IH x Hin).
Qed.

Lemma unique_keeps_keys (l : Table_Pairs) p :
  In p l -> In (fst p) (map fst (unique key_equal l)).
Proof.
  destruct l as [|x l]; simpl; [tauto|].
  intros [->|Hin]; [now left|].
  apply (unique_from_keeps_keys x l p Hin).
Qed.

Lemma strictly_sorted_NoDup (t : Table_Pairs) :
  strictly_sorted t -> NoDup (map fst t).
Proof.
  induction 1 as [|a t Hs IH Ha]; simpl; constructor; [|assumption].
  intros Hin. apply in_map_iff in Hin. destruct Hin as (b & Hb & Hin).
  rewrite Forall_forall in Ha. specialize (Ha b Hin).
  unfold key_less in Ha. rewrite Hb, ltb_irrefl in Ha. discriminate.
Qed.

Lemma strictly_sorted_tail_nonempty (a : StrT * StrT) (t : Table_Pairs) :
  strictly_sorted (a :: t) -> ~ In [] (map fst t).
Proof.
  intros Hs Hin. apply StronglySorted_inv in Hs. destruct Hs as [_ Ha].
  apply in_map_iff in Hin. destruct Hin as (b & Hb & Hin).
  rewrite Forall_forall in Ha. specialize (Ha b Hin).
  unfold key_less in Ha. rewrite Hb, ltb_nil_r in Ha. discriminate.
Qed.

(** An order-preserving sort and [unique] leave the first pair with a given
    pattern in front of the others with that pattern. *)
Lemma first_with_key_insert (k : StrT) (x : StrT * StrT) (l : Table_Pairs) :
  first_with_key k (insert_sorted key_less x l)
  = if eqb (fst x) k then Some x else first_with_key k l.
Proof.
  induction l as [|y l IH]; simpl; [reflexivity|].
  destruct (key_less y x) eqn:E; simpl; [|reflexivity].
  rewrite IH. destruct (eqb (fst y) k) eqn:Ey; [|reflexivity].
  destruct (eqb (fst x) k) eqn:Ex; [|reflexivity].
  apply eqb_eq in Ey, Ex. unfold key_less in E.
  rewrite Ey, Ex, ltb_irrefl in E. discriminate.
Qed.

Lemma first_with_key_insertion_sort (k : StrT) (l : Table_Pairs) :
  first_with_key k (insertion_sort key_less l) = first_with_key k l.
Proof.
  induction l as [|x l IH]; simpl; [reflexivity|].
  rewrite first_with_key_insert, IH. reflexivity.
Qed.

Lemma first_with_key_unique_from (k : StrT) (kept : StrT * StrT)
  (l : Table_Pairs) :
  eqb (fst kept) k = false ->
  first_with_key k (unique_from key_equal kept l) = first_with_key k l.
Proof.
  revert kept. induction l as [|x l IH]; intros kept Hk; simpl; [reflexivity|].
  destruct (key_equal kept x) eqn:E.
  - apply key_equal_eq in E. rewrite <- E, Hk. now apply IH.
  - simpl. destruct (eqb (fst x) k) eqn:Ex; [reflexivity|]. now apply IH.
Qed.

Lemma first_with_key_unique (k : StrT) (l : Table_Pairs) :
  first_with_key k (unique key_equal l) = first_with_key k l.
Proof.
  destruct l as [|x l]; simpl; [reflexivity|].
  destruct (eqb (fst x) k) eqn:Ex; [reflexivity|].
  now apply first_with_key_unique_from.
Qed.

(** [Libstdcxx.sort] leaves the first pair with a given pattern in front of
    the others with that pattern when the table has at most sixteen pairs. *)
Lemma first_with_key_app (k : StrT) (l1 l2 : Table_Pairs) :
  first_with_key k (l1 ++ l2)
  = match first_with_key k l1 with
    | Some p => Some p
    | None => first_with_key k l2
    end.
Proof.
  unfold first_with_key. induction l1 as [|x l1 IH]; simpl; [reflexivity|].
  destruct (eqb (fst x) k); [reflexivity|exact IH].
Qed.

Lemma first_with_key_inserted_behind (k : StrT) (x : StrT * StrT)
  (p q : Table_Pairs) :
  inserted_behind key_less x p q ->
  first_with_key k q = first_with_key k (p ++ [x]).
Proof.
  intros (p1 & p2 & -> & -> & _ & H2).
  rewrite <- app_assoc, !first_with_key_app.
  destruct (first_with_key k p1); [reflexivity|].
  change (first_with_key k (x :: p2))
    with (if eqb (fst x) k then Some x else first_with_key k p2).
  change (first_with_key k [x])
    with (if eqb (fst x) k then Some x else None).
  destruct (eqb (fst x) k) eqn:Ex; [|now destruct (first_with_key k p2)].
  apply eqb_eq in Ex.
  assert (Hnone : first_with_key k p2 = None).
  { unfold first_with_key. induction H2 as [|y p2 Hy _ IH]; [reflexivity|].
    simpl. destruct (eqb (fst y) k) eqn:Ey; [|exact IH].
    apply eqb_eq in Ey. unfold key_less in Hy.
    rewrite Ex, Ey, ltb_irrefl in Hy. discriminate. }
  now rewrite Hnone.
Qed.

Lemma first_with_key_sort_small (k : StrT) (v : Table_Pairs) :
  (length v <= 16)%nat ->
  first_with_key k (Libstdcxx.sort key_less v) = first_with_key k v.
Proof.
  destruct v as [|d v]; [reflexivity|]. intros Hlen.
  rewrite (sort_small key_less Hlen). clear Hlen.
  change (d :: v) with ([d] ++ v).
  assert (Hs : StronglySorted (fun a b => key_less b a = false) [d])
    by repeat constructor.
  revert Hs. generalize [d] as p.
  induction v as [|x v IH]; intros p Hs; cbn [fold_left].
  - now rewrite app_nil_r.
  - pose proof (insertion_step_spec key_less not_key_less_trans d x Hs)
      as Hi.
    rewrite IH by exact (inserted_behind_sorted key_less_asym Hi Hs).
    rewrite !first_with_key_app, (first_with_key_inserted_behind k Hi).
    rewrite first_with_key_app. cbn [app].
    change (first_with_key k (x :: v))
      with (if eqb (fst x) k then Some x else first_with_key k v).
    change (first_with_key k [x])
      with (if eqb (fst x) k then Some x else None).
    destruct (first_with_key k p); [reflexivity|].
    now destruct (eqb (fst x) k).
Qed.

(** What [sort_uniq] makes of a sorted rearrangement of the input. *)
Lemma sort_uniq_of_sorted
  (sort : (StrT * StrT -> StrT * StrT -> bool) -> Table_Pairs -> Table_Pairs)
  (v : Table_Pairs) :
  Permutation v (sort key_less v) ->
  StronglySorted (fun a b => key_less b a = false) (sort key_less v) ->
  strictly_sorted (Substr_Replacer_sort_uniq sort v)
  /\ ~ In [] (map fst (Substr_Replacer_sort_uniq sort v))
  /\ NoDup (map fst (Substr_Replacer_sort_uniq sort v))
  /\ (forall p, In p (Substr_Replacer_sort_uniq sort v) -> In p v)
  /\ (forall p, In p v -> fst p <> [] ->
                In (fst p) (map fst (Substr_Replacer_sort_uniq sort v))).
Proof.
  intros Hperm Hsorted.
  pose proof (unique_strictly_sorted Hsorted) as Hu.
  assert (Hsub : forall p, In p (unique key_equal (sort key_less v)) ->
                           In p v).
  { intros p Hp. apply unique_In in Hp.
    eapply Permutation_in; [symmetry; exact Hperm|exact Hp]. }
  assert (Hkeys : forall p, In p v ->
            In (fst p) (map fst (unique key_equal (sort key_less v)))).
  { intros p Hp. apply unique_keeps_keys.
    eapply Permutation_in; [exact Hperm|exact Hp]. }
  unfold Substr_Replacer_sort_uniq.
  destruct (unique key_equal (sort key_less v)) as [|front rest] eqn:Eu.
  + repeat split; auto; try constructor.
  + pose proof (strictly_sorted_tail_nonempty Hu) as Hrest.
    destruct (empty (fst front)) eqn:Ef.
    * pose proof (StronglySorted_inv Hu) as [Hr _].
      repeat split; auto.
      -- now apply strictly_sorted_NoDup.
      -- intros p Hp. apply Hsub. now right.
      -- intros p Hp Hne. destruct (Hkeys p Hp) as [Hf|Hin]; [|exact Hin].
         destruct (fst front); [congruence|discriminate].
    * repeat split; auto.
      -- simpl. intros [Hf|Hin]; [|contradiction].
         rewrite Hf in Ef. discriminate.
      -- now apply strictly_sorted_NoDup.
Qed.

(** C6, as amended.  After construction from any sequence of pairs, under any
    [std::sort], the table is strictly sorted by pattern, has no empty pattern
    and no duplicate pattern, holds only pairs of the input and holds a pair
    for every non-empty pattern of the input.  The pair kept for a pattern
    is the first one with that pattern after the sort; when [std::sort]
    keeps pairs with equal patterns in input order, that is the first one of
    the input.  Under the [std::sort] of libstdc++ all of this holds, and the
    pair kept is the first one of the input, for every input of at most
    sixteen pairs. *)
Theorem sort_uniq_invariant
  (sort : (StrT * StrT -> StrT * StrT -> bool) -> Table_Pairs -> Table_Pairs)
  (v : Table_Pairs) :
  sort_ensures key_less (sort key_less) ->
  (strictly_sorted (Substr_Replacer_sort_uniq sort v)
   /\ ~ In [] (map fst (Substr_Replacer_sort_uniq sort v))
   /\ NoDup (map fst (Substr_Replacer_sort_uniq sort v))
   /\ (forall p, In p (Substr_Replacer_sort_uniq sort v) -> In p v)
   /\ (forall p, In p v -> fst p <> [] ->
                 In (fst p) (map fst (Substr_Replacer_sort_uniq sort v))))
  /\ (forall k, k <> [] ->
        first_with_key k (Substr_Replacer_sort_uniq sort v)
        = first_with_key k (sort key_less v))
  /\ (forall k, k <> [] ->
        first_with_key k (Substr_Replacer_sort_uniq (@insertion_sort _) v)
        = first_with_key k v)
  /\ ((length v <= 16)%nat ->
      (strictly_sorted (Substr_Replacer_sort_uniq (@Libstdcxx.sort _) v)
       /\ ~ In [] (map fst (Substr_Replacer_sort_uniq (@Libstdcxx.sort _) v))
       /\ NoDup (map fst (Substr_Replacer_sort_uniq (@Libstdcxx.sort _) v))
       /\ (forall p, In p (Substr_Replacer_sort_uniq (@Libstdcxx.sort _) v) ->
                     In p v)
       /\ (forall p, In p v -> fst p <> [] ->
             In (fst p)
                (map fst (Substr_Replacer_sort_uniq (@Libstdcxx.sort _) v))))
      /\ (forall k, k <> [] ->
            first_with_key k (Substr_Replacer_sort_uniq (@Libstdcxx.sort _) v)
            = first_with_key k v)).
Proof.
  assert (Hfirst : forall sort' k, k <> [] ->
            first_with_key k (Substr_Replacer_sort_uniq sort' v)
            = first_with_key k (sort' key_less v)).
  { intros sort' k Hk. unfold Substr_Replacer_sort_uniq.
    rewrite <- (first_with_key_unique k (sort' key_less v)).
    destruct (unique key_equal (sort' key_less v)) as [|front rest];
      [reflexivity|].
    destruct (empty (fst front)) eqn:Ef; [|reflexivity].
    simpl. destruct (eqb (fst front) k) eqn:E; [|reflexivity].
    apply eqb_eq in E. destruct (fst front); [congruence|discriminate]. }
  intros Hsort. split; [|split; [now apply Hfirst|split]].
  - destruct (Hsort v) as [Hperm Hsorted]. now apply sort_uniq_of_sorted.
  - intros k Hk. rewrite Hfirst by exact Hk.
    apply first_with_key_insertion_sort.
  - intros Hlen. split.
    + destruct (sort_small_ensures key_less key_less_asym not_key_less_trans
                  v Hlen)
        as [Hperm Hsorted].
      now apply sort_uniq_of_sorted.
    + intros k Hk. rewrite Hfirst by exact Hk.
      now apply first_with_key_sort_small.
Qed.

Lemma sort_uniq_invariant_witness :
  let v := [(lit "b", lit "1"); (lit "", lit "2"); (lit "a", lit "3");
            (lit "b", lit "4")] in
  strictly_sorted (Substr_Replacer_sort_uniq (@insertion_sort _) v)
  /\ first_with_key (lit "b") (Substr_Replacer_sort_uniq (@insertion_sort _) v)
     = Some (lit "b", lit "1")
  /\ strictly_sorted (Substr_Replacer_sort_uniq (@Libstdcxx.sort _) v)
  /\ first_with_key (lit "b") (Substr_Replacer_sort_uniq (@Libstdcxx.sort _) v)
     = Some (lit "b", lit "1").
Proof.
  intros v.
  destruct (@sort_uniq_invariant (@insertion_sort _) v
              (insertion_sort_ensures key_less key_less_asym not_key_less_trans))
    as [[Hs _] [_ [Hfirst Hsmall]]].
  destruct Hsmall as [[Hs' _] Hfirst']; [simpl; lia|].
  split; [exact Hs|]. split; [|split; [exact Hs'|]].
  - rewrite Hfirst; [reflexivity|discriminate].
  - rewrite Hfirst'; [reflexivity|discriminate].
Defined.

(** C6 as stated fails for tables of more than sixteen pairs.  On the
    seventeen pairs below, whose first two share the pattern ["a"],
    [__introsort_loop] takes one turn: the median of the patterns at positions
    1, 8 and 16 is ["h"], which is swapped with position 0 and so puts
    [("a", "1")] at position 8; the partition then swaps nothing, and the
    insertion sort that finishes moves [("a", "2")] from position 1 to the
    front and [("a", "1")] down to right behind it.  [std::unique] keeps
    [("a", "2")], the pair listed second. *)
Lemma sort_uniq_first_pair_not_kept :
  let v := [(lit "a", lit "1"); (lit "a", lit "2"); (lit "b", lit "3");
            (lit "c", lit "4"); (lit "d", lit "5"); (lit "e", lit "6");
            (lit "f", lit "7"); (lit "g", lit "8"); (lit "h", lit "9");
            (lit "i", lit "10"); (lit "j", lit "11"); (lit "k", lit "12");
            (lit "l", lit "13"); (lit "m", lit "14"); (lit "n", lit "15");
            (lit "o", lit "16"); (lit "p", lit "17")] in
  first_with_key (lit "a") v = Some (lit "a", lit "1")
  /\ Libstdcxx.sort key_less v
     = [(lit "a", lit "2"); (lit "a", lit "1"); (lit "b", lit "3");
        (lit "c", lit "4"); (lit "d", lit "5"); (lit "e", lit "6");
        (lit "f", lit "7"); (lit "g", lit "8"); (lit "h", lit "9");
        (lit "i", lit "10"); (lit "j", lit "11"); (lit "k", lit "12");
        (lit "l", lit "13"); (lit "m", lit "14"); (lit "n", lit "15");
        (lit "o", lit "16"); (lit "p", lit "17")]
  /\ Substr_Replacer_sort_uniq (@Libstdcxx.sort _) v
     = [(lit "a", lit "2"); (lit "b", lit "3"); (lit "c", lit "4");
        (lit "d", lit "5"); (lit "e", lit "6"); (lit "f", lit "7");
        (lit "g", lit "8"); (lit "h", lit "9"); (lit "i", lit "10");
        (lit "j", lit "11"); (lit "k", lit "12"); (lit "l", lit "13");
        (lit "m", lit "14"); (lit "n", lit "15"); (lit "o", lit "16");
        (lit "p", lit "17")]
  /\ first_with_key (lit "a") (Substr_Replacer_sort_uniq (@Libstdcxx.sort _) v)
     = Some (lit "a", lit "2").
Proof.
  repeat split; vm_compute; reflexivity.
Qed.

(** [find_match] returns an entry of the table. *)
Lemma find_match_loop_In (rounds : nat) (t : Table_Pairs) (s : StrT)
  (it : nat) (last_match e : option (StrT * StrT)) :
  find_match_loop rounds t s it last_match = e ->
  e = last_match \/ exists m, e = Some m /\ In m t.
Proof.
  revert it last_match.
  induction rounds as [|rounds IH]; simpl; intros it last_match; [auto|].
  destruct (Nat.eqb _ it); [auto|].
  destruct (nth_error t _) as [m|] eqn:En; [|auto].
  destruct (csr_eq m s); [|auto].
  intros H. apply IH in H. destruct H as [->|H]; [|auto].
  right. exists m. split; [reflexivity|]. eapply nth_error_In; eauto.
Qed.

Lemma find_match_In (t : Table_Pairs) (s : StrT) (m : StrT * StrT) :
  find_match t s = Some m -> In m t.
Proof.
  intros H. apply find_match_loop_In in H.
  destruct H as [H|(m' & [= ->] & H)]; [discriminate|exact H].
Qed.

(** *** find_match and replace *)

(** On a table as [sort_uniq] leaves it, the range given to
    [std::upper_bound] is partitioned with respect to the comparison with the
    text, so the result of the call is the one point the standard
    describes: no entry before it is above the text, every entry from it on
    is. *)
Lemma compare_firstn_gt (k x : StrT) :
  compare k (firstn (length k) x) = Gt <-> compare k x = Gt.
Proof.
  revert x. induction k as [|c k IH]; intros [|d x]; simpl; try tauto.
  - split; discriminate.
  - destruct (char_compare c d); [apply IH|tauto|tauto].
Qed.

Lemma c_str_length (p : StrT) : (length (c_str p) <= length p)%nat.
Proof.
  induction p as [|c p IH]; simpl; [lia|].
  destruct (Ascii.eqb c zero); simpl; lia.
Qed.

Lemma csr_less_iff (s : StrT) (e : StrT * StrT) :
  size (fst e) <= npos ->
  csr_less s e = true <-> compare (fst e) (c_str s) = Gt.
Proof.
  intros He. unfold csr_less, cmp_prefix_of, compare_at2.
  pose proof (size_nonneg (fst e)). pose proof (size_nonneg (c_str s)).
  destruct (Z.ltb_spec (size (fst e)) 0); [lia|].
  destruct (Z.ltb_spec (size (c_str s)) 0); [lia|]. cbn [orb].
  assert (Hk : sub (fst e) 0 npos = fst e).
  { unfold sub. rewrite skipn_O. apply firstn_all2. unfold size in *. lia. }
  assert (Hx : sub (c_str s) 0 (Z.min (size (fst e)) (size s))
               = firstn (length (fst e)) (c_str s)).
  { unfold sub. rewrite skipn_O. pose proof (c_str_length s).
    destruct (Nat.le_gt_cases (length (fst e)) (length (c_str s))).
    - f_equal. unfold size in *. lia.
    - rewrite !firstn_all2; [reflexivity|lia|unfold size in *; lia]. }
  rewrite Hk, Hx, <- compare_firstn_gt.
  destruct (compare _ _); split; congruence.
Qed.

Lemma compare_gt_trans (a b c : StrT) :
  compare a b = Gt -> compare b c = Gt -> compare a c = Gt.
Proof.
  intros Hab Hbc. rewrite (compare_antisym b a) in Hab.
  rewrite (compare_antisym c b) in Hbc. rewrite (compare_antisym c a).
  destruct (compare b a) eqn:E1; try discriminate.
  destruct (compare c b) eqn:E2; try discriminate.
  now rewrite (compare_lt_trans _ _ _ E2 E1).
Qed.

Lemma sorted_table_partitioned (t : Table_Pairs) (s : StrT) :
  (forall e, In e t -> size (fst e) <= npos) ->
  strictly_sorted t ->
  StronglySorted (fun a b => csr_less s a = true -> csr_less s b = true) t.
Proof.
  intros Ht Hs. induction Hs as [|a t Hs IH Ha]; constructor.
  - apply IH. intros e He. apply Ht. now right.
  - rewrite Forall_forall in *. intros b Hb Hl.
    apply csr_less_iff in Hl; [|apply Ht; now left].
    apply csr_less_iff; [apply Ht; now right|].
    specialize (Ha b Hb). unfold key_less, ltb in Ha.
    destruct (compare (fst a) (fst b)) eqn:E; try discriminate.
    assert (Hba : compare (fst b) (fst a) = Gt)
      by (rewrite (compare_antisym (fst a) (fst b)), E; reflexivity).
    eapply compare_gt_trans; eauto.
Qed.

Lemma upper_bound_partition_point {A} (f : A -> bool) (l : list A) :
  StronglySorted (fun a b => f a = true -> f b = true) l ->
  Forall (fun e => f e = false) (firstn (upper_bound f l) l)
  /\ Forall (fun e => f e = true) (skipn (upper_bound f l) l).
Proof.
  induction 1 as [|a l Hs IH Ha]; simpl; [split; constructor|].
  destruct (f a) eqn:E; simpl.
  - split; [constructor|]. constructor; [exact E|].
    eapply Forall_impl; [|exact Ha]. auto.
  - destruct IH as [IH1 IH2]. split; [constructor|]; assumption.
Qed.

Lemma c_str_prefix (p : StrT) : exists r, p = c_str p ++ r.
Proof.
  induction p as [|c p [r IH]]; simpl; [now exists []|].
  destruct (Ascii.eqb c zero); [now exists (c :: p)|].
  exists r. simpl. congruence.
Qed.

Lemma csr_eq_prefix (e : StrT * StrT) (s : StrT) :
  size (fst e) <= npos ->
  csr_eq e s = true -> starts_with (fst e) s = true.
Proof.
  intros He. unfold csr_eq, cmp_prefix_of, compare_at2.
  destruct (_ || _); [discriminate|].
  destruct (compare _ _) eqn:E; try discriminate. intros _.
  apply compare_eq in E. apply starts_with_app.
  destruct (c_str_prefix s) as [r Hr].
  assert (Hk : sub (fst e) 0 npos = fst e).
  { unfold sub. rewrite skipn_O. apply firstn_all2.
    unfold size in *. lia. }
  rewrite Hk in E. rewrite E. unfold sub. rewrite skipn_O.
  set (n := Z.to_nat _).
  exists (skipn n (c_str s) ++ r).
  now rewrite app_assoc, firstn_skipn.
Qed.

(** What [find_match] returns is an entry whose pattern the text starts
    with (the lengths of the patterns being [size_t] values). *)
Lemma find_match_loop_prefix (rounds : nat) (t : Table_Pairs) (s : StrT)
  (it : nat) (last_match : option (StrT * StrT)) (m : StrT * StrT) :
  (forall e, In e t -> size (fst e) <= npos) ->
  (forall m', last_match = Some m' -> starts_with (fst m') s = true) ->
  find_match_loop rounds t s it last_match = Some m ->
  starts_with (fst m) s = true.
Proof.
  intros Ht. revert it last_match.
  induction rounds as [|rounds IH]; simpl; intros it last_match Hl; [auto|].
  destruct (Nat.eqb _ it); [auto|].
  destruct (nth_error t _) as [e|] eqn:En; [|auto].
  destruct (csr_eq e s) eqn:Ee; [|auto].
  apply IH. intros m' [= <-].
  apply csr_eq_prefix; [|exact Ee]. apply Ht. eapply nth_error_In; eauto.
Qed.

Lemma find_match_prefix (t : Table_Pairs) (s : StrT) (m : StrT * StrT) :
  (forall e, In e t -> size (fst e) <= npos) ->
  find_match t s = Some m -> starts_with (fst m) s = true.
Proof. intros Ht. apply find_match_loop_prefix; [exact Ht|discriminate]. Qed.

(** The rounds granted by [find_match] are enough: more rounds give the same
    entry. *)
Lemma find_match_loop_rounds (n m : nat) (t : Table_Pairs) (s : StrT)
  (it : nat) (last_match : option (StrT * StrT)) :
  (length t - it < n)%nat -> (length t - it < m)%nat ->
  find_match_loop n t s it last_match = find_match_loop m t s it last_match.
Proof.
  revert m it last_match.
  induction n as [|n IH]; intros [|m] it last_match Hn Hm; try lia. simpl.
  destruct (Nat.eqb_spec (it + upper_bound (csr_less s) (skipn it t)) it)
    as [|Hne]; [reflexivity|].
  destruct (nth_error t _) as [e|] eqn:En; [|reflexivity].
  destruct (csr_eq e s); [|reflexivity].
  assert (pred (it + upper_bound (csr_less s) (skipn it t)) < length t)%nat
    by (apply nth_error_Some; congruence).
  apply IH; lia.
Qed.

(** The loop of [replace] ends: on a table without the empty pattern every
    round shortens what is left to scan, so the rounds granted by
    [Substr_Replacer_replace] are enough. *)
Lemma replace_loop_returns (table : Table_Pairs) :
  ~ In [] (map fst table) ->
  forall (rounds : nat) (s : StrT) (i : Z),
    0 <= i -> 0 < Z.of_nat rounds -> size s - i < Z.of_nat rounds ->
    replace_loop rounds table s i <> None.
Proof.
  intros Hne. induction rounds as [|rounds IH]; intros s i Hi H0 Hr; [lia|].
  simpl. destruct (Z.ltb_spec i (size s)) as [Hlt|Hge]; [|discriminate].
  destruct (find_match table (skipn (Z.to_nat i) s)) as [[k r]|] eqn:Ef.
  - apply find_match_In in Ef. simpl.
    assert (Hk : 0 < size k).
    { destruct k; [|unfold size; simpl; lia].
      exfalso. apply Hne. apply in_map_iff. now exists ([], r). }
    unfold replace. destruct (Z.ltb_spec (size s) i); [lia|].
    pose proof (size_nonneg r).
    apply IH; [lia|lia|].
    rewrite !size_app. unfold size at 1 3.
    rewrite length_firstn, length_skipn. unfold size in *. lia.
  - apply IH; lia.
Qed.

Lemma Substr_Replacer_replace_returns (table : Table_Pairs) (s : StrT) :
  ~ In [] (map fst table) -> Substr_Replacer_replace table s <> None.
Proof.
  intros Hne. unfold Substr_Replacer_replace.
  destruct (empty table); [discriminate|].
  apply replace_loop_returns; [exact Hne|lia|lia|unfold size; lia].
Qed.

(** The longest-match scenario of the specification. *)
Example replace_longest_match_scenario :
  Substr_Replacer_replace
    (Substr_Replacer_sort_uniq (@insertion_sort _)
       [(lit "a", lit "X"); (lit "ab", lit "YY"); (lit "abc", lit "Z")])
    (lit "abcab")
  = Some (lit "ZYY").
Proof. reflexivity. Qed.

(** C7.  [find_match] looks at one entry in its first round, the one just
    before the upper bound: when the text does not start with the pattern of
    that entry, no match is reported, whatever patterns stand before it.
    With the table [("a","X"), ("aa","Y")] and the text ["ab"] that entry is
    ["aa"]; the shorter pattern ["a"], which the text starts with, is never
    looked at, and [replace] returns the string unchanged instead of
    ["Xb"]. *)
Theorem replace_misses_shorter_key :
  (forall (t : Table_Pairs) (s : StrT) (e : StrT * StrT),
     nth_error t (pred (upper_bound (csr_less s) t)) = Some e ->
     csr_eq e s = false ->
     find_match t s = None)
  /\ Substr_Replacer_sort_uniq (@insertion_sort _)
       [(lit "a", lit "X"); (lit "aa", lit "Y")]
     = [(lit "a", lit "X"); (lit "aa", lit "Y")]
  /\ In (lit "a", lit "X") [(lit "a", lit "X"); (lit "aa", lit "Y")]
  /\ starts_with (lit "a") (lit "ab") = true
  /\ find_match [(lit "a", lit "X"); (lit "aa", lit "Y")] (lit "ab") = None
  /\ Substr_Replacer_replace [(lit "a", lit "X"); (lit "aa", lit "Y")]
       (lit "ab")
     = Some (lit "ab").
Proof.
  split.
  - intros t s e Hn He. unfold find_match. cbn [find_match_loop].
    rewrite skipn_O. cbn [Nat.add]. rewrite Hn, He.
    now destruct (Nat.eqb _ _).
  - repeat split; try reflexivity. now left.
Qed.

Lemma replace_misses_shorter_key_witness :
  find_match [(lit "a", lit "X"); (lit "aa", lit "Y")] (lit "ab") = None.
Proof.
  apply (proj1 replace_misses_shorter_key
           [(lit "a", lit "X"); (lit "aa", lit "Y")] (lit "ab")
           (lit "aa", lit "Y")); reflexivity.
Defined.

End Substr_Replacer_Facts.

(** ** Break_Table *)

Module Break_Table_Facts.
Import Std Std_Facts Structures.

(** *** Construction *)

Lemma partition_fst_In {A} (pred : A -> bool) partition (l : list A) x :
  partition_ensures pred partition ->
  In x (fst (partition l)) <-> In x l /\ pred x = true.
Proof.
  intros Hp. destruct (Hp l) as (Hperm & Hf & Hs).
  rewrite Forall_forall in Hf, Hs. split.
  - intros Hin. split; [|auto].
    eapply Permutation_in; [symmetry; exact Hperm|].
    apply in_or_app. now left.
  - intros [Hin Hx]. apply (Permutation_in _ Hperm) in Hin.
    apply in_app_or in Hin. destruct Hin as [Hin|Hin]; [exact Hin|].
    specialize (Hs x Hin). congruence.
Qed.

Lemma partition_snd_In {A} (pred : A -> bool) partition (l : list A) x :
  partition_ensures pred partition ->
  In x (snd (partition l)) <-> In x l /\ pred x = false.
Proof.
  intros Hp. destruct (Hp l) as (Hperm & Hf & Hs).
  rewrite Forall_forall in Hf, Hs. split.
  - intros Hin. split; [|auto].
    eapply Permutation_in; [symmetry; exact Hperm|].
    apply in_or_app. now right.
  - intros [Hin Hx]. apply (Permutation_in _ Hperm) in Hin.
    apply in_app_or in Hin. destruct Hin as [Hin|Hin]; [|exact Hin].
    specialize (Hf x Hin). congruence.
Qed.

Lemma erase_front_cons (c : CharT) (e : StrT) : erase_front (c :: e) = e.
Proof.
  unfold erase_front, erase, replace.
  pose proof (size_nonneg e).
  assert (Hs : size (c :: e) = 1 + size e)
    by (unfold size; cbn [length]; lia).
  rewrite Hs. destruct (Z.ltb_spec (1 + size e) 0); [lia|].
  rewrite Z.min_l by lia. reflexivity.
Qed.

Lemma is_start_word_break_iff (x : StrT) :
  is_start_word_break x = true <-> exists e, x = caret :: e.
Proof.
  unfold is_start_word_break. destruct x as [|c x]; cbn [empty negb andb].
  - split; [discriminate|]. intros [e He]. discriminate.
  - split.
    + intros H. apply Ascii.eqb_eq in H. subst c. eauto.
    + intros [e [= -> _]]. apply Ascii.eqb_refl.
Qed.

Lemma back_last (e : StrT) (c : CharT) : back (e ++ [c]) = Some c.
Proof. unfold back. rewrite map_app. cbn [map]. apply last_last. Qed.

Lemma is_end_word_break_iff (x : StrT) :
  is_end_word_break x = true <-> exists e, x = e ++ [dolar].
Proof.
  split.
  - intros H. destruct x as [|c x]; [discriminate|].
    destruct (exists_last (l := c :: x)) as (e & d & Hx); [discriminate|].
    rewrite Hx in *. unfold is_end_word_break in H. rewrite back_last in H.
    apply andb_true_iff in H. destruct H as [_ H].
    apply Ascii.eqb_eq in H. subst d. eauto.
  - intros [e ->]. unfold is_end_word_break. rewrite back_last.
    rewrite Ascii.eqb_refl. now destruct e.
Qed.

Lemma pop_back_last (e : StrT) (c : CharT) : pop_back (e ++ [c]) = e.
Proof. apply removelast_last. Qed.

Section Order_Entries.
Variable partition : (StrT -> bool) -> list StrT -> list StrT * list StrT.
Variable v : list StrT.

Let starts := fst (partition is_start_word_break v).
Let rest := snd (partition is_start_word_break v).
Let ends := fst (partition is_end_word_break rest).
Let middle := snd (partition is_end_word_break rest).

Lemma start_word_breaks_order_entries :
  start_word_breaks (order_entries partition v) = map erase_front starts.
Proof.
  unfold order_entries, start_word_breaks, starts.
  destruct (partition is_start_word_break v) as [st rs]. simpl.
  destruct (partition is_end_word_break rs) as [en mi]. simpl.
  now rewrite firstn_app, firstn_all, Nat.sub_diag, app_nil_r.
Qed.

Lemma end_word_breaks_order_entries :
  end_word_breaks (order_entries partition v) = map pop_back ends.
Proof.
  unfold order_entries, end_word_breaks, ends, rest.
  destruct (partition is_start_word_break v) as [st rs]. simpl.
  destruct (partition is_end_word_break rs) as [en mi]. simpl.
  rewrite skipn_app, skipn_all, Nat.sub_diag. simpl.
  replace (length (map erase_front st) + length (map pop_back en)
           - length (map erase_front st))%nat
    with (length (map pop_back en)) by lia.
  now rewrite firstn_app, firstn_all, Nat.sub_diag, app_nil_r.
Qed.

Lemma middle_word_breaks_order_entries :
  middle_word_breaks (order_entries partition v)
  = remove_if (fun s => empty s) middle.
Proof.
  unfold order_entries, middle_word_breaks, middle, rest.
  destruct (partition is_start_word_break v) as [st rs]. simpl.
  destruct (partition is_end_word_break rs) as [en mi]. simpl.
  rewrite app_assoc, skipn_app, <- length_app, skipn_all, Nat.sub_diag.
  reflexivity.
Qed.

End Order_Entries.

Lemma Permutation_filter {A} (p : A -> bool) (l l' : list A) :
  Permutation l l' -> Permutation (filter p l) (filter p l').
Proof.
  induction 1 as [|x l l' H IH|x y l|l l' l'' H1 IH1 H2 IH2]; simpl.
  - constructor.
  - destruct (p x); [now apply perm_skip|exact IH].
  - destruct (p x), (p y); try reflexivity. apply perm_swap.
  - now rewrite IH1.
Qed.

Lemma filter_all {A} (p : A -> bool) (l : list A) :
  Forall (fun x => p x = true) l -> filter p l = l.
Proof.
  induction 1 as [|x l Hx H IH]; simpl; [reflexivity|]. now rewrite Hx, IH.
Qed.

Lemma filter_none {A} (p : A -> bool) (l : list A) :
  Forall (fun x => p x = false) l -> filter p l = [].
Proof.
  induction 1 as [|x l Hx H IH]; simpl; [reflexivity|]. now rewrite Hx.
Qed.

(** The two parts [std::partition] leaves are, up to order, what a filter
    gives. *)
Lemma partition_parts {A} (pred : A -> bool) partition (l : list A) :
  partition_ensures pred partition ->
  Permutation (filter pred l) (fst (partition l))
  /\ Permutation (filter (fun x => negb (pred x)) l) (snd (partition l)).
Proof.
  intros Hp. destruct (Hp l) as (Hperm & Hf & Hs). split.
  - rewrite (Permutation_filter pred Hperm), filter_app.
    rewrite (filter_all _ Hf), (filter_none _ Hs). now rewrite app_nil_r.
  - rewrite (Permutation_filter (fun x => negb (pred x)) Hperm), filter_app.
    rewrite (filter_none (fun x => negb (pred x)) (l := fst (partition l))),
      (filter_all (fun x => negb (pred x)) (l := snd (partition l))).
    + reflexivity.
    + eapply Forall_impl; [|exact Hs]. intros x Hx. simpl in Hx.
      now rewrite Hx.
    + eapply Forall_impl; [|exact Hf]. intros x Hx. simpl in Hx.
      now rewrite Hx.
Qed.

(** The break table of the patterns ["^-"], ["-$"], ["-"] is the same under
    every [std::partition]. *)
Lemma order_entries_default
  (partition : (StrT -> bool) -> list StrT -> list StrT * list StrT) :
  partition_ensures is_start_word_break (partition is_start_word_break) ->
  partition_ensures is_end_word_break (partition is_end_word_break) ->
  order_entries partition [lit "^-"; lit "-$"; lit "-"]
  = order_entries (@stable_partition _) [lit "^-"; lit "-$"; lit "-"].
Proof.
  intros Hps Hpe. unfold order_entries.
  destruct (partition_parts [lit "^-"; lit "-$"; lit "-"] Hps) as [H1 H2].
  destruct (partition is_start_word_break _) as [starts rest].
  cbn [fst snd] in H1, H2.
  change (filter is_start_word_break _) with [lit "^-"] in H1.
  change (filter _ _) with [lit "-$"; lit "-"] in H2.
  apply Permutation_length_1_inv in H1. subst starts.
  destruct (partition_parts rest Hpe) as [H3 H4].
  destruct (partition is_end_word_break rest) as [ends middle].
  cbn [fst snd] in H3, H4.
  rewrite <- (Permutation_filter is_end_word_break H2) in H3.
  rewrite <- (Permutation_filter (fun x => negb (is_end_word_break x)) H2)
    in H4.
  change (filter is_end_word_break _) with [lit "-$"] in H3.
  change (filter _ _) with [lit "-"] in H4.
  apply Permutation_length_1_inv in H3, H4. subst ends middle.
  reflexivity.
Qed.

(** C5, as amended.  After construction from any list of patterns, under any
    [std::partition]: every start-word break is a pattern that began with
    ['^'], stored without that one character, and so begins with ['^'] only
    when its pattern began with ["^^"]; every end-word break is a pattern
    that did not begin with ['^'] and ended with ['$'], stored without that
    one character, and so ends with ['$'] only when its pattern ended with
    ["$$"]; every pattern with more than its anchor is found in its
    partition; and the middle breaks are the patterns with neither anchor,
    the empty pattern removed. *)
Theorem order_entries_partitions
  (partition : (StrT -> bool) -> list StrT -> list StrT * list StrT)
  (v : list StrT) :
  partition_ensures is_start_word_break (partition is_start_word_break) ->
  partition_ensures is_end_word_break (partition is_end_word_break) ->
  (forall e, In e (start_word_breaks (order_entries partition v)) ->
             In (caret :: e) v)
  /\ (forall e, e <> [] -> In (caret :: e) v ->
                In e (start_word_breaks (order_entries partition v)))
  /\ (forall e, In e (end_word_breaks (order_entries partition v)) ->
                In (e ++ [dolar]) v
                /\ is_start_word_break (e ++ [dolar]) = false)
  /\ (forall e, e <> [] -> In (e ++ [dolar]) v ->
                is_start_word_break (e ++ [dolar]) = false ->
                In e (end_word_breaks (order_entries partition v)))
  /\ (forall e, In e (middle_word_breaks (order_entries partition v))
                <-> In e v /\ e <> [] /\ is_start_word_break e = false
                    /\ is_end_word_break e = false).
Proof.
  intros Hps Hpe.
  assert (Hstart : forall e,
            In e (start_word_breaks (order_entries partition v))
            <-> In (caret :: e) v).
  { intros e. rewrite start_word_breaks_order_entries, in_map_iff. split.
    - intros (x & Hx & Hin). apply (partition_fst_In _ _ Hps) in Hin.
      destruct Hin as [Hin Hs]. apply is_start_word_break_iff in Hs.
      destruct Hs as [e' ->]. rewrite erase_front_cons in Hx. now subst.
    - intros Hin. exists (caret :: e). split; [apply erase_front_cons|].
      apply (partition_fst_In _ _ Hps). split; [exact Hin|].
      apply is_start_word_break_iff. eauto. }
  assert (Hend : forall e,
            In e (end_word_breaks (order_entries partition v))
            <-> In (e ++ [dolar]) v
                /\ is_start_word_break (e ++ [dolar]) = false).
  { intros e. rewrite end_word_breaks_order_entries, in_map_iff. split.
    - intros (x & Hx & Hin). apply (partition_fst_In _ _ Hpe) in Hin.
      destruct Hin as [Hin He]. apply (partition_snd_In _ _ Hps) in Hin.
      apply is_end_word_break_iff in He. destruct He as [e' ->].
      rewrite pop_back_last in Hx. now subst.
    - intros [Hin Hs]. exists (e ++ [dolar]).
      split; [apply pop_back_last|].
      apply (partition_fst_In _ _ Hpe). split.
      + now apply (partition_snd_In _ _ Hps).
      + apply is_end_word_break_iff. eauto. }
  split; [|split; [|split; [|split]]].
  - intros e. apply Hstart.
  - intros e _. apply Hstart.
  - intros e. apply Hend.
  - intros e _ H1 H2. apply Hend. auto.
  - intros e. rewrite middle_word_breaks_order_entries. unfold remove_if.
    rewrite filter_In, (partition_snd_In _ _ Hpe), (partition_snd_In _ _ Hps).
    destruct e; simpl; intuition congruence.
Qed.

Lemma order_entries_partitions_witness :
  In (lit "-") (start_word_breaks
                  (order_entries (@stable_partition _)
                     [lit "-"; lit "^-"; lit "-$"]))
  /\ In (lit "-") (end_word_breaks
                     (order_entries (@stable_partition _)
                        [lit "-"; lit "^-"; lit "-$"]))
  /\ In (lit "-") (middle_word_breaks
                     (order_entries (@stable_partition _)
                        [lit "-"; lit "^-"; lit "-$"])).
Proof.
  destruct (@order_entries_partitions (@stable_partition _)
              [lit "-"; lit "^-"; lit "-$"]
              (stable_partition_ensures _) (stable_partition_ensures _))
    as (_ & Hs & _ & He & Hm).
  split; [|split].
  - apply Hs; [discriminate|]. simpl. auto.
  - apply He; [discriminate| |reflexivity]. simpl. auto.
  - apply Hm. simpl. repeat split; auto; discriminate.
Defined.

(** C5 as stated fails: the pattern ["^^a"] is a start-word break and loses
    one ['^'] only, so the first partition holds ["^a"]; and the patterns
    ["^"] and ["$"], emptied by the stripping, stay in the first and in the
    second partition. *)
Lemma order_entries_keeps_second_caret :
  partition_ensures is_start_word_break (stable_partition is_start_word_break)
  /\ partition_ensures is_end_word_break (stable_partition is_end_word_break)
  /\ In (lit "^a")
       (start_word_breaks
          (order_entries (@stable_partition _) [lit "^^a"; lit "^"; lit "$"]))
  /\ is_start_word_break (lit "^a") = true
  /\ In []
       (start_word_breaks
          (order_entries (@stable_partition _) [lit "^^a"; lit "^"; lit "$"]))
  /\ In []
       (end_word_breaks
          (order_entries (@stable_partition _) [lit "^^a"; lit "^"; lit "$"])).
Proof.
  repeat split; try apply stable_partition_ensures; simpl; auto.
Qed.

(** The empty entries that [remove_if] takes out are those of the last range
    only: a pattern made of one anchor stays, emptied, in its partition. *)
Example order_entries_lone_anchors :
  order_entries (@stable_partition _) [lit "^"; lit "$"; lit ""]
  = {| table := [[]; []];
       start_word_breaks_last_it := 1;
       end_word_breaks_last_it := 2 |}.
Proof. reflexivity. Qed.

(** *** break_and_spell *)

Lemma starts_with_length (pat s : StrT) :
  starts_with pat s = true -> (length pat <= length s)%nat.
Proof.
  intros H. apply starts_with_app in H. destruct H as [r ->].
  rewrite length_app. lia.
Qed.

Lemma find_from_spec (s pat : StrT) (k : Z) :
  (find_from s pat k = npos
   /\ forall j, (j <= length s)%nat -> starts_with pat (skipn j s) = false)
  \/ exists i, find_from s pat k = k + Z.of_nat i /\ first_occurrence pat s i.
Proof.
  revert k. induction s as [|c s IH]; intros k; simpl.
  - destruct (starts_with pat []) eqn:E.
    + right. exists O. split; [lia|]. repeat split; auto. intros j Hj. lia.
    + left. split; [reflexivity|]. intros j Hj. now rewrite skipn_nil.
  - destruct (starts_with pat (c :: s)) eqn:E.
    + right. exists O. split; [lia|].
      repeat split; simpl; auto; try lia.
    + destruct (IH (k + 1)) as [[Hn Hno]|(i & Hi & [Ho Hf1] & Hf2)].
      * left. split; [exact Hn|]. intros [|j] Hj; [exact E|].
        simpl. apply Hno. simpl in Hj. lia.
      * right. exists (S i). split; [lia|]. repeat split; simpl.
        -- lia.
        -- exact Hf1.
        -- intros [|j] Hj; [exact E|]. simpl. apply Hf2. lia.
Qed.

Lemma first_occurrence_unique (pat s : StrT) (i j : nat) :
  first_occurrence pat s i -> first_occurrence pat s j -> i = j.
Proof.
  intros [[_ Hi] Hi'] [[_ Hj] Hj'].
  destruct (Nat.lt_trichotomy i j) as [H|[H|H]]; [|exact H|].
  - specialize (Hj' i H). congruence.
  - specialize (Hi' j H). congruence.
Qed.

(** The test [i > 0 && i < s.size() - pat.size()] on [i = s.find(pat)] holds
    exactly when the first occurrence of [pat] lies strictly inside [s]. *)
Lemma middle_test_iff (s pat : StrT) :
  size s < npos ->
  (0 <? find s pat) && (find s pat <? size_sub (size s) (size pat)) = true
  <-> exists i, first_occurrence pat s i
                /\ (0 < i)%nat /\ (i + length pat < length s)%nat.
Proof.
  intros Hs. pose proof (size_nonneg s). pose proof (size_nonneg pat).
  assert (Hmod : 0 <= size_sub (size s) (size pat) < 2 ^ SIZE_WIDTH)
    by (apply Z.mod_pos_bound; reflexivity).
  unfold npos in *.
  rewrite andb_true_iff, Z.ltb_lt, Z.ltb_lt. unfold find.
  destruct (find_from_spec s pat 0) as [[Hn Hno]|(i & Hi & Hfirst)].
  - rewrite Hn. unfold npos. split; [lia|].
    intros (i & [[Hle Ho] _] & _). rewrite (Hno i Hle) in Ho. discriminate.
  - rewrite Hi. pose proof Hfirst as [[Hle Ho] _].
    apply starts_with_length in Ho. rewrite length_skipn in Ho.
    assert (Hsub : size_sub (size s) (size pat) = size s - size pat)
      by (apply Affix_Facts.size_sub_no_wrap; unfold size in *; lia).
    rewrite Hsub. unfold size. split.
    + intros [H1 H2]. exists i. split; [exact Hfirst|]. lia.
    + intros (j & Hj & H1 & H2).
      rewrite (first_occurrence_unique Hfirst Hj). lia.
Qed.

Lemma find_first_occurrence (s pat : StrT) (i : nat) :
  first_occurrence pat s i -> find s pat = Z.of_nat i.
Proof.
  intros Hi. unfold find.
  destruct (find_from_spec s pat 0) as [[_ Hno]|(j & Hj & Hfirst)].
  - destruct Hi as [[Hle Ho] _]. rewrite (Hno i Hle) in Ho. discriminate.
  - rewrite Hj, (first_occurrence_unique Hfirst Hi). lia.
Qed.

Lemma substr_front (s : StrT) (i : nat) :
  (i <= length s)%nat -> substr s 0 (Z.of_nat i) = Some (firstn i s).
Proof.
  intros Hi. unfold substr, sub. pose proof (size_nonneg s).
  destruct (Z.ltb_spec (size s) 0); [lia|].
  rewrite Z.min_l by (unfold size; lia). now rewrite Nat2Z.id.
Qed.

Lemma substr_tail (s : StrT) (p : nat) :
  size s < npos -> (p <= length s)%nat ->
  substr s (Z.of_nat p) npos = Some (skipn p s).
Proof.
  intros Hs Hp. unfold substr, sub.
  destruct (Z.ltb_spec (size s) (Z.of_nat p)); [unfold size in *; lia|].
  rewrite Z.min_r by (unfold size in *; lia).
  rewrite Nat2Z.id, firstn_all2; [reflexivity|].
  rewrite length_skipn. unfold size. lia.
Qed.

Lemma probed_after_with (c : StrT) (calls : list StrT) (r : option Probed) :
  probed_after c (probed_with calls r) = probed_with (c :: calls) r.
Proof. now destruct r as [[? ?]|]. Qed.

(** When the first two loops give no positive answer, they only put their
    calls in front of what the next loop does. *)
Lemma start_loop_negative f s pats next calls :
  start_loop f s pats next = Some (false, calls) ->
  exists calls1 calls2,
    next = Some (false, calls2) /\ calls = calls1 ++ calls2
    /\ forall next', start_loop f s pats next' = probed_with calls1 next'.
Proof.
  revert calls. induction pats as [|pat pats IH]; simpl; intros calls H.
  - exists [], calls. repeat split; auto. intros [[? ?]|]; reflexivity.
  - destruct (compare_at s 0 (size pat) pat) as [[| |]|]; try discriminate;
      try (now apply IH).
    destruct (substr s (size pat) npos) as [arg|]; [|discriminate].
    destruct (f arg); [discriminate|].
    destruct (start_loop f s pats next) as [[res calls']|] eqn:E;
      [|discriminate].
    simpl in H. injection H as -> <-.
    destruct (IH _ eq_refl) as (c1 & c2 & Hn & Hc & Hall).
    exists (arg :: c1), c2. repeat split; auto.
    + simpl. congruence.
    + intros next'. rewrite Hall. apply probed_after_with.
Qed.

Lemma end_loop_negative f s pats next calls :
  end_loop f s pats next = Some (false, calls) ->
  exists calls1 calls2,
    next = Some (false, calls2) /\ calls = calls1 ++ calls2
    /\ forall next', end_loop f s pats next' = probed_with calls1 next'.
Proof.
  revert calls. induction pats as [|pat pats IH]; simpl; intros calls H.
  - exists [], calls. repeat split; auto. intros [[? ?]|]; reflexivity.
  - destruct (size s <? size pat); [now apply IH|].
    destruct (compare_at s _ (size pat) pat) as [[| |]|]; try discriminate;
      try (now apply IH).
    destruct (substr s (size pat) npos) as [arg|]; [|discriminate].
    destruct (f arg); [discriminate|].
    destruct (end_loop f s pats next) as [[res calls']|] eqn:E;
      [|discriminate].
    simpl in H. injection H as -> <-.
    destruct (IH _ eq_refl) as (c1 & c2 & Hn & Hc & Hall).
    exists (arg :: c1), c2. repeat split; auto.
    + simpl. congruence.
    + intros next'. rewrite Hall. apply probed_after_with.
Qed.

Lemma middle_loop_spec (f : StrT -> bool) (s : StrT) (pats : list StrT) :
  size s < npos ->
  exists res calls,
    middle_loop f s pats = Some (res, calls)
    /\ (res = true <->
        exists part1 part2, middle_split pats s part1 part2
                            /\ f part1 = true /\ f part2 = true)
    /\ Forall (fun c => exists part1 part2,
                  middle_split pats s part1 part2
                  /\ (c = part1 \/ c = part2)) calls.
Proof.
  intros Hs. induction pats as [|pat pats IH]; simpl.
  - exists false, []. repeat split; auto; try discriminate.
    intros (p1 & p2 & (pat & i & [] & _) & _).
  - destruct IH as (res & calls & Hm & Hres & Hcalls).
    assert (Hweak : forall p1 p2, middle_split pats s p1 p2 ->
                                  middle_split (pat :: pats) s p1 p2).
    { intros p1 p2 (q & i & Hq & H). exists q, i. split; [now right|exact H]. }
    assert (Hcalls' : Forall (fun c => exists part1 part2,
                       middle_split (pat :: pats) s part1 part2
                       /\ (c = part1 \/ c = part2)) calls).
    { eapply Forall_impl; [|exact Hcalls].
      intros c (p1 & p2 & Hp & Hc). exists p1, p2. auto. }
    destruct ((0 <? find s pat)
              && (find s pat <? size_sub (size s) (size pat))) eqn:Et.
    + apply middle_test_iff in Et; [|exact Hs].
      destruct Et as (i & Hfirst & Hi0 & Hi1).
      rewrite (find_first_occurrence Hfirst).
      rewrite substr_front by lia.
      replace (Z.of_nat i + size pat) with (Z.of_nat (i + length pat))
        by (unfold size; lia).
      rewrite substr_tail by (auto; lia).
      assert (Hsplit : middle_split (pat :: pats) s (firstn i s)
                         (skipn (i + length pat) s)).
      { exists pat, i. repeat split; auto; try apply Hfirst. now left. }
      assert (Hthis : forall p1 p2, middle_split (pat :: pats) s p1 p2 ->
                p1 = firstn i s /\ p2 = skipn (i + length pat) s
                \/ middle_split pats s p1 p2).
      { intros p1 p2 (q & j & [<-|Hq] & Hj & H0 & H1 & -> & ->).
        - left. now rewrite (first_occurrence_unique Hj Hfirst).
        - right. exists q, j. repeat split; auto; apply Hj. }
      destruct (f (firstn i s)) eqn:E1; [destruct (f (skipn _ s)) eqn:E2|].
      * exists true, [firstn i s; skipn (i + length pat) s].
        repeat split; auto.
        -- intros _. eauto.
        -- repeat constructor; eauto 6.
      * rewrite Hm. simpl. exists res, (firstn i s :: skipn (i + length pat) s
                                          :: calls).
        repeat split; auto.
        -- intros H. apply Hres in H. destruct H as (p1 & p2 & Hp & H).
           eauto.
        -- intros (p1 & p2 & Hp & H1 & H2). apply Hres.
           destruct (Hthis _ _ Hp) as [[-> ->]|Hp']; [congruence|eauto].
        -- repeat constructor; eauto 6.
      * rewrite Hm. simpl. exists res, (firstn i s :: calls).
        repeat split; auto.
        -- intros H. apply Hres in H. destruct H as (p1 & p2 & Hp & H).
           eauto.
        -- intros (p1 & p2 & Hp & H1 & H2). apply Hres.
           destruct (Hthis _ _ Hp) as [[-> ->]|Hp']; [congruence|eauto].
        -- repeat constructor; eauto 6.
    + rewrite Hm. exists res, calls. repeat split; auto.
      * intros H. apply Hres in H. destruct H as (p1 & p2 & Hp & H). eauto.
      * intros (p1 & p2 & (q & j & [->|Hq] & Hj & H0 & H1 & -> & ->) & Hf).
        -- assert ((0 <? find s q)
                   && (find s q <? size_sub (size s) (size q)) = true)
             by (apply middle_test_iff; eauto).
           congruence.
        -- apply Hres. exists (firstn j s), (skipn (j + length q) s).
           split; [|exact Hf]. exists q, j. repeat split; auto; apply Hj.
Qed.

Lemma compare_at_front_eq (s pat : StrT) :
  compare_at s 0 (size pat) pat = Some Eq ->
  exists arg, substr s (size pat) npos = Some arg.
Proof.
  unfold compare_at, substr. pose proof (size_nonneg s).
  destruct (Z.ltb_spec (size s) 0); [lia|]. intros [= Hc].
  apply compare_eq in Hc. unfold sub in Hc.
  assert (Hl : (length pat <= length s)%nat).
  { rewrite <- Hc at 1. rewrite length_firstn. simpl. lia. }
  destruct (Z.ltb_spec (size s) (size pat)); [unfold size in *; lia|eauto].
Qed.

Lemma probed_after_returns (c : StrT) (r : option Probed) :
  r <> None -> probed_after c r <> None.
Proof. destruct r as [[? ?]|]; [discriminate|congruence]. Qed.

Lemma start_loop_returns f s pats next :
  next <> None -> start_loop f s pats next <> None.
Proof.
  intros Hn. induction pats as [|pat pats IH]; simpl; [exact Hn|].
  destruct (compare_at s 0 (size pat) pat) as [[| |]|] eqn:E; auto.
  - destruct (compare_at_front_eq _ _ E) as [arg ->].
    destruct (f arg); [discriminate|]. now apply probed_after_returns.
  - unfold compare_at in E. pose proof (size_nonneg s).
    destruct (Z.ltb_spec (size s) 0); [lia|discriminate].
Qed.

Lemma end_loop_returns f s pats next :
  size s < npos -> next <> None -> end_loop f s pats next <> None.
Proof.
  intros Hs Hn. induction pats as [|pat pats IH]; simpl; [exact Hn|].
  destruct (Z.ltb_spec (size s) (size pat)) as [|Hle]; [exact IH|].
  pose proof (size_nonneg s). pose proof (size_nonneg pat).
  unfold npos in Hs.
  rewrite Affix_Facts.size_sub_no_wrap by lia.
  unfold compare_at, substr.
  destruct (Z.ltb_spec (size s) (size s - size pat)); [lia|].
  destruct (Z.ltb_spec (size s) (size pat)); [lia|].
  destruct (compare _ pat); auto.
  destruct (f _); [discriminate|]. now apply probed_after_returns.
Qed.

(** [break_and_spell] never leaves through an exception: each [substr] and
    [compare] is called within the string. *)
Lemma break_and_spell_returns (bt : Break_Table) (s : StrT)
  (spell_func : StrT -> bool) :
  size s < npos -> break_and_spell bt s spell_func <> None.
Proof.
  intros Hs. unfold break_and_spell.
  apply start_loop_returns, end_loop_returns; [exact Hs|].
  destruct (@middle_loop_spec spell_func s (middle_word_breaks bt) Hs)
    as (res & calls & -> & _). discriminate.
Qed.

(** C3, as amended.  For every break table and every string [s] (its length
    a [size_t] value below [npos]) on which no start-word or end-word break
    gives a positive answer: [break_and_spell] tries a middle break only at
    its first occurrence in [s], and only when that occurrence is strictly
    inside [s]; it returns true exactly when for one of these splits both
    parts probe successfully, and every call of the probe it adds is made on
    a part of such a split. *)
Theorem break_and_spell_middle_breaks (bt : Break_Table) (s : StrT)
  (spell_func : StrT -> bool) (calls0 : list StrT) :
  size s < npos ->
  start_loop spell_func s (start_word_breaks bt)
    (end_loop spell_func s (end_word_breaks bt) (Some (false, [])))
  = Some (false, calls0) ->
  exists res calls,
    break_and_spell bt s spell_func = Some (res, calls0 ++ calls)
    /\ (res = true <->
        exists part1 part2,
          middle_split (middle_word_breaks bt) s part1 part2
          /\ spell_func part1 = true /\ spell_func part2 = true)
    /\ Forall (fun c => exists part1 part2,
                  middle_split (middle_word_breaks bt) s part1 part2
                  /\ (c = part1 \/ c = part2)) calls.
Proof.
  intros Hs H0.
  destruct (start_loop_negative _ _ _ _ H0) as (c1 & c2 & Hn & Hc & Hstart).
  destruct (end_loop_negative _ _ _ _ Hn) as (c3 & c4 & Hn' & Hc' & Hend).
  injection Hn' as <-. rewrite app_nil_r in Hc'. subst c2 calls0.
  destruct (@middle_loop_spec spell_func s (middle_word_breaks bt) Hs)
    as (res & calls & Hm & Hres & Hcalls).
  exists res, calls. split; [|split; assumption].
  unfold break_and_spell. rewrite Hstart, Hend, Hm. simpl.
  now rewrite <- !app_assoc.
Qed.

Lemma break_and_spell_middle_breaks_witness :
  exists res calls,
    break_and_spell
      (order_entries (@stable_partition _) [lit "^-"; lit "-$"; lit "-"])
      (lit "a-b") (fun _ => true)
    = Some (res, [] ++ calls)
    /\ (res = true <->
        exists part1 part2,
          middle_split [lit "-"] (lit "a-b") part1 part2
          /\ true = true /\ true = true)
    /\ Forall (fun c => exists part1 part2,
                  middle_split [lit "-"] (lit "a-b") part1 part2
                  /\ (c = part1 \/ c = part2)) calls.
Proof.
  apply (@break_and_spell_middle_breaks
           (order_entries (@stable_partition _)
              [lit "^-"; lit "-$"; lit "-"])
           (lit "a-b") (fun _ => true) []).
  - reflexivity.
  - reflexivity.
Defined.

(** C3 as stated fails: in ["a-b-c"] the break ["-"] occurs strictly inside at
    index 3, and both parts of that split, ["a-b"] and ["c"], probe
    successfully; [break_and_spell] tries the occurrence at index 1 only and
    returns false. *)
Lemma break_and_spell_skips_later_occurrence :
  In (lit "-")
    (middle_word_breaks
       (order_entries (@stable_partition _) [lit "^-"; lit "-$"; lit "-"]))
  /\ occurs_at (lit "-") (lit "a-b-c") 3
  /\ (0 < 3 /\ 3 + length (lit "-") < length (lit "a-b-c"))%nat
  /\ (fun w => eqb w (lit "a-b") || eqb w (lit "c"))
       (firstn 3 (lit "a-b-c")) = true
  /\ (fun w => eqb w (lit "a-b") || eqb w (lit "c"))
       (skipn (3 + length (lit "-")) (lit "a-b-c")) = true
  /\ break_and_spell
       (order_entries (@stable_partition _) [lit "^-"; lit "-$"; lit "-"])
       (lit "a-b-c") (fun w => eqb w (lit "a-b") || eqb w (lit "c"))
     = Some (false, [lit "a"]).
Proof.
  repeat split; try reflexivity; simpl; auto; lia.
Qed.

Lemma sub_back (r pat : StrT) :
  size (r ++ pat) < npos ->
  sub (r ++ pat) (size_sub (size (r ++ pat)) (size pat)) (size pat) = pat.
Proof.
  intros Hs. pose proof (size_nonneg r). pose proof (size_nonneg pat).
  rewrite size_app in *. unfold npos in Hs.
  rewrite Affix_Facts.size_sub_no_wrap by lia.
  unfold sub. rewrite size_app.
  replace (size r + size pat - size pat) with (size r) by lia.
  replace (size r + size pat - size r) with (size pat) by lia.
  rewrite Z.min_id. unfold size. rewrite !Nat2Z.id.
  rewrite skipn_app, skipn_all, Nat.sub_diag. simpl. apply firstn_all.
Qed.

(** C1.  When [s] ends with the end-word break [pat], the probe is called on
    [s.substr(pat.size())], the expression of the loop over the start-word
    breaks: [s] without its first [pat.size()] characters, not [s] without
    the pattern at its tail.  With the break table built from ["^-"],
    ["-$"], ["-"] and the string ["a-"] the one call of the probe is made on
    ["-"], not on ["a"]. *)
Theorem break_and_spell_end_break_probe :
  (forall (spell_func : StrT -> bool) (r pat : StrT) (pats : list StrT)
          (next : option Probed),
     size (r ++ pat) < npos ->
     end_loop spell_func (r ++ pat) (pat :: pats) next
     = if spell_func (skipn (length pat) (r ++ pat))
       then Some (true, [skipn (length pat) (r ++ pat)])
       else probed_after (skipn (length pat) (r ++ pat))
              (end_loop spell_func (r ++ pat) pats next))
  /\ (forall spell_func : StrT -> bool,
        break_and_spell
          (order_entries (@stable_partition _)
             [lit "^-"; lit "-$"; lit "-"])
          (lit "a-") spell_func
        = Some (spell_func (lit "-"), [lit "-"]))
  /\ lit "-" <> lit "a".
Proof.
  split; [|split; [|discriminate]].
  - intros f r pat pats next Hs. cbn [end_loop].
    pose proof (size_nonneg r). pose proof (size_nonneg pat).
    destruct (Z.ltb_spec (size (r ++ pat)) (size pat)) as [Hlt|Hle];
      [rewrite size_app in Hlt; lia|].
    unfold compare_at, substr. unfold npos in Hs.
    rewrite Affix_Facts.size_sub_no_wrap by lia.
    destruct (Z.ltb_spec (size (r ++ pat)) (size (r ++ pat) - size pat));
      [lia|].
    destruct (Z.ltb_spec (size (r ++ pat)) (size pat)); [lia|].
    rewrite <- (Affix_Facts.size_sub_no_wrap (a := size (r ++ pat))
                  (b := size pat)) by lia.
    rewrite sub_back by (unfold npos; lia).
    rewrite (proj2 (compare_eq pat pat) eq_refl).
    assert (Harg : sub (r ++ pat) (size pat) npos
                   = skipn (length pat) (r ++ pat)).
    { unfold sub. rewrite Z.min_r by (unfold npos; lia).
      unfold size at 3. rewrite Nat2Z.id. apply firstn_all2.
      rewrite length_skipn. unfold size. lia. }
    rewrite Harg. reflexivity.
  - intros f. unfold break_and_spell. cbn.
    destruct (f _); reflexivity.
Qed.

Lemma break_and_spell_end_break_probe_witness :
  end_loop (fun _ => false) (lit "a" ++ lit "-") [lit "-"] (Some (false, []))
  = Some (false, [lit "-"]).
Proof.
  rewrite (proj1 break_and_spell_end_break_probe (fun _ => false)
             (lit "a") (lit "-") [] (Some (false, [])));
    reflexivity.
Defined.

End Break_Table_Facts.

(** ** The parsers *)

Module Aff_Facts.
Import Std Std_Facts Structures Istream Aff.

(** *** Flags *)

(** One step through the operations of [M]. *)
Ltac step :=
  cbv beta iota zeta delta [bind ask on_in upd_in cerr ret when];
  cbn [fst snd].

Section Decode_Flags.
Context {text_utils : Text_Utils}.

(** With single-character flags a missing flag ends the program ... *)
Lemma decode_flags_single_char_exits (line_num : Z) (enc : Encoding)
  (w : World) :
  fail (snd (extract_string [] (fst w))) = true ->
  decode_flags line_num FLAG_SINGLE_CHAR enc w = Exits 0.
Proof.
  intros H. cbn [decode_flags]. step.
  destruct (extract_string [] (fst w)) as [s i]. cbn [snd] in H. step.
  now rewrite H.
Qed.

Lemma number_flags_loop_returns (rounds : nat) (ret_ : u16string) (w : World) :
  exists r, number_flags_loop rounds ret_ w = Returns r.
Proof.
  revert ret_ w.
  induction rounds as [|rounds IH]; intros ret_ w; cbn [number_flags_loop].
  - eexists. reflexivity.
  - step. destruct (good (fst w)); [|eexists; reflexivity].
    step. destruct (peek (fst w)) as [[c|] i]; [|eexists; reflexivity].
    destruct (Ascii.eqb c ","); [|eexists; reflexivity].
    step. destruct (get i) as [c' i'].
    step. destruct (extract_unsigned 16 0 i') as [flag i''].
    step. destruct (fail i''); cbn [negb]; [eexists; reflexivity|apply IH].
Qed.

(** ... while with every other flag type [decode_flags] returns, as its
    comment says, with the fail bit of the stream set. *)
Lemma decode_flags_other_types_return (line_num : Z) (t : Flag_Type)
  (enc : Encoding) (w : World) :
  t <> FLAG_SINGLE_CHAR ->
  exists r, decode_flags line_num t enc w = Returns r.
Proof.
  intros Ht. destruct t; [contradiction| | |]; cbn [decode_flags]; step.
  - destruct (extract_string [] (fst w)) as [s i]. step.
    destruct (fail i); [eexists; reflexivity|].
    destruct (is_utf8 enc && negb (is_all_ascii s)); step;
      eexists; reflexivity.
  - destruct (extract_unsigned 16 0 (fst w)) as [flag i]. step.
    destruct (fail i); [eexists; reflexivity|].
    apply number_flags_loop_returns.
  - destruct (extract_string [] (fst w)) as [s i]. step.
    destruct (negb (is_utf8 enc)); step;
      (destruct (fail i); [eexists; reflexivity|]);
      destruct (negb (is_all_bmp (utf_to_utf32 s))); step;
      eexists; reflexivity.
Qed.

(** C2.  An affix file made of one line that holds a command taking a flag
    ([NOSUGGEST] and the other flag settings, [SYLLABLENUM], [PFX], [SFX])
    and no flag after it, read with the flag type every file starts with: the
    missing flag is reported and then [decode_flags] calls [exit(0)], so
    [parse_aff] does not return. *)
Theorem parse_aff_missing_flag_exits (a : Aff_Data) (cerr0 : list cerr_item)
  (command : StrT) :
  In command
    (command_flag_keys ++ [lit "SYLLABLENUM"; lit "PFX"; lit "SFX"]) ->
  parse_aff a (istringstream (command ++ [newline])) cerr0 = Exits 0.
Proof.
  intros H. cbn [command_flag_keys app] in H.
  repeat (destruct H as [<-|H]; [reflexivity|]).
  contradiction.
Qed.

(** The same line after [FLAG long] is reported and skipped, and [parse_aff]
    returns true. *)
Example parse_aff_missing_double_char_flag (a : Aff_Data) :
  exists a' in_',
    parse_aff a
      (istringstream
         (lit "FLAG long" ++ [newline] ++ lit "NOSUGGEST" ++ [newline])) []
    = Returns
        (true, a', in_',
         [Text "Nuspell error: missing double-character flag in line ";
          Num 2; Endl;
          Text "Nuspell error: could not parse affix file line "; Num 2;
          Text ": "; Chars (lit "NOSUGGEST"); Endl]).
Proof. eexists. eexists. reflexivity. Qed.

(** Without aliases the decoder is the ordinary one. *)
Lemma decode_flags_possible_alias_empty (line_num : Z) (t : Flag_Type)
  (enc : Encoding) (w : World) :
  decode_flags_possible_alias line_num t enc [] w
  = decode_flags line_num t enc w.
Proof. reflexivity. Qed.

(** C4, as amended.  When the table of flag aliases is not empty, the decoder
    reads an unsigned number [i] from the stream; if that succeeds and [i] is
    in the range [1 .. number of aliases] it returns the flags of the [i]-th
    alias as they are, and if not it reports an invalid alias index and
    returns no flags, without decoding the token as an ordinary flag
    sequence. *)
Theorem decode_flags_possible_alias_nonempty (line_num : Z) (t : Flag_Type)
  (enc : Encoding) (flag_aliases : list Flag_Set) (w : World) :
  flag_aliases <> [] ->
  (fail (snd (extract_unsigned SIZE_WIDTH 0 (fst w))) = false
   /\ 0 < fst (extract_unsigned SIZE_WIDTH 0 (fst w)) <= size flag_aliases ->
   exists alias,
     nth_error flag_aliases
       (Z.to_nat (fst (extract_unsigned SIZE_WIDTH 0 (fst w)) - 1))
     = Some alias
     /\ decode_flags_possible_alias line_num t enc flag_aliases w
        = Returns (flags alias,
                   (snd (extract_unsigned SIZE_WIDTH 0 (fst w)), snd w)))
  /\ (fail (snd (extract_unsigned SIZE_WIDTH 0 (fst w))) = true
      \/ fst (extract_unsigned SIZE_WIDTH 0 (fst w)) <= 0
      \/ size flag_aliases < fst (extract_unsigned SIZE_WIDTH 0 (fst w)) ->
      decode_flags_possible_alias line_num t enc flag_aliases w
      = Returns ([],
                 (snd (extract_unsigned SIZE_WIDTH 0 (fst w)),
                  snd w ++ [Text "Nuspell error: invalid flag alias index\n"]))).
Proof.
  intros Hne. unfold decode_flags_possible_alias.
  destruct flag_aliases as [|alias0 rest]; [contradiction|].
  cbn [empty]. step.
  destruct (extract_unsigned SIZE_WIDTH 0 (fst w)) as [i in'].
  step. split.
  - intros (Hf & H0 & H1). rewrite Hf.
    destruct (Z.ltb_spec 0 i); [|lia].
    destruct (Z.leb_spec i (size (alias0 :: rest))); [|lia].
    cbn [negb andb].
    destruct (nth_error (alias0 :: rest) (Z.to_nat (i - 1))) as [alias|] eqn:E.
    + exists alias. auto.
    + apply nth_error_None in E. unfold size in *. lia.
  - intros H. assert (Hc : negb (fail in') && (0 <? i)
                           && (i <=? size (alias0 :: rest)) = false).
    { destruct H as [H|[H|H]].
      - now rewrite H.
      - destruct (Z.ltb_spec 0 i); [lia|]. now rewrite andb_false_r.
      - destruct (Z.leb_spec i (size (alias0 :: rest))); [lia|].
        now rewrite andb_false_r. }
    rewrite Hc. reflexivity.
Qed.

End Decode_Flags.

Lemma parse_aff_missing_flag_exits_witness :
  parse_aff (text_utils := ascii_text_utils) Aff_Data_new
    (istringstream (lit "NOSUGGEST" ++ [newline])) []
  = Exits 0.
Proof.
  apply (@parse_aff_missing_flag_exits ascii_text_utils).
  simpl. auto.
Defined.

Lemma decode_flags_possible_alias_nonempty_witness :
  decode_flags_possible_alias (text_utils := ascii_text_utils) 2 FLAG_UTF8
    {| name := lit "UTF-8" |}
    [Flag_Set_of [65; 66]%N; Flag_Set_of [67; 68]%N]
    (istringstream (lit "1"), [])
  = Returns ([65; 66]%N,
             ({| buf := []; failbit := false; eofbit := true |}, [])).
Proof.
  destruct (@decode_flags_possible_alias_nonempty ascii_text_utils 2 FLAG_UTF8
              {| name := lit "UTF-8" |}
              [Flag_Set_of [65; 66]%N; Flag_Set_of [67; 68]%N]
              (istringstream (lit "1"), []) ltac:(discriminate))
    as [H _].
  destruct H as (alias & Halias & Hdec).
  - vm_compute. repeat split; discriminate.
  - vm_compute in Halias. injection Halias as <-. exact Hdec.
Defined.

(** C4 as stated fails: with one alias in the table the token ["AB"] is no
    alias index, and the decoder reports it and returns no flags, where the
    ordinary decoder returns the flags [A] and [B]. *)
Lemma decode_flags_possible_alias_no_fallback :
  decode_flags_possible_alias (text_utils := ascii_text_utils) 1
    FLAG_SINGLE_CHAR {| name := [] |} [Flag_Set_of [65; 66]%N]
    (istringstream (lit "AB"), [])
  = Returns ([],
             ({| buf := lit "AB"; failbit := true; eofbit := false |},
              [Text "Nuspell error: invalid flag alias index\n"]))
  /\ decode_flags (text_utils := ascii_text_utils) 1 FLAG_SINGLE_CHAR
       {| name := [] |} (istringstream (lit "AB"), [])
     = Returns ([65; 66]%N,
                ({| buf := []; failbit := false; eofbit := true |}, [])).
Proof. split; reflexivity. Qed.

(** *** The loops over the lines *)

Lemma split_at_rest (delim : CharT) (b l rest : StrT) :
  split_at delim b = (l, Some rest) -> (length rest < length b)%nat.
Proof.
  revert l. induction b as [|c b IH]; simpl; intros l; [discriminate|].
  destruct (Ascii.eqb c delim).
  - intros [= _ ->]. lia.
  - destruct (split_at delim b) as [l' r]. intros [= _ ->].
    specialize (IH _ eq_refl). lia.
Qed.

Lemma split_at_none (delim : CharT) (b l : StrT) :
  split_at delim b = (l, None) -> l = b.
Proof.
  revert l. induction b as [|c b IH]; simpl; intros l; [now intros [= <-]|].
  destruct (Ascii.eqb c delim); [discriminate|].
  destruct (split_at delim b) as [l' [r|]]; [discriminate|].
  intros [= <-]. now rewrite (IH _ eq_refl).
Qed.

(** A [getline] that does not fail takes a character at least. *)
Lemma getline_shorter (line : StrT) (i : istream) :
  fail (snd (getline line i)) = false ->
  (length (buf (snd (getline line i))) < length (buf i))%nat.
Proof.
  unfold getline, getline_delim, sentry, fail.
  destruct (good i) eqn:G; cbn [fst snd].
  - destruct (split_at newline (buf i)) as [l [rest|]] eqn:E; cbn [snd].
    + intros _. cbn [with_buf buf]. eapply split_at_rest; eauto.
    + apply split_at_none in E. subst l. cbn.
      destruct (buf i); [|cbn; lia].
      rewrite orb_true_r. discriminate.
  - cbn. rewrite orb_true_r. discriminate.
Qed.

Section Line_Loops.
Context {text_utils : Text_Utils}.

(** The rounds granted to the loops of [parse_aff] and [parse_dic] are
    enough: more rounds give the same result. *)
Lemma parse_aff_lines_rounds (n m : nat) (line_num : Z) (line : StrT)
  (a : Aff_Data) (in_ : istream) (w : World) :
  (length (buf in_) < n)%nat -> (length (buf in_) < m)%nat ->
  parse_aff_lines n line_num line a in_ w
  = parse_aff_lines m line_num line a in_ w.
Proof.
  revert m line_num line a in_ w.
  induction n as [|n IH]; intros [|m] line_num line a in_ w Hn Hm; try lia.
  cbn [parse_aff_lines].
  pose proof (getline_shorter line in_) as Hs.
  destruct (getline line in_) as [line' in_']. cbn [snd] in Hs.
  destruct (fail in_'); [reflexivity|]. specialize (Hs eq_refl).
  destruct (parse_aff_line (line_num + 1) line' a w) as [[a' w']|];
    [|reflexivity].
  apply IH; lia.
Qed.


End Line_Loops.

(** *** The dictionary *)

Lemma unique_from_keeps (kept : N) (l : list N) (x : N) :
  In x l -> x = kept \/ In x (unique_from N.eqb kept l).
Proof.
  revert kept. induction l as [|y l IH]; intros kept; simpl; [tauto|].
  intros [->|Hin].
  - destruct (N.eqb_spec kept x); [now left | right; now left].
  - destruct (N.eqb kept y).
    + apply IH, Hin.
    + destruct (IH y Hin) as [->|H]; right; [now left | now right].
Qed.

(** The flags of a [Flag_Set] made from a sequence are those of the
    sequence. *)
Lemma sort_uniq_In (l : u16string) (f : char16_t) :
  In f (sort_uniq l) <-> In f l.
Proof.
  unfold sort_uniq. split.
  - intros H. apply Substr_Replacer_Facts.unique_In in H.
    eapply Permutation_in; [symmetry; apply insertion_sort_perm|exact H].
  - intros H. apply (Permutation_in _ (insertion_sort_perm N.ltb l)) in H.
    destruct (insertion_sort N.ltb l) as [|x l']; [contradiction|].
    simpl. destruct H as [->|H]; [now left|].
    destruct (unique_from_keeps x l' f H); [now left | now right].
Qed.

Lemma contains_Flag_Set_of (l : u16string) (f : char16_t) :
  contains (Flag_Set_of l) f = true <-> In f l.
Proof.
  unfold contains, Flag_Set_of. cbn [flags].
  rewrite <- sort_uniq_In, existsb_exists. split.
  - intros (x & Hx & He). apply N.eqb_eq in He. now subst.
  - intros H. exists f. split; [exact H | apply N.eqb_refl].
Qed.

Lemma equal_range_app (words words' : Dic_Data) (word : StrT) :
  equal_range (words ++ words') word
  = equal_range words word ++ equal_range words' word.
Proof. apply filter_app. Qed.

(** The alias scenario of the specification: after [AF 2], [AF AB], [AF CD]
    under [FLAG UTF-8], the dictionary line [word/1] gives the flags [A] and
    [B]. *)
Example parse_dic_alias_scenario :
  match
    parse_aff (text_utils := ascii_text_utils) Aff_Data_new
      (istringstream
         (lit "SET UTF-8" ++ [newline] ++ lit "FLAG UTF-8" ++ [newline]
          ++ lit "AF 2" ++ [newline] ++ lit "AF AB" ++ [newline]
          ++ lit "AF CD" ++ [newline])) []
  with
  | Returns (true, a, _, _) =>
      match
        parse_dic (text_utils := ascii_text_utils) a
          (istringstream (lit "1" ++ [newline] ++ lit "word/1" ++ [newline]))
          []
      with
      | Returns (true, a', _, _) =>
          words a' = [(lit "word", {| flags := [65%N; 66%N] |})]
      | _ => False
      end
  | _ => False
  end.
Proof. vm_compute. reflexivity. Qed.

(** The exit of [decode_flags] is reached from [parse_dic] as well, by a
    dictionary line that ends at its slash. *)
Example parse_dic_missing_flag_exits :
  parse_dic (text_utils := ascii_text_utils) utf8_en_US
    (istringstream (lit "1" ++ [newline] ++ lit "Ab/" ++ [newline])) []
  = Exits 0.
Proof. reflexivity. Qed.

(** The scenario of the file that holds a byte order mark only. *)
Example parse_aff_bom_only :
  match parse_aff (text_utils := ascii_text_utils) Aff_Data_new
          (istringstream BOM) [] with
  | Returns (result, a, _, _) =>
      result = true /\ flag_type a = FLAG_SINGLE_CHAR
      /\ Encoding_empty (encoding a) = true
      /\ break_patterns a = [lit "-"; lit "^-"; lit "-$"]
  | Exits _ => False
  end.
Proof. vm_compute. auto. Qed.

End Aff_Facts.

(** ** Flag sets *)

Module Flag_Set_Facts.
Import Std Structures Std_Facts.

Lemma N_ltb_asym (a b : N) : N.ltb a b = true -> N.ltb b a = false.
Proof. rewrite N.ltb_lt, N.ltb_ge. lia. Qed.

Lemma N_not_ltb_trans (a b c : N) :
  N.ltb b a = false -> N.ltb c b = false -> N.ltb c a = false.
Proof. rewrite !N.ltb_ge. lia. Qed.

Lemma unique_from_increasing (kept : N) (l : list N) :
  StronglySorted (fun a b => N.ltb b a = false) (kept :: l) ->
  StronglySorted N.lt (kept :: unique_from N.eqb kept l).
Proof.
  revert kept. induction l as [|x l IH]; intros kept Hs; cbn [unique_from].
  - constructor; constructor.
  - apply StronglySorted_inv in Hs. destruct Hs as [Hl Hk].
    pose proof (StronglySorted_inv Hl) as [Hl' Hx].
    pose proof (Forall_inv Hk) as Hkx. pose proof (Forall_inv_tail Hk) as Hkl.
    destruct (N.eqb_spec kept x) as [->|Hne].
    + apply IH. now constructor.
    + specialize (IH x Hl). apply N.ltb_ge in Hkx.
      constructor; [exact IH|].
      constructor; [lia|].
      apply StronglySorted_inv in IH. destruct IH as [_ IH].
      eapply Forall_impl; [|exact IH]. cbv beta. intros y Hy. lia.
Qed.

Lemma sort_uniq_increasing (c : u16string) : StronglySorted N.lt (sort_uniq c).
Proof.
  unfold sort_uniq.
  destruct (insertion_sort_ensures N.ltb N_ltb_asym N_not_ltb_trans c)
    as [_ Hs].
  destruct (insertion_sort N.ltb c) as [|x l]; [constructor|].
  cbn [unique]. now apply unique_from_increasing.
Qed.

Lemma contains_In (fs : Flag_Set) (f : char16_t) :
  contains fs f = true <-> In f (flags fs).
Proof.
  unfold contains. rewrite existsb_exists. split.
  - intros (x & Hx & He). apply N.eqb_eq in He. now subst.
  - intros H. exists f. split; [exact H | apply N.eqb_refl].
Qed.

(** Two strictly increasing sequences with the same elements are equal. *)
Lemma increasing_ext (l1 l2 : list N) :
  StronglySorted N.lt l1 -> StronglySorted N.lt l2 ->
  (forall x, In x l1 <-> In x l2) -> l1 = l2.
Proof.
  revert l2. induction l1 as [|a l1 IH]; intros l2 H1 H2 Hx.
  - destruct l2 as [|b l2]; [reflexivity|].
    exfalso. apply (proj2 (Hx b)). now left.
  - destruct l2 as [|b l2]; [exfalso; apply (proj1 (Hx a)); now left|].
    apply StronglySorted_inv in H1. destruct H1 as [H1 Ha].
    apply StronglySorted_inv in H2. destruct H2 as [H2 Hb].
    rewrite Forall_forall in Ha, Hb.
    assert (a = b) as ->.
    { destruct (proj1 (Hx a) (or_introl eq_refl)) as [E|Hin]; [now subst|].
      destruct (proj2 (Hx b) (or_introl eq_refl)) as [E|Hin']; [exact E|].
      specialize (Ha _ Hin'). specialize (Hb _ Hin). lia. }
    f_equal. apply IH; [exact H1|exact H2|].
    intros x. split; intros Hin.
    + destruct (proj1 (Hx x) (or_intror Hin)) as [E|H]; [|exact H].
      subst x. specialize (Ha _ Hin). lia.
    + destruct (proj2 (Hx x) (or_intror Hin)) as [E|H]; [|exact H].
      subst x. specialize (Hb _ Hin). lia.
Qed.

(** X1.  Construction and [insert] establish the class invariant (the flags
    increase strictly, so there is no duplicate), and [insert] is the union
    with the flags given. *)
Theorem Flag_Set_insert_invariant (fs : Flag_Set) (s : u16string) :
  Flag_Set_ok (Flag_Set_of s)
  /\ Flag_Set_ok (Flag_Set_insert fs s)
  /\ NoDup (flags (Flag_Set_insert fs s))
  /\ (forall f, contains (Flag_Set_insert fs s) f = true
                <-> contains fs f = true \/ In f s).
Proof.
  unfold Flag_Set_ok, Flag_Set_of, Flag_Set_insert. cbn [flags].
  split; [apply sort_uniq_increasing|].
  split; [apply sort_uniq_increasing|]. split.
  - pose proof (sort_uniq_increasing (flags fs ++ s)) as H.
    induction H as [|a l Hl IH Ha]; constructor; [|exact IH].
    intros Hin. rewrite Forall_forall in Ha. specialize (Ha _ Hin). lia.
  - intros f. rewrite !contains_In. cbn [flags].
    rewrite Aff_Facts.sort_uniq_In, in_app_iff. tauto.
Qed.

(** X2.  A [Flag_Set] is determined by its members: sequences with the same
    flags, in any order and with any repetition, give the same set, and
    inserting flags that are all present changes nothing. *)
Theorem Flag_Set_canonical (s1 s2 : u16string) (fs : Flag_Set) :
  ((forall f, In f s1 <-> In f s2) -> Flag_Set_of s1 = Flag_Set_of s2)
  /\ (Flag_Set_ok fs ->
      (forall f, In f s1 -> contains fs f = true) ->
      Flag_Set_insert fs s1 = fs).
Proof.
  split.
  - intros H. unfold Flag_Set_of. f_equal.
    apply increasing_ext; try apply sort_uniq_increasing.
    intros x. rewrite !Aff_Facts.sort_uniq_In. apply H.
  - intros Hok H. destruct fs as [l]. unfold Flag_Set_insert, Flag_Set_ok in *.
    cbn [flags] in *. f_equal.
    apply increasing_ext; [apply sort_uniq_increasing|exact Hok|].
    intros x. rewrite Aff_Facts.sort_uniq_In, in_app_iff. split; [|tauto].
    intros [Hx|Hx]; [exact Hx|].
    apply H in Hx. now apply contains_In in Hx.
Qed.

Lemma Flag_Set_canonical_witness :
  Flag_Set_of [3; 1; 3; 2]%N = Flag_Set_of [1; 2; 3]%N
  /\ Flag_Set_insert (Flag_Set_of [1; 2; 3]%N) [3; 1]%N
     = Flag_Set_of [1; 2; 3]%N.
Proof.
  split.
  - apply (proj1 (Flag_Set_canonical [3; 1; 3; 2]%N [1; 2; 3]%N
                    (Flag_Set_of []))).
    intros f. simpl. tauto.
  - apply (proj2 (Flag_Set_canonical [3; 1]%N [] (Flag_Set_of [1; 2; 3]%N))).
    + unfold Flag_Set_ok. vm_compute.
      repeat (constructor; try reflexivity).
    + intros f [<-|[<-|[]]]; reflexivity.
Defined.

Lemma u16_find_spec (l : u16string) (c : char16_t) :
  match u16_find l c with
  | None => ~ In c l
  | Some i => exists a b, l = a ++ c :: b /\ length a = i /\ ~ In c a
  end.
Proof.
  induction l as [|x l IH]; cbn [u16_find]; [tauto|].
  destruct (N.eqb_spec x c) as [->|Hne].
  - exists [], l. repeat split. tauto.
  - destruct (u16_find l c) as [i|]; cbn [option_map].
    + destruct IH as (a & b & -> & <- & Ha).
      exists (x :: a), b. repeat split. intros [E|Hin]; tauto.
    + intros [E|Hin]; tauto.
Qed.

Lemma StronglySorted_app_inv {A} (R : A -> A -> Prop) (a b : list A) :
  StronglySorted R (a ++ b) ->
  StronglySorted R a /\ StronglySorted R b
  /\ forall x y, In x a -> In y b -> R x y.
Proof.
  induction a as [|h a IH]; cbn [app]; intros H.
  - repeat split; [constructor|exact H|]. intros x y [].
  - apply StronglySorted_inv in H. destruct H as [H Hh].
    destruct (IH H) as (Ha & Hb & Hab). rewrite Forall_app in Hh.
    destruct Hh as [Hha Hhb]. repeat split.
    + now constructor.
    + exact Hb.
    + intros x y [<-|Hx] Hy; [|now apply Hab].
      rewrite Forall_forall in Hhb. now apply Hhb.
Qed.

Lemma StronglySorted_app {A} (R : A -> A -> Prop) (a b : list A) :
  StronglySorted R a -> StronglySorted R b ->
  (forall x y, In x a -> In y b -> R x y) ->
  StronglySorted R (a ++ b).
Proof.
  intros Ha Hb Hab. induction Ha as [|h a Ha IH Hh]; cbn [app]; [exact Hb|].
  constructor.
  - apply IH. intros x y Hx. apply Hab. now right.
  - rewrite Forall_app. split; [exact Hh|].
    rewrite Forall_forall. intros y Hy. apply Hab; [now left|exact Hy].
Qed.

(** X3.  [erase] tells whether the flag was there; on a set that satisfies the
    class invariant it leaves a set that satisfies it, without that flag and
    with every other one. *)
Theorem Flag_Set_erase_spec (fs : Flag_Set) (flag : char16_t) :
  fst (Flag_Set_erase fs flag) = contains fs flag
  /\ (Flag_Set_ok fs ->
      Flag_Set_ok (snd (Flag_Set_erase fs flag))
      /\ forall f, contains (snd (Flag_Set_erase fs flag)) f = true
                   <-> contains fs f = true /\ f <> flag).
Proof.
  unfold Flag_Set_erase, Flag_Set_ok.
  pose proof (u16_find_spec (flags fs) flag) as H.
  destruct (u16_find (flags fs) flag) as [i|]; cbn [fst snd flags].
  - destruct H as (a & b & E & Hi & Ha). split.
    + symmetry. apply contains_In. rewrite E, in_app_iff. right. now left.
    + intros Hs. rewrite E in Hs.
      assert (El : firstn i (flags fs) ++ skipn (S i) (flags fs) = a ++ b).
      { rewrite E, <- Hi. rewrite firstn_app, Nat.sub_diag, firstn_all.
        cbn [firstn]. rewrite app_nil_r.
        replace (S (length a)) with (length a + 1)%nat by lia.
        rewrite skipn_app, Nat.add_comm.
        replace (1 + length a - length a)%nat with 1%nat by lia.
        rewrite skipn_all2 by lia. reflexivity. }
      rewrite El.
      apply StronglySorted_app_inv in Hs. destruct Hs as (Hsa & Hsb & Hab).
      apply StronglySorted_inv in Hsb. destruct Hsb as [Hsb Hb].
      rewrite Forall_forall in Hb. split.
      * apply StronglySorted_app; [exact Hsa|exact Hsb|].
        intros x y Hx Hy. apply Hab; [exact Hx|now right].
      * intros f. rewrite !contains_In. cbn [flags]. rewrite E, !in_app_iff.
        cbn [In]. split.
        -- intros [Hf|Hf].
           ++ split; [now left|]. intros ->. contradiction.
           ++ split; [right; now right|]. intros ->.
              specialize (Hb _ Hf). lia.
        -- intros [[Hf|[Hf|Hf]] Hne]; [now left|congruence|now right].
  - split.
    + symmetry. apply not_true_is_false. rewrite contains_In. exact H.
    + intros Hs. split; [exact Hs|]. intros f. rewrite contains_In.
      split; [|tauto]. intros Hf. split; [exact Hf|]. intros ->. contradiction.
Qed.

Lemma Flag_Set_erase_spec_witness :
  Flag_Set_ok (snd (Flag_Set_erase (Flag_Set_of [3; 1; 2]%N) 2%N))
  /\ snd (Flag_Set_erase (Flag_Set_of [3; 1; 2]%N) 2%N) = Flag_Set_of [1; 3]%N.
Proof.
  split; [|reflexivity].
  apply (proj2 (Flag_Set_erase_spec (Flag_Set_of [3; 1; 2]%N) 2%N)).
  unfold Flag_Set_ok. vm_compute. repeat (constructor; try reflexivity).
Defined.

End Flag_Set_Facts.

(** ** The replacer: termination, the entry found, the loop *)

Module Replacer_Facts.
Import Std Structures Std_Facts Substr_Replacer_Facts Flag_Set_Facts.

(** A table as the constructors leave it: strictly sorted, without the empty
    pattern. *)
Lemma sort_uniq_table (sort : (StrT * StrT -> StrT * StrT -> bool)
                              -> Table_Pairs -> Table_Pairs)
  (v : Table_Pairs) :
  sort_ensures key_less (sort key_less) ->
  strictly_sorted (Substr_Replacer_sort_uniq sort v)
  /\ ~ In [] (map fst (Substr_Replacer_sort_uniq sort v)).
Proof.
  intros Hsort. destruct (Hsort v) as [_ Hsorted].
  pose proof (unique_strictly_sorted Hsorted) as Hu.
  unfold Substr_Replacer_sort_uniq.
  destruct (unique key_equal (sort key_less v)) as [|front rest] eqn:Eu.
  - split; [constructor|intros []].
  - pose proof (strictly_sorted_tail_nonempty Hu) as Hrest.
    destruct (empty (fst front)) eqn:Ef.
    + split; [|exact Hrest]. now apply StronglySorted_inv in Hu.
    + split; [exact Hu|]. cbn [map In]. intros [Hf|Hin]; [|contradiction].
      rewrite Hf in Ef. discriminate.
Qed.

(** X4.  [replace] ends on every replacer the constructors make, whatever
    pairs it was made from and whatever [std::sort] does with equal
    patterns. *)
Theorem replace_constructed_returns
  (sort : (StrT * StrT -> StrT * StrT -> bool) -> Table_Pairs -> Table_Pairs)
  (v : Table_Pairs) (s : StrT) :
  sort_ensures key_less (sort key_less) ->
  exists s', Substr_Replacer_replace (Substr_Replacer_sort_uniq sort v) s
             = Some s'.
Proof.
  intros Hsort. destruct (@sort_uniq_table sort v Hsort) as [_ Hne].
  pose proof (@Substr_Replacer_replace_returns _ s Hne) as H.
  destruct (Substr_Replacer_replace _ s) as [s'|]; [now exists s'|congruence].
Qed.

Lemma replace_constructed_returns_witness :
  exists s',
    Substr_Replacer_replace
      (Substr_Replacer_sort_uniq (@insertion_sort _)
         [(lit "", lit "x"); (lit "a", lit "")])
      (lit "banana")
    = Some s'.
Proof.
  apply (@replace_constructed_returns (@insertion_sort _)
           [(lit "", lit "x"); (lit "a", lit "")] (lit "banana")).
  apply insertion_sort_ensures; [apply key_less_asym|apply not_key_less_trans].
Defined.

Lemma upper_bound_all {A} (f : A -> bool) (l : list A) :
  Forall (fun e => f e = true) l -> upper_bound f l = O.
Proof. intros [|e l' He _]; cbn [upper_bound]; [reflexivity|now rewrite He]. Qed.

Lemma compare_prefix_not_gt (k r : StrT) : compare k (k ++ r) <> Gt.
Proof.
  induction k as [|c k IH]; cbn [app compare].
  - destruct r; discriminate.
  - now rewrite (proj2 (char_compare_eq c c) eq_refl).
Qed.

Lemma prefixes_ordered (k1 k2 x : StrT) :
  starts_with k1 x = true -> starts_with k2 x = true ->
  compare k1 k2 = Lt -> (length k1 < length k2)%nat.
Proof.
  revert k2 x. induction k1 as [|c k1 IH]; intros [|d k2] x; cbn [compare length];
    try discriminate; try lia.
  destruct x as [|y x]; cbn [starts_with]; [discriminate|].
  intros H1 H2. apply andb_prop in H1, H2.
  destruct H1 as [H1 H1'], H2 as [H2 H2'].
  apply Ascii.eqb_eq in H1, H2. subst c d.
  rewrite (proj2 (char_compare_eq y y) eq_refl).
  intros H. specialize (IH _ _ H1' H2' H). lia.
Qed.

Lemma csr_eq_c_str_prefix (e : StrT * StrT) (s : StrT) :
  size (fst e) <= npos ->
  csr_eq e s = true -> starts_with (fst e) (c_str s) = true.
Proof.
  intros He. unfold csr_eq, cmp_prefix_of, compare_at2.
  destruct (_ || _); [discriminate|].
  destruct (compare _ _) eqn:E; try discriminate. intros _.
  apply compare_eq in E. apply starts_with_app.
  assert (Hk : sub (fst e) 0 npos = fst e).
  { unfold sub. rewrite skipn_O. apply firstn_all2.
    unfold size in *. lia. }
  rewrite Hk in E. rewrite E. unfold sub. rewrite skipn_O.
  set (n := Z.to_nat _).
  exists (skipn n (c_str s)). now rewrite firstn_skipn.
Qed.

Lemma nth_error_split_at {A} (l : list A) (n : nat) (x : A) :
  nth_error l n = Some x -> l = firstn n l ++ x :: skipn (S n) l.
Proof.
  revert n. induction l as [|a l IH]; intros [|n]; cbn; try discriminate.
  - now intros [= ->].
  - intros H. f_equal. now apply IH.
Qed.

(** What [find_match] does on a sorted table: it returns the last entry that
    is not above the text, when the text starts with its pattern. *)
Lemma find_match_found (t : Table_Pairs) (s : StrT) (m : StrT * StrT) :
  (forall e, In e t -> size (fst e) <= npos) ->
  strictly_sorted t ->
  find_match t s = Some m ->
  upper_bound (csr_less s) t <> O
  /\ nth_error t (pred (upper_bound (csr_less s) t)) = Some m
  /\ csr_eq m s = true.
Proof.
  intros Ht Hs. unfold find_match. cbn [find_match_loop skipn Nat.add].
  set (n := upper_bound (csr_less s) t).
  destruct (Nat.eqb_spec n O) as [|Hn]; [discriminate|].
  destruct (nth_error t (pred n)) as [e|] eqn:En; [|discriminate].
  destruct (csr_eq e s) eqn:Ee; [|discriminate].
  replace (S (pred n)) with n by lia.
  destruct (length t) as [|r]; cbn [find_match_loop].
  - intros [= <-]. auto.
  - destruct (@upper_bound_partition_point _ (csr_less s) t
                (sorted_table_partitioned s Ht Hs)) as [_ Hafter].
    fold n in Hafter. rewrite (@upper_bound_all _ _ _ Hafter), Nat.add_0_r, Nat.eqb_refl.
    intros [= <-]. auto.
Qed.

(** X5.  On a sorted table, the entry [find_match] returns is an entry of the
    table whose pattern the text starts with, and no entry with a longer
    pattern has this property.  The text is taken as [find_match] sees it,
    up to its first null character. *)
Theorem find_match_longest (t : Table_Pairs) (s : StrT) (m : StrT * StrT) :
  (forall e, In e t -> size (fst e) <= npos) ->
  strictly_sorted t ->
  find_match t s = Some m ->
  In m t
  /\ starts_with (fst m) (c_str s) = true
  /\ forall e, In e t -> starts_with (fst e) (c_str s) = true ->
               (length (fst e) <= length (fst m))%nat.
Proof.
  intros Ht Hs Hf.
  destruct (@find_match_found t s m Ht Hs Hf) as (Hn & En & Ee).
  pose proof (nth_error_In _ _ En) as Hm.
  pose proof (@csr_eq_c_str_prefix m s (Ht m Hm) Ee) as Hpm.
  split; [exact Hm|]. split; [exact Hpm|].
  intros e He Hpe.
  destruct (@upper_bound_partition_point _ (csr_less s) t
              (sorted_table_partitioned s Ht Hs)) as [_ Hafter].
  set (n := upper_bound (csr_less s) t) in *.
  assert (Hle : csr_less s e = false).
  { apply not_true_is_false. intros Hl.
    apply csr_less_iff in Hl; [|now apply Ht].
    apply starts_with_app in Hpe. destruct Hpe as [r Hr].
    rewrite Hr in Hl. now apply compare_prefix_not_gt in Hl. }
  pose proof (nth_error_split_at _ _ En) as Esplit.
  replace (S (pred n)) with n in Esplit by lia.
  rewrite Esplit in He. rewrite in_app_iff in He. cbn [In] in He.
  destruct He as [He|[<-|He]].
  - rewrite Esplit in Hs. apply StronglySorted_app_inv in Hs.
    destruct Hs as (_ & _ & Hab).
    specialize (Hab e m He (or_introl eq_refl)). cbv beta in Hab.
    unfold key_less, ltb in Hab.
    destruct (compare (fst e) (fst m)) eqn:E; try discriminate.
    pose proof (prefixes_ordered _ _ _ Hpe Hpm E). lia.
  - lia.
  - rewrite Forall_forall in Hafter. rewrite (Hafter e He) in Hle.
    discriminate.
Qed.

Lemma find_match_longest_witness :
  let t := [(lit "a", lit "X"); (lit "ab", lit "YY"); (lit "abc", lit "Z")] in
  In (lit "ab", lit "YY") t
  /\ starts_with (lit "ab") (c_str (lit "ab")) = true
  /\ forall e, In e t -> starts_with (fst e) (c_str (lit "ab")) = true ->
               (length (fst e) <= length (lit "ab"))%nat.
Proof.
  apply (@find_match_longest
           [(lit "a", lit "X"); (lit "ab", lit "YY"); (lit "abc", lit "Z")]
           (lit "ab") (lit "ab", lit "YY")).
  - intros e [<-|[<-|[<-|[]]]]; vm_compute; discriminate.
  - unfold strictly_sorted.
    repeat (constructor; try reflexivity).
  - reflexivity.
Defined.

(** *** The loop of replace *)

Lemma replace_shift (p s : StrT) (j n : Z) (r : StrT) :
  0 <= j -> 0 <= n ->
  replace (p ++ s) (size p + j) n r = option_map (app p) (replace s j n r).
Proof.
  intros Hj Hn. unfold replace. rewrite size_app.
  pose proof (size_nonneg p). pose proof (size_nonneg s).
  destruct (Z.ltb_spec (size s) j) as [Hlt|Hge];
    destruct (Z.ltb_spec (size p + size s) (size p + j)); try lia;
    [reflexivity|].
  cbn [option_map]. f_equal.
  assert (Hfi : firstn (Z.to_nat (size p + j)) (p ++ s)
                = p ++ firstn (Z.to_nat j) s).
  { rewrite firstn_app.
    rewrite firstn_all2 by (unfold size in *; lia).
    f_equal. f_equal. unfold size in *. lia. }
  rewrite Hfi, <- app_assoc. f_equal. f_equal.
  rewrite skipn_app.
  rewrite (skipn_all2 p) by (unfold size in *; lia). cbn [app].
  f_equal. f_equal. unfold size in *. lia.
Qed.

(** What has been scanned plays no part in what follows. *)
Lemma replace_loop_shift (table : Table_Pairs) (p : StrT) (rounds : nat) :
  forall (s : StrT) (j : Z),
    0 <= j ->
    replace_loop rounds table (p ++ s) (size p + j)
    = option_map (app p) (replace_loop rounds table s j).
Proof.
  induction rounds as [|rounds IH]; intros s j Hj; cbn [replace_loop];
    [reflexivity|].
  rewrite size_app.
  pose proof (size_nonneg p). pose proof (size_nonneg s).
  assert (Hsk : skipn (Z.to_nat (size p + j)) (p ++ s) = skipn (Z.to_nat j) s).
  { rewrite skipn_app.
    rewrite (skipn_all2 p) by (unfold size in *; lia). cbn [app].
    f_equal. unfold size in *. lia. }
  rewrite Hsk.
  destruct (Z.ltb_spec j (size s)) as [Hlt|Hge];
    destruct (Z.ltb_spec (size p + j) (size p + size s)); try lia;
    [|reflexivity].
  destruct (find_match table (skipn (Z.to_nat j) s)) as [m|].
  - rewrite replace_shift by (try apply size_nonneg; lia).
    destruct (replace s j (size (fst m)) (snd m)) as [s'|]; cbn [option_map];
      [|reflexivity].
    rewrite <- Z.add_assoc. apply IH. pose proof (size_nonneg (snd m)). lia.
  - rewrite <- Z.add_assoc. apply IH. lia.
Qed.

(** Once the rounds are enough, more rounds give the same string. *)
Lemma replace_loop_rounds (table : Table_Pairs) :
  ~ In [] (map fst table) ->
  forall (n m : nat) (s : StrT) (i : Z),
    0 <= i -> (0 < n)%nat -> (0 < m)%nat ->
    size s - i < Z.of_nat n -> size s - i < Z.of_nat m ->
    replace_loop n table s i = replace_loop m table s i.
Proof.
  intros Hne. induction n as [|n IH]; intros [|m] s i Hi Hn0 Hm0 Hn Hm;
    try lia.
  cbn [replace_loop].
  destruct (Z.ltb_spec i (size s)) as [Hlt|Hge]; [|reflexivity].
  destruct (find_match table (skipn (Z.to_nat i) s)) as [[k r]|] eqn:Ef.
  - apply find_match_In in Ef. cbn [fst snd].
    assert (Hk : 0 < size k).
    { destruct k; [|unfold size; cbn [length]; lia].
      exfalso. apply Hne. apply in_map_iff. now exists ([], r). }
    unfold replace. destruct (Z.ltb_spec (size s) i); [lia|].
    pose proof (size_nonneg r).
    assert (Hsz : size (firstn (Z.to_nat i) s ++ r
                        ++ skipn (Z.to_nat (i + Z.min (size k) (size s - i))) s)
                  - (i + size r) < size s - i).
    { rewrite !size_app. unfold size at 1 3.
      rewrite length_firstn, length_skipn. unfold size in *. lia. }
    apply IH; lia.
  - apply IH; lia.
Qed.

(** X6.  The three equations of [replace].  The empty text is left as it is;
    where no pattern is found the first character is kept and the rest is
    treated alone; where a pattern is found it is replaced and what follows
    it is treated alone, so a replacement is never scanned again.
    [replace_copy] runs the same code on a copy of the text. *)
Theorem replace_unfold (table : Table_Pairs) :
  Substr_Replacer_replace table [] = Some []
  /\ (forall c s, find_match table (c :: s) = None ->
        Substr_Replacer_replace table (c :: s)
        = option_map (cons c) (Substr_Replacer_replace table s))
  /\ (~ In [] (map fst table) ->
      (forall e, In e table -> size (fst e) <= npos) ->
      forall s m, find_match table s = Some m ->
        Substr_Replacer_replace table s
        = option_map (app (snd m))
            (Substr_Replacer_replace table (skipn (length (fst m)) s))).
Proof.
  split; [|split].
  - unfold Substr_Replacer_replace. now destruct (empty table).
  - intros c s Hf. unfold Substr_Replacer_replace.
    destruct (empty table); [reflexivity|].
    change (replace_loop (S (length (c :: s))) table (c :: s) 0)
      with (if 0 <? size (c :: s)
            then match find_match table (skipn (Z.to_nat 0) (c :: s)) with
                 | Some match_ =>
                     match replace (c :: s) 0 (size (fst match_)) (snd match_)
                     with
                     | Some s' =>
                         replace_loop (length (c :: s)) table s'
                           (0 + size (snd match_))
                     | None => None
                     end
                 | None => replace_loop (length (c :: s)) table (c :: s) (0 + 1)
                 end
            else Some (c :: s)).
    change (skipn (Z.to_nat 0) (c :: s)) with (c :: s). rewrite Hf.
    destruct (Z.ltb_spec 0 (size (c :: s))) as [_|H];
      [|unfold size in H; cbn [length] in H; lia].
    apply (replace_loop_shift table [c] (length (c :: s)) s (j := 0)). lia.
  - intros Hne Ht s m Hf. unfold Substr_Replacer_replace.
    destruct (empty table) eqn:Et.
    { destruct table; [discriminate Hf|discriminate Et]. }
    pose proof (find_match_In _ _ Hf) as Hm.
    pose proof (find_match_prefix _ _ Ht Hf) as Hp.
    apply starts_with_app in Hp. destruct Hp as [rest ->].
    destruct m as [k r]. cbn [fst snd] in *.
    assert (Hk : (0 < length k)%nat).
    { destruct k; [|cbn [length]; lia].
      exfalso. apply Hne. apply in_map_iff. now exists ([], r). }
    rewrite skipn_app, skipn_all, Nat.sub_diag. cbn [app skipn].
    set (rhs := replace_loop (S (length rest)) table rest 0).
    cbn [replace_loop]. change (skipn (Z.to_nat 0) (k ++ rest)) with (k ++ rest).
    rewrite Hf. cbn [fst snd].
    destruct (Z.ltb_spec 0 (size (k ++ rest))) as [_|H];
      [|rewrite size_app in H; unfold size in H; lia].
    rewrite Affix_Facts.replace_front.
    replace (0 + size r) with (size r + 0) by lia.
    rewrite replace_loop_shift by lia.
    f_equal. subst rhs. rewrite length_app.
    apply replace_loop_rounds; try exact Hne; try lia; unfold size; lia.
Qed.

Lemma replace_unfold_witness :
  let table := [(lit "a", lit "X"); (lit "ab", lit "YY")] in
  Substr_Replacer_replace table (lit "abc")
  = option_map (app (lit "YY")) (Substr_Replacer_replace table (lit "c")).
Proof.
  refine (proj2 (proj2 (replace_unfold
                          [(lit "a", lit "X"); (lit "ab", lit "YY")]))
            _ _ (lit "abc") (lit "ab", lit "YY") _).
  - cbn. intros [H|[H|[]]]; discriminate.
  - intros e [<-|[<-|[]]]; vm_compute; discriminate.
  - reflexivity.
Defined.

End Replacer_Facts.

(** ** The break table: what is kept, what is tried *)

Module Break_Loop_Facts.
Import Std Structures Std_Facts Break_Table_Facts.

Lemma map_caret_erase_front (l : list StrT) :
  Forall (fun x => is_start_word_break x = true) l ->
  map (cons caret) (map erase_front l) = l.
Proof.
  induction 1 as [|x l Hx H IH]; cbn [map]; [reflexivity|].
  apply is_start_word_break_iff in Hx. destruct Hx as [e ->].
  now rewrite erase_front_cons, IH.
Qed.

Lemma map_dolar_pop_back (l : list StrT) :
  Forall (fun x => is_end_word_break x = true) l ->
  map (fun e => e ++ [dolar]) (map pop_back l) = l.
Proof.
  induction 1 as [|x l Hx H IH]; cbn [map]; [reflexivity|].
  apply is_end_word_break_iff in Hx. destruct Hx as [e ->].
  now rewrite pop_back_last, IH.
Qed.

Lemma nonempty_start (x : StrT) :
  is_start_word_break x = true -> x <> [].
Proof. destruct x; [discriminate|discriminate]. Qed.

Lemma nonempty_end (x : StrT) : is_end_word_break x = true -> x <> [].
Proof. destruct x; [discriminate|discriminate]. Qed.

Lemma filter_nonempty_all (p : StrT -> bool) (l : list StrT) :
  (forall x, p x = true -> x <> []) ->
  Forall (fun x => p x = true) l ->
  filter (fun e => negb (empty e)) l = l.
Proof.
  intros Hp H. apply filter_all. eapply Forall_impl; [|exact H].
  intros x Hx. cbv beta in Hx. apply Hp in Hx. now destruct x.
Qed.

(** X7.  The three ranges of a constructed break table tile it, and they hold
    the patterns given, each once: putting the anchors back gives the
    patterns given, up to their order, without the empty ones. *)
Theorem order_entries_keeps_patterns
  (partition : (StrT -> bool) -> list StrT -> list StrT * list StrT)
  (v : list StrT) :
  partition_ensures is_start_word_break (partition is_start_word_break) ->
  partition_ensures is_end_word_break (partition is_end_word_break) ->
  start_word_breaks (order_entries partition v)
    ++ end_word_breaks (order_entries partition v)
    ++ middle_word_breaks (order_entries partition v)
  = table (order_entries partition v)
  /\ Permutation
       (map (cons caret) (start_word_breaks (order_entries partition v))
        ++ map (fun e => e ++ [dolar])
             (end_word_breaks (order_entries partition v))
        ++ middle_word_breaks (order_entries partition v))
       (filter (fun e => negb (empty e)) v).
Proof.
  intros Hs He.
  rewrite start_word_breaks_order_entries, end_word_breaks_order_entries,
    middle_word_breaks_order_entries.
  destruct (Hs v) as (Hp1 & Hst & _).
  destruct (He (snd (partition is_start_word_break v))) as (Hp2 & Hen & _).
  split.
  - unfold order_entries.
    destruct (partition is_start_word_break v) as [st rs]. cbn [fst snd].
    destruct (partition is_end_word_break rs) as [en mi]. reflexivity.
  - rewrite (map_caret_erase_front Hst), (map_dolar_pop_back Hen).
    unfold remove_if.
    rewrite (Permutation_filter (fun e => negb (empty e)) Hp1), filter_app.
    rewrite (Permutation_filter (fun e => negb (empty e)) Hp2), filter_app.
    rewrite (@filter_nonempty_all is_start_word_break _
               (@nonempty_start) Hst).
    rewrite (@filter_nonempty_all is_end_word_break _
               (@nonempty_end) Hen).
    reflexivity.
Qed.

Lemma order_entries_keeps_patterns_witness :
  Permutation
    (map (cons caret)
       (start_word_breaks
          (order_entries (@stable_partition _)
             [lit "-"; lit ""; lit "^a"; lit "b$"]))
     ++ map (fun e => e ++ [dolar])
          (end_word_breaks
             (order_entries (@stable_partition _)
                [lit "-"; lit ""; lit "^a"; lit "b$"]))
     ++ middle_word_breaks
          (order_entries (@stable_partition _)
             [lit "-"; lit ""; lit "^a"; lit "b$"]))
    [lit "-"; lit "^a"; lit "b$"].
Proof.
  apply (proj2 (@order_entries_keeps_patterns (@stable_partition _)
                  [lit "-"; lit ""; lit "^a"; lit "b$"]
                  (stable_partition_ensures _) (stable_partition_ensures _))).
Defined.

(** *** break_and_spell *)

Lemma probed_after_some (c : StrT) (r : option Probed) res calls :
  probed_after c r = Some (res, calls) ->
  exists calls', r = Some (res, calls') /\ calls = c :: calls'.
Proof.
  destruct r as [[res' calls']|]; cbn [probed_after]; [|discriminate].
  intros [= -> <-]. eauto.
Qed.

Lemma last_accepted_cons (f : StrT -> bool) (c : StrT) (calls : list StrT) :
  last_accepted f calls -> last_accepted f (c :: calls).
Proof.
  intros [Hne Hl]. split; [discriminate|].
  destruct calls; [congruence|exact Hl].
Qed.

Lemma start_loop_last_accepted f s pats next calls :
  (forall c, next = Some (true, c) -> last_accepted f c) ->
  start_loop f s pats next = Some (true, calls) -> last_accepted f calls.
Proof.
  intros Hnext. revert calls.
  induction pats as [|pat pats IH]; intros calls; cbn [start_loop];
    [apply Hnext|].
  destruct (compare_at s 0 (size pat) pat) as [[| |]|]; try discriminate;
    try apply IH.
  destruct (substr s (size pat) npos) as [arg|]; [|discriminate].
  destruct (f arg) eqn:Ef.
  - intros [= <-]. split; [discriminate|exact Ef].
  - intros H. apply probed_after_some in H. destruct H as (calls' & H & ->).
    apply last_accepted_cons, IH, H.
Qed.

Lemma end_loop_last_accepted f s pats next calls :
  (forall c, next = Some (true, c) -> last_accepted f c) ->
  end_loop f s pats next = Some (true, calls) -> last_accepted f calls.
Proof.
  intros Hnext. revert calls.
  induction pats as [|pat pats IH]; intros calls; cbn [end_loop];
    [apply Hnext|].
  destruct (size s <? size pat); [apply IH|].
  destruct (compare_at s _ (size pat) pat) as [[| |]|]; try discriminate;
    try apply IH.
  destruct (substr s (size pat) npos) as [arg|]; [|discriminate].
  destruct (f arg) eqn:Ef.
  - intros [= <-]. split; [discriminate|exact Ef].
  - intros H. apply probed_after_some in H. destruct H as (calls' & H & ->).
    apply last_accepted_cons, IH, H.
Qed.

Lemma middle_loop_last_accepted f s pats calls :
  middle_loop f s pats = Some (true, calls) -> last_accepted f calls.
Proof.
  revert calls.
  induction pats as [|pat pats IH]; intros calls; cbn [middle_loop];
    [discriminate|].
  destruct (_ && _); [|apply IH].
  destruct (substr s 0 (find s pat)) as [part1|]; [|discriminate].
  destruct (substr s (find s pat + size pat) npos) as [part2|];
    [|discriminate].
  destruct (f part1) eqn:E1; [destruct (f part2) eqn:E2|].
  - intros [= <-]. split; [discriminate|exact E2].
  - intros H. apply probed_after_some in H. destruct H as (calls' & H & ->).
    apply probed_after_some in H. destruct H as (calls'' & H & ->).
    apply last_accepted_cons, last_accepted_cons, IH, H.
  - intros H. apply probed_after_some in H. destruct H as (calls' & H & ->).
    apply last_accepted_cons, IH, H.
Qed.

(** X8.  On a word of a length below [npos], [break_and_spell] throws no
    exception, and it returns [true] only when the last call of
    [spell_func] it made returned [true]; so it returns [false] when it makes
    no call and when [spell_func] accepts nothing. *)
Theorem break_and_spell_accepts (bt : Break_Table) (s : StrT)
  (spell_func : StrT -> bool) :
  size s < npos ->
  exists res calls,
    break_and_spell bt s spell_func = Some (res, calls)
    /\ (res = true -> last_accepted spell_func calls)
    /\ ((forall w, spell_func w = false) -> res = false).
Proof.
  intros Hs.
  pose proof (@break_and_spell_returns bt s spell_func Hs) as Hr.
  destruct (break_and_spell bt s spell_func) as [[res calls]|] eqn:E;
    [|congruence].
  exists res, calls. split; [reflexivity|].
  assert (Hacc : res = true -> last_accepted spell_func calls).
  { intros ->. unfold break_and_spell in E.
    eapply start_loop_last_accepted; [|exact E].
    intros c Hc. eapply end_loop_last_accepted; [|exact Hc].
    intros c' Hc'. eapply middle_loop_last_accepted; exact Hc'. }
  split; [exact Hacc|].
  intros Hf. destruct res; [|reflexivity].
  destruct (Hacc eq_refl) as [_ Hl]. rewrite Hf in Hl. discriminate.
Qed.

Lemma break_and_spell_accepts_witness :
  exists res calls,
    break_and_spell
      (order_entries (@stable_partition _) [lit "^-"; lit "-$"; lit "-"])
      (lit "a-b") (fun w => eqb w (lit "b"))
    = Some (res, calls)
    /\ (res = true -> last_accepted (fun w => eqb w (lit "b")) calls)
    /\ ((forall w, (fun w => eqb w (lit "b")) w = false) -> res = false).
Proof.
  apply (@break_and_spell_accepts
           (order_entries (@stable_partition _) [lit "^-"; lit "-$"; lit "-"])
           (lit "a-b") (fun w => eqb w (lit "b"))).
  vm_compute. reflexivity.
Defined.

Lemma starts_with_firstn (pat s : StrT) :
  starts_with pat s = true <-> firstn (length pat) s = pat.
Proof.
  rewrite starts_with_app. split.
  - intros [r ->]. now rewrite firstn_app, firstn_all, Nat.sub_diag, app_nil_r.
  - intros H. exists (skipn (length pat) s). rewrite <- H at 1.
    symmetry. apply firstn_skipn.
Qed.

(** One round of the first loop of [break_and_spell], in terms of the
    word: a start break the word starts with is taken away and the rest is
    passed to [spell_func]. *)
Lemma start_loop_cons f s pat pats next :
  size s < npos ->
  start_loop f s (pat :: pats) next
  = if starts_with pat s
    then if f (skipn (length pat) s)
         then Some (true, [skipn (length pat) s])
         else probed_after (skipn (length pat) s) (start_loop f s pats next)
    else start_loop f s pats next.
Proof.
  intros Hs. cbn [start_loop]. unfold compare_at, substr.
  pose proof (size_nonneg s). pose proof (size_nonneg pat).
  destruct (Z.ltb_spec (size s) 0); [lia|].
  destruct (starts_with pat s) eqn:Ep.
  - pose proof (starts_with_length _ _ Ep) as Hlen.
    apply starts_with_firstn in Ep.
    assert (E1 : sub s 0 (size pat) = pat).
    { unfold sub. cbn [Z.to_nat skipn]. rewrite Z.sub_0_r.
      rewrite Z.min_l by (unfold size; lia).
      unfold size. now rewrite Nat2Z.id. }
    rewrite E1, (proj2 (compare_eq pat pat) eq_refl).
    destruct (Z.ltb_spec (size s) (size pat)); [unfold size in *; lia|].
    assert (E2 : sub s (size pat) npos = skipn (length pat) s).
    { unfold sub, size. rewrite Nat2Z.id. apply firstn_all2.
      rewrite length_skipn. unfold size in *. lia. }
    now rewrite E2.
  - destruct (compare (sub s 0 (size pat)) pat) eqn:Ec; try reflexivity.
    apply compare_eq in Ec. exfalso.
    assert (starts_with pat s = true); [|congruence].
    apply starts_with_app. exists (skipn (length pat) s).
    rewrite <- Ec at 1. unfold sub. cbn [Z.to_nat skipn].
    rewrite Z.sub_0_r.
    assert (Hlen : (length pat <= length s)%nat).
    { rewrite <- Ec. unfold sub. rewrite length_firstn, length_skipn. lia. }
    rewrite Z.min_l by (unfold size; lia).
    unfold size. rewrite Nat2Z.id. symmetry. apply firstn_skipn.
Qed.

(** X9.  A start break is honoured wherever it stands in the table: when the
    word starts with one and [spell_func] accepts what follows it,
    [break_and_spell] returns [true]. *)
Theorem break_and_spell_start_break (bt : Break_Table) (pat r : StrT)
  (spell_func : StrT -> bool) :
  size (pat ++ r) < npos ->
  In pat (start_word_breaks bt) ->
  spell_func r = true ->
  exists calls, break_and_spell bt (pat ++ r) spell_func = Some (true, calls).
Proof.
  intros Hs Hin Hf. unfold break_and_spell.
  generalize (end_loop spell_func (pat ++ r) (end_word_breaks bt)
                (middle_loop spell_func (pat ++ r) (middle_word_breaks bt))).
  intros next.
  induction (start_word_breaks bt) as [|p pats IH]; [contradiction|].
  rewrite start_loop_cons by exact Hs.
  destruct (starts_with p (pat ++ r)) eqn:Ep.
  - destruct (spell_func (skipn (length p) (pat ++ r))) eqn:E;
      [eexists; reflexivity|].
    destruct Hin as [->|Hin].
    + rewrite skipn_app, skipn_all, Nat.sub_diag in E. cbn [skipn app] in E.
      congruence.
    + destruct (IH Hin) as (calls & ->). eexists. reflexivity.
  - destruct Hin as [->|Hin]; [|now apply IH].
    rewrite (proj2 (starts_with_app pat (pat ++ r))) in Ep by eauto.
    discriminate.
Qed.

Lemma break_and_spell_start_break_witness :
  exists calls,
    break_and_spell
      (order_entries (@stable_partition _) [lit "^-"; lit "-$"; lit "-"])
      (lit "-" ++ lit "word") (fun w => eqb w (lit "word"))
    = Some (true, calls).
Proof.
  apply (@break_and_spell_start_break
           (order_entries (@stable_partition _) [lit "^-"; lit "-$"; lit "-"])
           (lit "-") (lit "word") (fun w => eqb w (lit "word"))).
  - vm_compute. reflexivity.
  - left. reflexivity.
  - reflexivity.
Defined.

Lemma sub_length_le (s : StrT) (pos n : Z) :
  (length (sub s pos n) <= length s - Z.to_nat pos)%nat.
Proof.
  unfold sub. rewrite length_firstn, length_skipn. lia.
Qed.

Lemma start_loop_shorter f s pats next res calls :
  (forall p, In p pats -> p <> []) ->
  (forall res' c, next = Some (res', c) -> Forall (shorter_than s) c) ->
  start_loop f s pats next = Some (res, calls) ->
  Forall (shorter_than s) calls.
Proof.
  intros Hpats Hnext. revert res calls.
  induction pats as [|pat pats IH]; intros res calls; cbn [start_loop];
    [apply Hnext|].
  assert (IH' := IH (fun p Hp => Hpats p (or_intror Hp))).
  assert (Hpat : pat <> []) by (apply Hpats; now left).
  unfold compare_at, substr.
  destruct (size s <? 0); [discriminate|].
  destruct (compare (sub s 0 (size pat)) pat) eqn:Ec; try apply IH'.
  apply compare_eq in Ec.
  destruct (size s <? size pat); [discriminate|].
  assert (Harg : shorter_than s (sub s (size pat) npos)).
  { unfold shorter_than. pose proof (sub_length_le s (size pat) npos).
    pose proof (sub_length_le s 0 (size pat)) as H0. rewrite Ec in H0.
    destruct pat; [congruence|]. unfold size in *. cbn [length] in *. lia. }
  destruct (f (sub s (size pat) npos)).
  - intros [= <- <-]. now constructor.
  - intros H. apply probed_after_some in H. destruct H as (calls' & H & ->).
    constructor; [exact Harg|]. eapply IH', H.
Qed.

Lemma end_loop_shorter f s pats next res calls :
  (forall p, In p pats -> p <> []) ->
  (forall res' c, next = Some (res', c) -> Forall (shorter_than s) c) ->
  end_loop f s pats next = Some (res, calls) ->
  Forall (shorter_than s) calls.
Proof.
  intros Hpats Hnext. revert res calls.
  induction pats as [|pat pats IH]; intros res calls; cbn [end_loop];
    [apply Hnext|].
  assert (IH' := IH (fun p Hp => Hpats p (or_intror Hp))).
  assert (Hpat : pat <> []) by (apply Hpats; now left).
  destruct (Z.ltb_spec (size s) (size pat)) as [|Hle]; [apply IH'|].
  unfold compare_at, substr.
  destruct (size s <? size_sub (size s) (size pat)); [discriminate|].
  destruct (compare _ pat) eqn:Ec; try apply IH'.
  destruct (size s <? size pat); [discriminate|].
  assert (Harg : shorter_than s (sub s (size pat) npos)).
  { unfold shorter_than. pose proof (sub_length_le s (size pat) npos).
    destruct pat; [congruence|]. unfold size in *. cbn [length] in *. lia. }
  destruct (f (sub s (size pat) npos)).
  - intros [= <- <-]. now constructor.
  - intros H. apply probed_after_some in H. destruct H as (calls' & H & ->).
    constructor; [exact Harg|]. eapply IH', H.
Qed.

(** X10.  When no start or end break of the table is empty, every word
    [break_and_spell] passes to [spell_func] is shorter than the word it was
    given, so a [spell_func] that calls [break_and_spell] again comes to an
    end. *)
Theorem break_and_spell_probes_shorter (bt : Break_Table) (s : StrT)
  (spell_func : StrT -> bool) (res : bool) (calls : list StrT) :
  size s < npos ->
  (forall p, In p (start_word_breaks bt) -> p <> []) ->
  (forall p, In p (end_word_breaks bt) -> p <> []) ->
  break_and_spell bt s spell_func = Some (res, calls) ->
  Forall (fun c => (length c < length s)%nat) calls.
Proof.
  intros Hs Hst Hen E. unfold break_and_spell in E.
  change (Forall (shorter_than s) calls).
  eapply start_loop_shorter; [exact Hst| |exact E].
  intros res1 c1 E1. eapply end_loop_shorter; [exact Hen| |exact E1].
  intros res2 c2 E2.
  destruct (@middle_loop_spec spell_func s (middle_word_breaks bt) Hs)
    as (res3 & c3 & E3 & _ & Hc).
  rewrite E3 in E2. injection E2 as <- <-.
  eapply Forall_impl; [|exact Hc]. cbv beta.
  intros c (part1 & part2 & (pat & i & _ & Ho & Hi & Hl & -> & ->) & Hc').
  unfold shorter_than.
  destruct Hc' as [-> | ->].
  - rewrite length_firstn. lia.
  - rewrite length_skipn. lia.
Qed.

Lemma break_and_spell_probes_shorter_witness :
  Forall (fun c => (length c < length (lit "-a-b"))%nat)
    [lit "a-b"].
Proof.
  apply (@break_and_spell_probes_shorter
           (order_entries (@stable_partition _) [lit "^-"; lit "-$"; lit "-"])
           (lit "-a-b") (fun _ => false) false
           [lit "a-b"]).
  - vm_compute. reflexivity.
  - intros p [<-|[]]. discriminate.
  - intros p [<-|[]]. discriminate.
  - vm_compute. reflexivity.
Defined.

End Break_Loop_Facts.

(** ** Prefix and suffix entries on any word *)

Module Affix_Splice_Facts.
Import Std Structures Std_Facts Affix_Facts.

Lemma replace_at_front (w b : StrT) (n : Z) :
  0 <= n -> replace w 0 n b = Some (b ++ skipn (Z.to_nat n) w).
Proof.
  intros Hn. unfold replace. pose proof (size_nonneg w).
  destruct (Z.ltb_spec (size w) 0); [lia|]. cbn [Z.to_nat firstn app].
  do 2 f_equal. rewrite Z.add_0_l, Z.sub_0_r.
  destruct (Z.le_ge_cases n (size w)).
  - now rewrite Z.min_l.
  - rewrite Z.min_r by lia.
    rewrite !skipn_all2; [reflexivity|unfold size in *; lia|unfold size; lia].
Qed.

(** X11.  The two operations of a prefix entry throw no exception, whatever the
    word: they replace at position 0, which is never out of range, and a
    word shorter than the string to remove is replaced as a whole.
    [to_root_copy] and [to_derived_copy] run the same code on a copy of the
    word. *)
Theorem Prefix_splice_total (e : Affix_Entry) (w : StrT) :
  Prefix_to_root e w
  = Some (stripping e ++ skipn (length (appending e)) w)
  /\ Prefix_to_derived e w
     = Some (appending e ++ skipn (length (stripping e)) w).
Proof.
  unfold Prefix_to_root, Prefix_to_derived.
  rewrite !replace_at_front by apply size_nonneg.
  unfold size. now rewrite !Nat2Z.id.
Qed.

Lemma starts_with_skipn (a w : StrT) :
  a ++ skipn (length a) w = w <-> starts_with a w = true.
Proof.
  rewrite starts_with_app. split.
  - intros H. now exists (skipn (length a) w).
  - intros [r ->]. now rewrite skipn_app, skipn_all, Nat.sub_diag.
Qed.

(** X12.  What [to_derived] makes of the result of [to_root]: the word with
    its first characters (for a suffix entry its last ones), as many as the
    append string has, overwritten by the append string.  So the round trip
    gives the word back exactly when the word carries the affix. *)
Theorem to_derived_to_root_overwrites (e : Affix_Entry) (w : StrT) :
  (match Prefix_to_root e w with
   | Some r => Prefix_to_derived e r
   | None => None
   end = Some (appending e ++ skipn (length (appending e)) w)
   /\ (appending e ++ skipn (length (appending e)) w = w
       <-> starts_with (appending e) w = true))
  /\ (size w < 2 ^ SIZE_WIDTH -> size (appending e) <= size w ->
      match Suffix_to_root e w with
      | Some r => Suffix_to_derived e r
      | None => None
      end = Some (firstn (length w - length (appending e)) w ++ appending e)
      /\ (firstn (length w - length (appending e)) w ++ appending e = w
          <-> skipn (length w - length (appending e)) w = appending e)).
Proof.
  split.
  - split; [|apply starts_with_skipn].
    unfold Prefix_to_root, Prefix_to_derived.
    rewrite replace_at_front by apply size_nonneg.
    rewrite replace_front. unfold size. now rewrite Nat2Z.id.
  - intros Hw Ha.
    set (k := (length w - length (appending e))%nat).
    assert (Hsplit : w = firstn k w ++ skipn k w)
      by (symmetry; apply firstn_skipn).
    assert (Hk : length (skipn k w) = length (appending e)).
    { rewrite length_skipn. unfold size in Ha. lia. }
    assert (Hr : size (firstn k w) < 2 ^ SIZE_WIDTH).
    { unfold size in *. rewrite length_firstn. lia. }
    split.
    + unfold Suffix_to_root, Suffix_to_derived.
      replace (size (appending e)) with (size (skipn k w))
        by (unfold size; lia).
      rewrite Hsplit at 1 2. rewrite replace_back by exact Hr.
      now rewrite replace_back by exact Hr.
    + split.
      * intros H. rewrite Hsplit in H at 2. now apply app_inv_head in H.
      * intros <-. now rewrite firstn_skipn.
Qed.

Lemma to_derived_to_root_overwrites_witness :
  let e := Suffix_Entry 65%N true (lit "y") (lit "ies") (lit "[^aeiou]y") in
  match Suffix_to_root e (lit "bushes") with
  | Some r => Suffix_to_derived e r
  | None => None
  end = Some (lit "busies").
Proof.
  apply (proj2 (to_derived_to_root_overwrites
                  (Suffix_Entry 65%N true (lit "y") (lit "ies")
                     (lit "[^aeiou]y"))
                  (lit "bushes"))).
  - vm_compute. reflexivity.
  - vm_compute. discriminate.
Defined.

End Affix_Splice_Facts.

(** ** Encoding names *)

Module Encoding_Facts.
Import Std Std_Facts Structures Istream Aff.

Lemma classic_toupper_idempotent (c : CharT) :
  classic_toupper (classic_toupper c) = classic_toupper c.
Proof. destruct c as [[] [] [] [] [] [] [] []]; reflexivity. Qed.

Lemma to_upper_idempotent (s : StrT) : to_upper (to_upper s) = to_upper s.
Proof.
  unfold to_upper. rewrite map_map. apply map_ext.
  intros c. apply classic_toupper_idempotent.
Qed.

(** X13.  The name of an [Encoding] is in a normal form: it is in upper case
    and never ["UTF8"], so building an [Encoding] from the name of one gives
    the same [Encoding]; and it is UTF-8 exactly for the names that read
    ["UTF8"] or ["UTF-8"] when letter case is ignored. *)
Theorem Encoding_of_normal_form (e : StrT) :
  to_upper (name (Encoding_of e)) = name (Encoding_of e)
  /\ name (Encoding_of e) <> lit "UTF8"
  /\ Encoding_of (name (Encoding_of e)) = Encoding_of e
  /\ (is_utf8 (Encoding_of e) = true
      <-> to_upper e = lit "UTF8" \/ to_upper e = lit "UTF-8").
Proof.
  unfold Encoding_of, is_utf8.
  destruct (eqb (to_upper e) (lit "UTF8")) eqn:E; cbn [name].
  - apply eqb_eq in E. repeat split; try reflexivity; try discriminate.
    now left.
  - rewrite to_upper_idempotent, E. cbn [name].
    repeat split.
    + intros H. apply eqb_eq in H. congruence.
    + intros H. right. now apply eqb_eq.
    + intros [H|H]; [apply eqb_eq in H; congruence|now apply eqb_eq].
Qed.

End Encoding_Facts.

(** ** Flags as decoded *)

Module Flags_Facts.
Import Std Std_Facts Structures Istream Aff Aff_Facts.

Lemma post_ret {A} (a : A) (Q : A -> Prop) : Q a -> post (ret a) Q.
Proof. intros H w a' w' [= <- _]. exact H. Qed.

Lemma post_bind {A B} (m : M A) (k : A -> M B) (R : A -> Prop)
  (Q : B -> Prop) :
  post m R -> (forall x, R x -> post (k x) Q) -> post (bind m k) Q.
Proof.
  intros Hm Hk w b w'. unfold bind.
  destruct (m w) as [[a w1]|] eqn:E; [|discriminate].
  apply Hk. eapply Hm, E.
Qed.

Lemma post_any {A} (m : M A) : post m (fun _ => True).
Proof. intros w a w' _. exact I. Qed.

Lemma post_seq {A B} (m : M A) (k : A -> M B) (Q : B -> Prop) :
  (forall x, post (k x) Q) -> post (bind m k) Q.
Proof.
  intros Hk. apply post_bind with (R := fun _ => True); [apply post_any|].
  intros x _. apply Hk.
Qed.

Lemma post_on_in {A} (op : istream -> A * istream) (Q : A -> Prop) :
  (forall i, Q (fst (op i))) -> post (on_in op) Q.
Proof.
  intros H w a w'. unfold on_in. specialize (H (fst w)).
  destruct (op (fst w)) as [a' i]. intros [= <- _]. exact H.
Qed.

Lemma post_exit {A} (status : Z) (Q : A -> Prop) : post (exit status) Q.
Proof. intros w a w'. discriminate. Qed.

Lemma post_weaken {A} (m : M A) (Q Q' : A -> Prop) :
  post m Q -> (forall a, Q a -> Q' a) -> post m Q'.
Proof. intros H HQ w a w' E. apply HQ. eapply H, E. Qed.

Lemma lor_char16 (a b : N) : (a < 256)%N -> (b < 256)%N ->
  char16 (N.lor (N.shiftl a 8) b).
Proof.
  intros Ha Hb. unfold char16.
  destruct (N.eq_dec (N.lor (N.shiftl a 8) b) 0) as [->|Hne]; [lia|].
  change 65536%N with (2 ^ 16)%N. apply N.log2_lt_pow2; [lia|].
  rewrite N.log2_lor. apply N.max_lub_lt.
  - rewrite N.shiftl_mul_pow2. change (2 ^ 8)%N with 256%N.
    destruct (N.eq_dec a 0) as [->|Ha0]; [reflexivity|].
    apply N.log2_lt_pow2; [lia|]. change (2 ^ 16)%N with 65536%N. lia.
  - destruct (N.eq_dec b 0) as [->|Hb0]; [reflexivity|].
    apply N.log2_lt_pow2; [lia|]. change (2 ^ 16)%N with 65536%N. lia.
Qed.

Lemma double_char_flags_char16 (s : StrT) :
  Forall char16 (double_char_flags s).
Proof.
  assert (H : forall n (s : StrT), (length s <= n)%nat ->
                                   Forall char16 (double_char_flags s)).
  { clear s. induction n as [|n IH]; intros s Hn.
    - destruct s; [constructor|cbn [length] in Hn; lia].
    - destruct s as [|c1 [|c2 s]]; cbn [double_char_flags].
      + constructor.
      + constructor; [|constructor].
        pose proof (N_ascii_bounded c1). unfold char16. lia.
      + constructor; [apply lor_char16; apply N_ascii_bounded|].
        apply IH. cbn [length] in Hn. lia. }
  now apply (H (length s)).
Qed.

Lemma num_get_unsigned_16_bound (b : StrT) :
  fst (fst (num_get_unsigned 16 b)) < 65536.
Proof.
  unfold num_get_unsigned.
  destruct (take_sign b) as [negative b'].
  destruct (span isdigit b') as [ds rest].
  destruct (empty ds); cbn [fst]; [lia|].
  destruct (Z.leb_spec (2 ^ 16) (digits_value ds)); cbn [fst]; [lia|].
  destruct negative; [|lia].
  pose proof (Z.mod_pos_bound (2 ^ 16 - digits_value ds) (2 ^ 16)). lia.
Qed.

Lemma extract_unsigned_16_bound (i : istream) :
  char16 (Z.to_N (fst (extract_unsigned 16 0 i))).
Proof.
  unfold extract_unsigned, char16.
  destruct (sentry false i) as [[|] i']; cbn [fst]; [|lia].
  pose proof (num_get_unsigned_16_bound (buf i')) as H.
  destruct (num_get_unsigned 16 (buf i')) as [[v failed] rest].
  cbn [fst] in *. lia.
Qed.

Section Decode.
Context {text_utils : Text_Utils}.

Lemma number_flags_loop_char16 (rounds : nat) (ret_ : u16string) :
  Forall char16 ret_ -> post (number_flags_loop rounds ret_) (Forall char16).
Proof.
  revert ret_. induction rounds as [|rounds IH]; intros ret_ Hr;
    cbn [number_flags_loop]; [now apply post_ret|].
  apply post_seq. intros [|]; [|now apply post_ret].
  apply post_seq. intros [c|]; [|now apply post_ret].
  destruct (Ascii.eqb c ","); [|now apply post_ret].
  apply post_seq. intros _.
  apply post_bind with (R := fun flag => char16 (Z.to_N flag)).
  { apply post_on_in. apply extract_unsigned_16_bound. }
  intros flag Hflag. apply post_seq. intros [|]; cbn [negb].
  - apply post_seq. intros _. now apply post_ret.
  - apply IH. apply Forall_app. split; [exact Hr|now constructor].
Qed.

(** X14.  Every flag [decode_flags] returns is a [char16_t] value, for each of
    the four flag types and whatever the stream holds; with the
    single-character type it is the value of one byte. *)
Theorem decode_flags_char16 (line_num : Z) (t : Flag_Type) (enc : Encoding)
  (w w' : World) (flags : u16string) :
  decode_flags line_num t enc w = Returns (flags, w') ->
  Forall (fun f => (f < 65536)%N) flags
  /\ (t = FLAG_SINGLE_CHAR -> Forall (fun f => (f < 256)%N) flags).
Proof.
  revert w flags w'.
  change (post (decode_flags line_num t enc)
            (fun flags => Forall char16 flags
                          /\ (t = FLAG_SINGLE_CHAR ->
                              Forall (fun f => (f < 256)%N) flags))).
  destruct t; cbn [decode_flags].
  - apply post_seq. intros s. apply post_seq. intros [|].
    + apply post_seq. intros _. apply post_exit.
    + apply post_seq. intros _. apply post_ret.
      unfold latin1_to_ucs2. cbn [app].
      split; [|intros _]; apply Forall_map, Forall_forall;
        intros c _; pose proof (N_ascii_bounded c); unfold char16; lia.
  - apply post_seq. intros s. apply post_seq. intros [|].
    + apply post_seq. intros _. apply post_ret.
      split; [constructor|discriminate].
    + apply post_seq. intros _. apply post_ret.
      split; [apply double_char_flags_char16|discriminate].
  - apply post_bind with (R := fun flag => char16 (Z.to_N flag)).
    { apply post_on_in. apply extract_unsigned_16_bound. }
    intros flag Hflag. apply post_seq. intros [|].
    + apply post_seq. intros _. apply post_ret.
      split; [constructor|discriminate].
    + apply post_seq. intros rounds.
      eapply post_weaken.
      * apply number_flags_loop_char16. now constructor.
      * intros a Ha. split; [exact Ha|discriminate].
  - apply post_seq. intros s. apply post_seq. intros _.
    apply post_seq. intros [|].
    + apply post_seq. intros _. apply post_ret.
      split; [constructor|discriminate].
    + apply post_seq. intros _. apply post_ret.
      split; [|discriminate].
      unfold u32_to_ucs2_skip_non_bmp. cbn [app]. apply Forall_forall.
      intros f Hf. apply filter_In in Hf. destruct Hf as [_ Hf].
      unfold is_bmp in Hf. apply N.leb_le in Hf. unfold char16. lia.
Qed.

(** X15.  [decode_flags] ends the program in one case only: the flag type is
    the single-character one and no token can be read; the status is 0. *)
Theorem decode_flags_exits_iff (line_num : Z) (t : Flag_Type) (enc : Encoding)
  (w : World) (status : Z) :
  decode_flags line_num t enc w = Exits status
  <-> t = FLAG_SINGLE_CHAR
      /\ fail (snd (extract_string [] (fst w))) = true
      /\ status = 0.
Proof.
  split.
  - intros H. destruct t.
    + split; [reflexivity|]. cbn [decode_flags] in H. revert H. step.
      destruct (extract_string [] (fst w)) as [s i]. cbn [snd]. step.
      destruct (fail i).
      * intros [= <-]. auto.
      * destruct (is_utf8 enc && negb (is_all_ascii s)); step; discriminate.
    + destruct (@decode_flags_other_types_return _ line_num FLAG_DOUBLE_CHAR
                  enc w) as [r Hr]; [discriminate|congruence].
    + destruct (@decode_flags_other_types_return _ line_num FLAG_NUMBER
                  enc w) as [r Hr]; [discriminate|congruence].
    + destruct (@decode_flags_other_types_return _ line_num FLAG_UTF8
                  enc w) as [r Hr]; [discriminate|congruence].
  - intros (-> & H & ->). now apply decode_flags_single_char_exits.
Qed.

End Decode.

Lemma decode_flags_char16_witness :
  Forall (fun f => (f < 65536)%N) [24930%N; 99%N].
Proof.
  refine (proj1 (@decode_flags_char16 ascii_text_utils 1 FLAG_DOUBLE_CHAR
           {| name := [] |} (istringstream (lit "abc"), [])
           ({| buf := []; failbit := false; eofbit := true |}, [])
           [24930%N; 99%N] _)).
  vm_compute. reflexivity.
Defined.

End Flags_Facts.

(** ** The byte order mark and the tokens of an affix line *)

Module Stream_Facts.
Import Std Std_Facts Structures Istream Aff Aff_Facts.

(** X16.  On a stream in good state that holds three characters at least,
    [strip_bom] takes the byte order mark away when the stream starts with
    it and leaves the stream as it was when not. *)
Theorem strip_bom_spec (i : istream) :
  good i = true -> (3 <= length (buf i))%nat ->
  strip_bom i
  = if eqb (firstn 3 (buf i)) BOM then with_buf i (skipn 3 (buf i)) else i.
Proof.
  destruct i as [b f e]. unfold good. cbn [failbit eofbit buf].
  destruct f, e; try discriminate. intros _ Hb.
  destruct b as [|c1 [|c2 [|c3 b]]]; cbn [length] in Hb; try lia.
  unfold strip_bom, read, sentry, good. cbn [failbit eofbit buf negb andb].
  cbn [firstn skipn length Nat.eqb with_buf buf failbit eofbit negb orb].
  destruct (eqb [c1; c2; c3] BOM); reflexivity.
Qed.

Lemma strip_bom_spec_witness :
  strip_bom (istringstream (BOM ++ lit "SET UTF-8"))
  = istringstream (lit "SET UTF-8")
  /\ strip_bom (istringstream (lit "SET UTF-8"))
     = istringstream (lit "SET UTF-8").
Proof.
  split.
  - apply (@strip_bom_spec (istringstream (BOM ++ lit "SET UTF-8")));
      [reflexivity|cbn; lia].
  - apply (@strip_bom_spec (istringstream (lit "SET UTF-8")));
      [reflexivity|cbn; lia].
Defined.

(** X17.  On a stream in good state that holds fewer than three characters,
    [strip_bom] leaves nothing to read: [read] sets [failbit], so the calls
    of [putback] put nothing back before [failbit] is cleared again. *)
Theorem strip_bom_short (i : istream) :
  good i = true -> (length (buf i) < 3)%nat ->
  strip_bom i
  = {| buf := []; failbit := false; eofbit := empty (buf i) |}.
Proof.
  destruct i as [b f e]. unfold good. cbn [failbit eofbit buf].
  destruct f, e; try discriminate. intros _ Hb.
  destruct b as [|c1 [|c2 [|c3 b]]]; cbn [length] in Hb; try lia;
    reflexivity.
Qed.

Lemma strip_bom_short_witness :
  strip_bom (istringstream (lit "1" ++ [newline]))
  = {| buf := []; failbit := false; eofbit := false |}.
Proof.
  apply (@strip_bom_short (istringstream (lit "1" ++ [newline])));
    [reflexivity|cbn; lia].
Defined.

Lemma read_to_slash_or_space_loop_spec (b : StrT) :
  forall (out : StrT) (readSomething : bool) (log : list cerr_item)
         (rounds : nat),
    (length b < rounds)%nat ->
    read_to_slash_or_space_loop rounds out readSomething
      ({| buf := b; failbit := false; eofbit := false |}, log)
    = Returns
        ((hd_error (snd (span token_char b)),
          out ++ fst (span token_char b),
          readSomething || negb (empty (fst (span token_char b)))),
         (match snd (span token_char b) with
          | [] => {| buf := []; failbit := true; eofbit := true |}
          | _ :: rest => {| buf := rest; failbit := false; eofbit := false |}
          end, log)).
Proof.
  induction b as [|c b IH]; intros out rs log [|rounds] Hr;
    cbn [length] in Hr; try lia.
  - cbn. now rewrite app_nil_r, orb_false_r.
  - cbn [read_to_slash_or_space_loop]. step.
    unfold get, sentry, good. cbn [failbit eofbit buf negb andb with_buf].
    step. cbn [span]. fold (token_char c).
    destruct (token_char c) eqn:Ec.
    + rewrite IH by lia. destruct (span token_char b) as [tok rest].
      cbn [fst snd empty negb]. now rewrite <- app_assoc, !orb_true_r.
    + cbn [fst snd hd_error empty negb]. now rewrite app_nil_r, orb_false_r.
Qed.

(** X18.  [read_to_slash_or_space] on a stream in good state: after the white
    space in front, the characters up to the first slash or white space are
    appended to [out]; that delimiter is taken from the stream too, and the
    value returned tells whether it was a slash.  [failbit] is left set only
    when nothing but white space was left to read. *)
Theorem read_to_slash_or_space_spec (i : istream) (log : list cerr_item)
  (out : StrT) :
  good i = true ->
  read_to_slash_or_space out (i, log)
  = Returns
      ((match snd (span token_char (skip_space (buf i))) with
        | d :: _ => Ascii.eqb d "/"
        | [] => false
        end,
        out ++ fst (span token_char (skip_space (buf i)))),
       ({| buf := tl (snd (span token_char (skip_space (buf i))));
           failbit := empty (skip_space (buf i));
           eofbit := empty (snd (span token_char (skip_space (buf i)))) |},
        log)).
Proof.
  destruct i as [b f e]. unfold good. cbn [failbit eofbit buf].
  destruct f, e; try discriminate. intros _.
  unfold read_to_slash_or_space. step.
  unfold ws, sentry, good. cbn [failbit eofbit buf negb andb with_buf].
  destruct (skip_space b) as [|c b'] eqn:Es.
  - cbn. now rewrite app_nil_r.
  - unfold setstate, with_buf. cbn [empty buf failbit eofbit orb].
    rewrite read_to_slash_or_space_loop_spec by lia.
    destruct (span token_char (c :: b')) as [tok rest] eqn:Esp.
    cbn [fst snd].
    assert (Hne : empty tok = false \/ exists d rest', rest = d :: rest').
    { cbn [span] in Esp. destruct (token_char c).
      - destruct (span token_char b'). injection Esp as <- <-. now left.
      - injection Esp as <- <-. right. eauto. }
    destruct rest as [|d rest']; cbn [hd_error tl empty].
    + destruct Hne as [Hne|(d & r & Hr)]; [|discriminate].
      rewrite Hne. reflexivity.
    + destruct (false || negb (empty tok) || Ascii.eqb d "/"); reflexivity.
Qed.

Lemma read_to_slash_or_space_spec_witness :
  read_to_slash_or_space [] (istringstream (lit "  ies/AB rest"), [])
  = Returns ((true, lit "ies"), (istringstream (lit "AB rest"), [])).
Proof.
  apply (@read_to_slash_or_space_spec
           (istringstream (lit "  ies/AB rest")) [] []).
  reflexivity.
Defined.

End Stream_Facts.

(** ** Morphological fields *)

Module Fields_Facts.
Import Std Std_Facts Structures Istream Aff Aff_Facts.

Lemma skip_space_spec (b : StrT) :
  exists sp, b = sp ++ skip_space b
             /\ Forall (fun c => isspace c = true) sp
             /\ match skip_space b with
                | [] => True
                | c :: _ => isspace c = false
                end.
Proof.
  induction b as [|c b (sp & Hb & Hsp & Hc)]; cbn [skip_space].
  - exists []. repeat split. constructor.
  - destruct (isspace c) eqn:Ec.
    + exists (c :: sp). cbn [app]. rewrite <- Hb. repeat split; auto.
    + exists []. repeat split; [constructor|exact Ec].
Qed.

Lemma span_not_space_spec (b : StrT) :
  b = fst (span (fun c => negb (isspace c)) b)
      ++ snd (span (fun c => negb (isspace c)) b)
  /\ Forall (fun c => isspace c = false)
       (fst (span (fun c => negb (isspace c)) b))
  /\ match snd (span (fun c => negb (isspace c)) b) with
     | [] => True
     | d :: _ => isspace d = true
     end.
Proof.
  induction b as [|c b (Hb & Ht & Hr)]; cbn [span].
  - repeat split. constructor.
  - destruct (isspace c) eqn:Ec; cbn [negb].
    + cbn [fst snd app]. repeat split; [constructor|exact Ec].
    + destruct (span (fun c => negb (isspace c)) b) as [t rest].
      cbn [fst snd app] in *. repeat split; [congruence| |exact Hr].
      constructor; assumption.
Qed.

Lemma morhological_fields_loop_spec (rounds : nat) :
  forall (b : StrT) (vecOut : list StrT) (log : list cerr_item),
    (length b < rounds)%nat ->
    exists l,
      morhological_fields_loop rounds vecOut
        ({| buf := b; failbit := false; eofbit := false |}, log)
      = Returns (vecOut ++ l,
                 ({| buf := []; failbit := true; eofbit := true |}, log))
      /\ words_of b l.
Proof.
  induction rounds as [|rounds IH]; intros b vecOut log Hr; [lia|].
  cbn [morhological_fields_loop]. step.
  unfold extract_string, sentry, good.
  cbn [failbit eofbit buf negb andb].
  destruct (skip_space_spec b) as (sp & Hb & Hsp & Hc).
  destruct (skip_space b) as [|c b1] eqn:Es.
  - cbn. exists []. rewrite app_nil_r. split; [reflexivity|].
    rewrite Hb, app_nil_r. now constructor.
  - cbn [with_buf buf failbit eofbit].
    destruct (span_not_space_spec (c :: b1)) as (Hsplit & Ht & Hrest).
    destruct (span (fun c0 => negb (isspace c0)) (c :: b1)) as [t rest] eqn:Esp.
    cbn [fst snd] in *.
    assert (Hne : t <> []).
    { cbn [span] in Esp. rewrite Hc in Esp. cbn [negb] in Esp.
      destruct (span (fun c0 => negb (isspace c0)) b1).
      injection Esp as <- <-. discriminate. }
    assert (Hlen : (length b = length sp + length t + length rest)%nat).
    { rewrite Hb, Hsplit, !length_app. lia. }
    assert (Hlt : (0 < length t)%nat) by (destruct t; [congruence|cbn; lia]).
    destruct t as [|t0 t']; [congruence|]. cbn [empty].
    unfold setstate, with_buf. cbn [buf failbit eofbit orb]. step.
    cbn [fail failbit].
    destruct rest as [|d rest'].
    + cbn [empty].
      destruct rounds as [|rounds']; [cbn [length] in *; lia|].
      cbn [morhological_fields_loop]. step.
      exists [t0 :: t']. split; [reflexivity|].
      rewrite Hb, Hsplit. apply words_of_cons; auto.
      apply (words_of_nil (sp := [])). constructor.
    + cbn [empty].
      destruct (IH (d :: rest') (vecOut ++ [t0 :: t']) log) as (l & El & Hl);
        [cbn [length] in *; lia|].
      exists ((t0 :: t') :: l). rewrite El, <- app_assoc.
      split; [reflexivity|].
      rewrite Hb, Hsplit. apply words_of_cons; auto.
Qed.

(** X19.  [parse_morhological_fields] on a stream in good state reads the
    stream to its end and appends its words to [vecOut], in their order:
    the maximal runs of characters that are not white space.  It leaves
    [failbit] clear and [eofbit] set.  On a stream that is not in good state
    it does nothing. *)
Theorem parse_morhological_fields_spec (i : istream) (log : list cerr_item)
  (vecOut : list StrT) :
  (good i = false ->
   parse_morhological_fields vecOut (i, log) = Returns (vecOut, (i, log)))
  /\ (good i = true ->
      exists l,
        parse_morhological_fields vecOut (i, log)
        = Returns (vecOut ++ l,
                   ({| buf := []; failbit := false; eofbit := true |}, log))
        /\ words_of (buf i) l).
Proof.
  unfold parse_morhological_fields. split; intros Hg; step; rewrite Hg;
    cbn [negb]; [reflexivity|].
  step. destruct i as [b f e]. unfold good in Hg.
  cbn [failbit eofbit buf] in *. destruct f, e; try discriminate.
  destruct (@morhological_fields_loop_spec (S (length b)) b vecOut log)
    as (l & El & Hl); [lia|].
  exists l. rewrite El. split; [reflexivity|exact Hl].
Qed.

Lemma parse_morhological_fields_spec_witness :
  exists l,
    parse_morhological_fields []
      (istringstream (lit " po:noun  is:pl"), [])
    = Returns ([] ++ l,
               ({| buf := []; failbit := false; eofbit := true |}, []))
    /\ words_of (lit " po:noun  is:pl") l.
Proof.
  apply (proj2 (@parse_morhological_fields_spec
                  (istringstream (lit " po:noun  is:pl")) [] [])).
  reflexivity.
Defined.

End Fields_Facts.

(** ** The lines of an affix file *)

Module Aff_Invariant_Facts.
Import Std Std_Facts Structures Istream Aff Aff_Facts.
Import Flags_Facts Flag_Set_Facts.

Lemma amap_find_set {V} (k : StrT) (v : V) (m : amap V) :
  amap_find k (amap_set k v m) = Some v.
Proof.
  induction m as [|[k' v'] m IH]; cbn [amap_set amap_find].
  - now rewrite (proj2 (eqb_eq k k) eq_refl).
  - destruct (eqb k k') eqn:E; cbn [amap_find].
    + now rewrite (proj2 (eqb_eq k k) eq_refl).
    + now rewrite E.
Qed.

Section Invariant.
Context {text_utils : Text_Utils}.

(** X20.  A line of a counted command never removes or changes an element
    gathered before and adds one element at most.  The first line of the
    command only records the count; once the count is used up, a line
    changes neither the elements nor the count. *)
Theorem parse_vector_of_T_appends {T} (default : T) (line_num : Z)
  (command : StrT) (counts : amap Z) (vec : list T)
  (parseLineFunc : T -> M T) (w w' : World) (counts' : amap Z)
  (vec' : list T) :
  parse_vector_of_T default line_num command counts vec parseLineFunc w
  = Returns ((counts', vec'), w') ->
  (vec' = vec \/ exists e, vec' = vec ++ [e])
  /\ amap_find command counts' <> None
  /\ (amap_find command counts = None -> vec' = vec)
  /\ (amap_find command counts = Some 0 -> vec' = vec /\ counts' = counts).
Proof.
  unfold parse_vector_of_T.
  destruct (amap_find command counts) as [cnt|] eqn:Ec.
  - destruct (Z.eqb_spec cnt 0) as [->|Hne]; cbn [negb].
    + step. intros [= <- <- _]. repeat split; auto; congruence.
    + step. destruct (parseLineFunc default w) as [[e w1]|]; [|discriminate].
      step. destruct (fail (fst w1)); step; intros [= <- <- _].
      * repeat split; auto; try congruence; try discriminate.
        rewrite amap_find_set. discriminate.
      * repeat split; eauto; try congruence; try discriminate.
        rewrite amap_find_set. discriminate.
  - step. destruct (extract_unsigned SIZE_WIDTH 0 (fst w)) as [n i]. step.
    destruct (fail i); step; intros [= <- <- _];
      (repeat split; auto; try discriminate;
       rewrite amap_find_set; discriminate).
Qed.

Lemma post_parse_vector_of_T {T} (default : T) (line_num : Z)
  (command : StrT) (counts : amap Z) (vec : list T)
  (parseLineFunc : T -> M T) (Q : T -> Prop) :
  post (parseLineFunc default) Q ->
  post (parse_vector_of_T default line_num command counts vec parseLineFunc)
    (fun r => Forall Q vec -> Forall Q (snd r)).
Proof.
  intros Hf. unfold parse_vector_of_T.
  destruct (amap_find command counts) as [cnt|].
  - destruct (negb (cnt =? 0)).
    + apply post_bind with (R := Q); [exact Hf|]. intros e He.
      apply post_seq. intros [|].
      * apply post_bind with (R := fun v => v = vec).
        -- apply post_seq. intros _. now apply post_ret.
        -- intros v ->. now apply post_ret.
      * apply post_bind with (R := fun v => v = vec ++ [e]);
          [now apply post_ret|].
        intros v ->. apply post_ret. cbn [snd]. intros Hvec.
        apply Forall_app. auto.
    + apply post_seq. intros _. now apply post_ret.
  - apply post_seq. intros n. apply post_seq. intros failed.
    apply post_seq. intros n'. now apply post_ret.
Qed.

Lemma zero_normalised (s : StrT) :
  (if eqb s (lit "0") then [] else s) <> lit "0".
Proof.
  destruct (eqb s (lit "0")) eqn:E; [discriminate|].
  intros H. apply eqb_eq in H. congruence.
Qed.

Lemma post_parse_affix (line_num : Z) (command : StrT) (t : Flag_Type)
  (enc : Encoding) (flag_aliases : list Flag_Set) (vec : list Affix)
  (cmd_affix : amap (bool * Z)) :
  post (parse_affix line_num command t enc flag_aliases vec cmd_affix)
    (fun r => Forall Affix_ok vec -> Forall Affix_ok (snd (fst r))).
Proof.
  unfold parse_affix. apply post_seq. intros f.
  destruct (N.eqb_spec f 0) as [|Hf]; [now apply post_ret|].
  destruct (amap_find _ cmd_affix) as [[cross cnt]|].
  - destruct (negb (cnt =? 0)).
    + apply post_seq. intros stripping. apply post_seq. intros [slash appending].
      apply post_seq. intros new_flags. apply post_seq. intros [|];
        [now apply post_ret|].
      apply post_seq. intros condition. apply post_seq. intros failed.
      apply post_seq. intros morphological_fields.
      apply post_ret. cbn [fst snd]. intros Hvec.
      apply Forall_app. split; [exact Hvec|]. constructor; [|constructor].
      unfold Affix_ok.
      cbn [Affix_flag Affix_stripping Affix_appending Affix_condition
           Affix_new_flags].
      repeat split.
      * exact Hf.
      * apply zero_normalised.
      * apply zero_normalised.
      * destruct condition; discriminate.
      * destruct slash; [apply sort_uniq_increasing|constructor].
    + apply post_seq. intros _. now apply post_ret.
  - apply post_seq. intros cross_char. apply post_seq. intros cnt.
    apply post_seq. intros failed. apply post_seq. intros cnt'.
    now apply post_ret.
Qed.

Ltac frame :=
  apply post_ret; unfold aff_step, on_settings, on_compound; simpl;
  repeat split; auto; discriminate.

Lemma parse_aff_command_step (line_num : Z) (command : StrT) (a : Aff_Data) :
  post (parse_aff_command line_num command a) (aff_step a).
Proof.
  unfold parse_aff_command.
  destruct (eqb command (lit "PFX") || eqb command (lit "SFX")).
  { eapply post_bind; [apply post_parse_affix|].
    intros [[command' vec] cmd_affix'] H. cbn [fst snd] in H.
    destruct command as [|c command];
      [|destruct (Ascii.eqb c "P")]; apply post_ret; unfold aff_step; simpl;
      repeat split; auto; discriminate. }
  destruct (count command_strings_keys command).
  { destruct (empty _); [apply post_seq; intros str|apply post_seq; intros _];
      frame. }
  destruct (count command_bools_keys command); [frame|].
  destruct (count command_shorts_keys command);
    [apply post_seq; intros n; frame|].
  destruct (count command_flag_keys command);
    [apply post_seq; intros f; frame|].
  destruct (count command_vec_str_keys command);
    [apply post_seq; intros [counts vec]; frame|].
  destruct (count command_vec_pair_keys command);
    [apply post_seq; intros [counts vec]; frame|].
  destruct (eqb command (lit "SET")).
  { destruct (Encoding_empty _);
      [apply post_seq; intros str|apply post_seq; intros _]; frame. }
  destruct (eqb command (lit "FLAG")); [apply post_seq; intros t; frame|].
  destruct (eqb command (lit "AF")).
  { eapply post_bind.
    - apply post_parse_vector_of_T with (Q := Flag_Set_ok).
      apply post_seq. intros p. apply post_ret. apply sort_uniq_increasing.
    - intros [counts vec] H. cbn [snd] in H. frame. }
  destruct (eqb command (lit "AM"));
    [apply post_seq; intros [counts vec]; frame|].
  destruct (eqb command (lit "BREAK"));
    [apply post_seq; intros [counts vec]; frame|].
  destruct (eqb command (lit "CHECKCOMPOUNDPATTERN"));
    [apply post_seq; intros [counts vec]; frame|].
  destruct (eqb command (lit "COMPOUNDRULE"));
    [apply post_seq; intros [counts vec]; frame|].
  destruct (eqb command (lit "COMPOUNDSYLLABLE"));
    [apply post_seq; intros max; apply post_seq; intros vowels; frame|].
  destruct (eqb command (lit "SYLLABLENUM"));
    [apply post_seq; intros num; frame|].
  frame.
Qed.

Lemma aff_step_refl (a : Aff_Data) : aff_step a a.
Proof. unfold aff_step. repeat split; auto. Qed.

Lemma aff_step_trans (a b c : Aff_Data) :
  aff_step a b -> aff_step b c -> aff_step a c.
Proof.
  intros (H1 & H2 & H3 & H4 & H5 & H6) (H1' & H2' & H3' & H4' & H5' & H6').
  unfold aff_step. repeat split; try congruence; auto.
  - destruct (H3' H) as [Hb _]. now destruct (H3 Hb).
  - destruct (H3' H) as [Hb Hp]. destruct (H3 Hb) as [_ Hp']. congruence.
Qed.

Lemma parse_aff_line_step (line_num : Z) (line : StrT) (a : Aff_Data) :
  post (parse_aff_line line_num line a) (aff_step a).
Proof.
  unfold parse_aff_line.
  apply post_seq. intros _. apply post_seq. intros _. apply post_seq.
  intros _. apply post_seq. intros at_eof. apply post_seq. intros c.
  destruct (at_eof || _); [apply post_ret, aff_step_refl|].
  apply post_seq. intros command. apply post_seq. intros _.
  eapply post_bind; [apply parse_aff_command_step|].
  intros a1 H. apply post_seq. intros failed. apply post_seq. intros _.
  apply post_ret. exact H.
Qed.

Lemma parse_aff_lines_step (rounds : nat) :
  forall (line_num : Z) (line : StrT) (a : Aff_Data) (in_ : istream)
         (w : World) a' in' w',
    parse_aff_lines rounds line_num line a in_ w = Returns (a', in', w') ->
    aff_step a a'.
Proof.
  induction rounds as [|rounds IH]; intros line_num line a in_ w a' in' w';
    cbn [parse_aff_lines].
  - intros [= <- _ _]. apply aff_step_refl.
  - destruct (getline line in_) as [line1 in1].
    destruct (fail in1).
    + intros [= <- _ _]. apply aff_step_refl.
    + destruct (parse_aff_line (line_num + 1) line1 a w) as [[a1 w1]|] eqn:E;
        [|discriminate].
      intros H. apply IH in H.
      eapply aff_step_trans; [|exact H].
      eapply parse_aff_line_step, E.
Qed.

(** What [parse_aff] leaves is a step away from what it starts from. *)
Lemma parse_aff_step (a : Aff_Data) (in_ : istream)
  (cerr0 : list cerr_item) (result : bool) (a' : Aff_Data) (in' : istream)
  (cerr' : list cerr_item) :
  parse_aff a in_ cerr0 = Returns (result, a', in', cerr') ->
  exists a1,
    aff_step (parse_aff_start a) a1
    /\ a' = set_locale_aff
              (get_locale_name
                 (target [] (lit "LANG")
                    (command_strings
                       (settings
                          (if negb (break_exists a1)
                           then set_break_patterns
                                  (break_patterns a1
                                   ++ [lit "-"; lit "^-"; lit "-$"]) a1
                           else a1))))
                 (name (encoding
                          (if negb (break_exists a1)
                           then set_break_patterns
                                  (break_patterns a1
                                   ++ [lit "-"; lit "^-"; lit "-$"]) a1
                           else a1))))
              (if negb (break_exists a1)
               then set_break_patterns
                      (break_patterns a1 ++ [lit "-"; lit "^-"; lit "-$"]) a1
               else a1).
Proof.
  unfold parse_aff.
  destruct (parse_aff_lines _ 0 [] (parse_aff_start a) (strip_bom in_) _)
    as [[[a1 in1] w1]|] eqn:E; [|discriminate].
  intros [= _ <- _ _]. exists a1. split; [|reflexivity].
  eapply parse_aff_lines_step, E.
Qed.

(** X21.  Every prefix and suffix entry [parse_aff] gathers has a flag that is
    not zero, strip and append strings that are not ["0"] (the file's way to
    write the empty string), a condition that is not empty, and continuation
    flags sorted without duplicate. *)
Theorem parse_aff_affixes_ok (a : Aff_Data) (in_ : istream)
  (cerr0 : list cerr_item) (result : bool) (a' : Aff_Data) (in' : istream)
  (cerr' : list cerr_item) :
  parse_aff a in_ cerr0 = Returns (result, a', in', cerr') ->
  Forall Affix_ok (prefixes a') /\ Forall Affix_ok (suffixes a').
Proof.
  intros H. apply parse_aff_step in H.
  destruct H as (a1 & (_ & _ & _ & Hp & Hs & _) & ->).
  specialize (Hp (Forall_nil _)). specialize (Hs (Forall_nil _)).
  destruct (negb (break_exists a1)); split; assumption.
Qed.

(** X22.  When [parse_aff] returns without having read a [BREAK] line (the
    mark [break_exists] is not set), the break patterns it leaves are the
    three default ones. *)
Theorem parse_aff_default_break (a : Aff_Data) (in_ : istream)
  (cerr0 : list cerr_item) (result : bool) (a' : Aff_Data) (in' : istream)
  (cerr' : list cerr_item) :
  parse_aff a in_ cerr0 = Returns (result, a', in', cerr') ->
  break_exists a' = false ->
  break_patterns a' = [lit "-"; lit "^-"; lit "-$"].
Proof.
  intros H. apply parse_aff_step in H.
  destruct H as (a1 & (_ & _ & Hb & _) & ->).
  destruct (break_exists a1) eqn:Eb; cbn [negb]; simpl.
  - congruence.
  - intros _. destruct (Hb eq_refl) as [_ ->]. reflexivity.
Qed.

(** X23.  [parse_aff] leaves the dictionary as it was, and the flag aliases it
    leaves satisfy the invariant of [Flag_Set] when those it started with
    do. *)
Theorem parse_aff_frame (a : Aff_Data) (in_ : istream)
  (cerr0 : list cerr_item) (result : bool) (a' : Aff_Data) (in' : istream)
  (cerr' : list cerr_item) :
  parse_aff a in_ cerr0 = Returns (result, a', in', cerr') ->
  words a' = words a
  /\ (Forall Flag_Set_ok (flag_aliases a) ->
      Forall Flag_Set_ok (flag_aliases a')).
Proof.
  intros H. apply parse_aff_step in H.
  destruct H as (a1 & (Hw & _ & _ & _ & _ & Hf) & ->).
  destruct (negb (break_exists a1)); simpl; split; assumption.
Qed.

End Invariant.

Lemma parse_vector_of_T_appends_witness :
  exists counts' vec' w',
    parse_vector_of_T [] 2 (lit "MAP") [(lit "MAP", 0)] [lit "ab"]
      (fun p : StrT => on_in (extract_string p))
      (istringstream (lit "cd"), [])
    = Returns ((counts', vec'), w')
    /\ vec' = [lit "ab"] /\ counts' = [(lit "MAP", 0)].
Proof.
  assert (E : { r | parse_vector_of_T [] 2 (lit "MAP") [(lit "MAP", 0)]
                      [lit "ab"] (fun p : StrT => on_in (extract_string p))
                      (istringstream (lit "cd"), [])
                    = Returns r })
    by (eexists; vm_compute; reflexivity).
  destruct E as [[[counts' vec'] w'] E].
  exists counts', vec', w'. split; [exact E|].
  apply (proj2 (proj2 (proj2 (parse_vector_of_T_appends _ _ _ _ _ _ _ E)))).
  reflexivity.
Defined.

Lemma parse_aff_affixes_ok_witness :
  exists result a' in' cerr',
    parse_aff (text_utils := ascii_text_utils) Aff_Data_new
      (istringstream
         (lit "PFX A Y 1" ++ [newline] ++ lit "PFX A 0 re/B ."
          ++ [newline] ++ lit "SFX C N 1" ++ [newline]
          ++ lit "SFX C y ies" ++ [newline])) []
    = Returns (result, a', in', cerr')
    /\ length (prefixes a') = 1%nat /\ length (suffixes a') = 1%nat
    /\ Forall Affix_ok (prefixes a') /\ Forall Affix_ok (suffixes a').
Proof.
  assert (E : { r | parse_aff (text_utils := ascii_text_utils) Aff_Data_new
                      (istringstream
                         (lit "PFX A Y 1" ++ [newline] ++ lit "PFX A 0 re/B ."
                          ++ [newline] ++ lit "SFX C N 1" ++ [newline]
                          ++ lit "SFX C y ies" ++ [newline])) []
                    = Returns r
                    /\ length (prefixes (snd (fst (fst r)))) = 1%nat
                    /\ length (suffixes (snd (fst (fst r)))) = 1%nat })
    by (eexists; vm_compute; repeat split; reflexivity).
  destruct E as [[[[result a'] in'] cerr'] (E & Hp & Hs)].
  cbn [fst snd] in Hp, Hs.
  exists result, a', in', cerr'.
  split; [exact E|]. split; [exact Hp|]. split; [exact Hs|].
  exact (parse_aff_affixes_ok _ _ _ E).
Defined.

Lemma parse_aff_default_break_witness :
  exists result a' in' cerr',
    parse_aff (text_utils := ascii_text_utils) Aff_Data_new
      (istringstream (lit "SET UTF-8" ++ [newline])) []
    = Returns (result, a', in', cerr')
    /\ break_patterns a' = [lit "-"; lit "^-"; lit "-$"].
Proof.
  assert (E : { r | parse_aff (text_utils := ascii_text_utils) Aff_Data_new
                      (istringstream (lit "SET UTF-8" ++ [newline])) []
                    = Returns r
                    /\ break_exists (snd (fst (fst r))) = false })
    by (eexists; vm_compute; split; reflexivity).
  destruct E as [[[[result a'] in'] cerr'] (E & Hb)]. cbn [fst snd] in Hb.
  exists result, a', in', cerr'. split; [exact E|].
  exact (parse_aff_default_break _ _ _ E Hb).
Defined.

Lemma parse_aff_frame_witness :
  exists result a' in' cerr',
    parse_aff (text_utils := ascii_text_utils) utf8_en_US
      (istringstream (lit "AF 1" ++ [newline] ++ lit "AF BAB" ++ [newline])) []
    = Returns (result, a', in', cerr')
    /\ words a' = words utf8_en_US
    /\ Forall Flag_Set_ok (flag_aliases a').
Proof.
  assert (E : { r | parse_aff (text_utils := ascii_text_utils) utf8_en_US
                      (istringstream
                         (lit "AF 1" ++ [newline] ++ lit "AF BAB"
                          ++ [newline])) []
                    = Returns r })
    by (eexists; vm_compute; reflexivity).
  destruct E as [[[[result a'] in'] cerr'] E].
  exists result, a', in', cerr'. split; [exact E|].
  destruct (parse_aff_frame _ _ _ E) as [Hw Hf].
  split; [exact Hw|]. apply Hf. constructor.
Defined.

Section Skips.
Context {text_utils : Text_Utils}.

(** X24.  A line of an affix file that is empty, holds white space only, or
    has [#] as its first character after white space changes nothing of the
    state. *)
Theorem parse_aff_line_skips (line_num : Z) (line : StrT) (a : Aff_Data)
  (w : World) :
  match skip_space line with
  | [] => True
  | c :: _ => c = "#"%char
  end ->
  exists w', parse_aff_line line_num line a w = Returns (a, w').
Proof.
  intros H. unfold parse_aff_line.
  destruct (is_utf8 (encoding a) && negb (validate_utf8 line)); step;
    unfold ws, sentry, clear, str, with_buf, good, setstate;
    cbn [failbit eofbit buf negb andb orb];
    (destruct (skip_space line) as [|c b]; cbn [empty];
     [eexists; reflexivity|]);
    subst c; unfold peek, sentry, good; cbn [failbit eofbit buf negb andb];
    step; cbn [eof eofbit]; step; eexists; reflexivity.
Qed.

End Skips.

Lemma parse_aff_line_skips_witness :
  exists w',
    parse_aff_line (text_utils := ascii_text_utils) 3 (lit "  # PFX A Y 1")
      Aff_Data_new (istringstream [], [])
    = Returns (Aff_Data_new, w').
Proof.
  apply (@parse_aff_line_skips ascii_text_utils 3 (lit "  # PFX A Y 1")
           Aff_Data_new (istringstream [], [])).
  reflexivity.
Defined.

End Aff_Invariant_Facts.

(** ** The end of the word in a line of a dictionary *)

Module Dic_Line_Facts.
Import Std Std_Facts Structures Istream Aff Aff_Facts.

Lemma index_where_spec (p : CharT -> bool) (s : StrT) (i : Z) :
  (index_where p s i = npos /\ Forall (fun c => p c = false) s)
  \/ exists k, (k < length s)%nat /\ index_where p s i = i + Z.of_nat k
               /\ p (nth k s zero) = true
               /\ forall j, (j < k)%nat -> p (nth j s zero) = false.
Proof.
  revert i. induction s as [|c s IH]; intros i; cbn [index_where].
  - left. split; [reflexivity|constructor].
  - destruct (p c) eqn:Ec.
    + right. exists O. cbn [length nth]. repeat split; [lia|lia|exact Ec|].
      intros j Hj. lia.
    + destruct (IH (i + 1)) as [[-> H]|(k & Hk & -> & Hp & Hb)].
      * left. split; [reflexivity|now constructor].
      * right. exists (S k). cbn [length nth].
        repeat split; [lia|lia|exact Hp|].
        intros [|j] Hj; [exact Ec|]. apply Hb. lia.
Qed.

(** The search from [pos] on for a character that satisfies [p]. *)
Lemma index_from_spec (p : CharT -> bool) (line : StrT) (pos : Z) :
  0 <= pos <= size line ->
  (index_where p (skipn (Z.to_nat pos) line) pos = npos
   /\ forall q, pos <= q < size line -> p (at_ line q) = false)
  \/ (pos <= index_where p (skipn (Z.to_nat pos) line) pos < size line
      /\ p (at_ line (index_where p (skipn (Z.to_nat pos) line) pos)) = true
      /\ forall q,
           pos <= q < index_where p (skipn (Z.to_nat pos) line) pos ->
           p (at_ line q) = false).
Proof.
  intros Hpos.
  destruct (index_where_spec p (skipn (Z.to_nat pos) line) pos)
    as [[-> H]|(k & Hk & -> & Hp & Hb)].
  - left. split; [reflexivity|]. intros q Hq.
    rewrite Forall_forall in H. apply H. unfold at_.
    replace (Z.to_nat q) with (Z.to_nat pos + Z.to_nat (q - pos))%nat by lia.
    rewrite <- nth_skipn. apply nth_In. rewrite length_skipn.
    unfold size in *. lia.
  - right. rewrite length_skipn in Hk. unfold size in *.
    split; [lia|]. split.
    + unfold at_. rewrite nth_skipn in Hp.
      replace (Z.to_nat (pos + Z.of_nat k)) with (Z.to_nat pos + k)%nat
        by lia.
      exact Hp.
    + intros q Hq. unfold at_.
      replace (Z.to_nat q) with (Z.to_nat pos + Z.to_nat (q - pos))%nat by lia.
      rewrite <- nth_skipn. apply Hb. lia.
Qed.

Lemma find_slash_loop_spec (line : StrT) (rounds : nat) :
  size line < npos ->
  forall start,
    0 <= start <= size line ->
    size line - start < Z.of_nat rounds ->
    (forall q, 0 <= q < start -> ~ unescaped_slash line q) ->
    (find_slash rounds line start = npos
     /\ forall q, 0 <= q < size line -> ~ unescaped_slash line q)
    \/ (0 <= find_slash rounds line start < size line
        /\ unescaped_slash line (find_slash rounds line start)
        /\ forall q, 0 <= q < find_slash rounds line start ->
                     ~ unescaped_slash line q).
Proof.
  intros Hline.
  induction rounds as [|rounds IH]; intros start Hstart Hr Hbefore; [lia|].
  cbn [find_slash]. unfold find_char.
  destruct (Z.ltb_spec (size line) start) as [|_]; [lia|].
  assert (Hslash : forall q, (Ascii.eqb "/" (at_ line q) = false
                              <-> at_ line q <> "/"%char)).
  { intros q. rewrite Ascii.eqb_neq. split; congruence. }
  destruct (index_from_spec (Ascii.eqb "/") line Hstart)
    as [[-> Hnone]|(Hq0 & Hat & Hnone)].
  - rewrite Z.eqb_refl. left. split; [reflexivity|].
    intros q Hq Hu.
    destruct (Z_lt_le_dec q start) as [Hlt|Hge].
    + apply (Hbefore q); [lia|exact Hu].
    + destruct Hu as [Hs _]. apply (proj1 (Hslash q)); [|exact Hs].
      apply Hnone. lia.
  - set (q0 := index_where (Ascii.eqb "/") (skipn (Z.to_nat start) line) start)
      in *.
    assert (Hb0 : forall q, 0 <= q < q0 -> ~ unescaped_slash line q).
    { intros q Hq Hu.
      destruct (Z_lt_le_dec q start) as [Hlt|Hge].
      - apply (Hbefore q); [lia|exact Hu].
      - destruct Hu as [Hs _]. apply (proj1 (Hslash q)); [|exact Hs].
        apply Hnone. lia. }
    apply Ascii.eqb_eq in Hat. symmetry in Hat.
    destruct (Z.eqb_spec q0 npos) as [|_]; [lia|].
    destruct (Z.eqb_spec q0 0) as [E0|Hne0].
    + right. split; [lia|]. split; [|exact Hb0]. split; [exact Hat|now left].
    + destruct (Ascii.eqb_spec (at_ line (q0 - 1)) "\") as [Eb|Hnb];
        cbn [negb].
      * apply IH; [lia|lia|].
        intros q Hq Hu.
        destruct (Z.eq_dec q q0) as [->|Hqq]; [|apply (Hb0 q); [lia|exact Hu]].
        destruct Hu as [_ [H|H]]; [lia|contradiction].
      * right. split; [lia|]. split; [|exact Hb0].
        split; [exact Hat|now right].
Qed.

(** X25.  The search of [parse_dic] for the end of the word returns the index
    of the first slash of the line that is at index 0 or not preceded by a
    backslash, and [npos] when the line has none. *)
Theorem find_slash_spec (line : StrT) :
  size line < npos ->
  (find_slash (S (length line)) line 0 = npos
   /\ forall q, 0 <= q < size line -> ~ unescaped_slash line q)
  \/ (0 <= find_slash (S (length line)) line 0 < size line
      /\ unescaped_slash line (find_slash (S (length line)) line 0)
      /\ forall q, 0 <= q < find_slash (S (length line)) line 0 ->
                   ~ unescaped_slash line q).
Proof.
  intros Hline. pose proof (size_nonneg line).
  apply find_slash_loop_spec; [exact Hline|lia|unfold size; lia|].
  intros q Hq. lia.
Qed.

Lemma find_slash_spec_witness :
  (find_slash (S (length (lit "a\/b/c"))) (lit "a\/b/c") 0 = npos
   /\ forall q, 0 <= q < size (lit "a\/b/c") ->
                ~ unescaped_slash (lit "a\/b/c") q)
  \/ (0 <= find_slash (S (length (lit "a\/b/c"))) (lit "a\/b/c") 0
      < size (lit "a\/b/c")
      /\ unescaped_slash (lit "a\/b/c")
           (find_slash (S (length (lit "a\/b/c"))) (lit "a\/b/c") 0)
      /\ forall q,
           0 <= q < find_slash (S (length (lit "a\/b/c"))) (lit "a\/b/c") 0 ->
           ~ unescaped_slash (lit "a\/b/c") q).
Proof.
  apply (@find_slash_spec (lit "a\/b/c")). vm_compute. reflexivity.
Defined.

Lemma heuristics_loop_spec (line : StrT) (rounds : nat) :
  4 <= size line < npos ->
  forall a0,
    0 <= a0 <= size line ->
    size line - a0 < Z.of_nat rounds ->
    (a0 = 0 \/ at_ line a0 <> " "%char) ->
    (forall b', b' <= a0 -> ~ field_after_space line b') ->
    (dic_find_end_of_word_loop rounds line a0 = npos
     /\ forall b', ~ field_after_space line b')
    \/ exists b,
         0 <= dic_find_end_of_word_loop rounds line a0 < b
         /\ (forall q, dic_find_end_of_word_loop rounds line a0 <= q < b ->
                       at_ line q = " "%char)
         /\ (dic_find_end_of_word_loop rounds line a0 = 0
             \/ at_ line (dic_find_end_of_word_loop rounds line a0 - 1)
                <> " "%char)
         /\ field_after_space line b
         /\ forall b', b' < b -> ~ field_after_space line b'.
Proof.
  intros Hline.
  assert (Hw : size line < 2 ^ SIZE_WIDTH) by (unfold npos in Hline; lia).
  assert (Hsp : forall q, Ascii.eqb " " (at_ line q) = false
                          <-> at_ line q <> " "%char).
  { intros q. rewrite Ascii.eqb_neq. split; congruence. }
  induction rounds as [|rounds IH]; intros a0 Ha0 Hr Hstart Hinv; [lia|].
  cbn [dic_find_end_of_word_loop]. unfold find_char.
  destruct (Z.ltb_spec (size line) a0) as [|_]; [lia|].
  destruct (index_from_spec (Ascii.eqb " ") line Ha0)
    as [[-> Hnone]|(Ha & Hat & Hnone)].
  { rewrite Z.eqb_refl. left. split; [reflexivity|].
    intros b' Hb'. destruct (Z_le_gt_dec b' a0) as [Hle|Hgt].
    - now apply (Hinv b').
    - destruct Hb' as (H0 & H2 & Hs & _).
      apply (proj1 (Hsp (b' - 1))); [apply Hnone; lia|exact Hs]. }
  set (a := index_where (Ascii.eqb " ") (skipn (Z.to_nat a0) line) a0) in *.
  apply Ascii.eqb_eq in Hat. symmetry in Hat.
  destruct (Z.eqb_spec a npos) as [|_]; [lia|].
  (* no field up to [a] *)
  assert (Hupto : forall b', b' <= a -> ~ field_after_space line b').
  { intros b' Hle Hb'. destruct (Z_le_gt_dec b' a0) as [Hle0|Hgt].
    - now apply (Hinv b').
    - destruct Hb' as (H0 & H2 & Hs & _).
      apply (proj1 (Hsp (b' - 1))); [apply Hnone; lia|exact Hs]. }
  unfold find_first_not_of.
  destruct (Z.ltb_spec (size line) a) as [|_]; [lia|].
  assert (Ha' : 0 <= a <= size line) by lia.
  destruct (index_from_spec (fun x => negb (Ascii.eqb " " x)) line Ha')
    as [[-> Hall]|(Hb & Hbt & Hspaces)].
  { rewrite Z.eqb_refl. left. split; [reflexivity|].
    intros b' Hb'. destruct (Z_le_gt_dec b' a) as [Hle|Hgt].
    - now apply (Hupto b').
    - destruct Hb' as (H0 & H2 & _ & Hl & _).
      assert (Hs : negb (Ascii.eqb " " (at_ line b')) = false)
        by (apply Hall; lia).
      apply negb_false_iff, Ascii.eqb_eq in Hs. rewrite <- Hs in Hl.
      discriminate. }
  set (b := index_where (fun x => negb (Ascii.eqb " " x))
              (skipn (Z.to_nat a) line) a) in *.
  assert (Hspaces' : forall q, a <= q < b -> at_ line q = " "%char).
  { intros q Hq. specialize (Hspaces q Hq).
    apply negb_false_iff, Ascii.eqb_eq in Hspaces. now symmetry. }
  apply negb_true_iff in Hbt. apply Hsp in Hbt.
  assert (Hab : a < b).
  { destruct (Z.eq_dec a b) as [E|]; [|lia]. rewrite <- E in Hbt.
    contradiction. }
  (* no field before [b] *)
  assert (Hbefore : forall b', b' < b -> ~ field_after_space line b').
  { intros b' Hlt Hb'. destruct (Z_le_gt_dec b' a) as [Hle|Hgt].
    - now apply (Hupto b').
    - destruct Hb' as (_ & _ & _ & Hl & _).
      rewrite (Hspaces' b') in Hl by lia. discriminate. }
  destruct (Z.eqb_spec b npos) as [|_]; [lia|].
  rewrite Affix_Facts.size_sub_no_wrap by (try exact Hw; lia).
  destruct (Z.ltb_spec (size line - 3) b) as [Hb3|Hb3].
  { left. split; [reflexivity|].
    intros b' Hb'. apply (Hbefore b'); [|exact Hb'].
    destruct Hb' as (_ & H2 & _). lia. }
  destruct (is_lower_letter (at_ line b) && is_lower_letter (at_ line (b + 1))
            && Ascii.eqb (at_ line (b + 2)) ":") eqn:Ef.
  - right. exists b.
    apply andb_prop in Ef. destruct Ef as [Ef E3].
    apply andb_prop in Ef. destruct Ef as [E1 E2].
    apply Ascii.eqb_eq in E3.
    split; [lia|]. split; [exact Hspaces'|]. split.
    + destruct (Z.eq_dec a a0) as [E|Hne].
      * destruct Hstart as [H0|Hns]; [left; lia|].
        rewrite <- E in Hns. contradiction.
      * right. apply Hsp. apply Hnone. lia.
    + split; [|exact Hbefore].
      split; [lia|]. split; [lia|]. split; [apply Hspaces'; lia|].
      repeat split; assumption.
  - apply IH; [lia|lia|now right|].
    intros b' Hle Hb'. destruct (Z.eq_dec b' b) as [->|Hne].
    + destruct Hb' as (_ & _ & _ & H1 & H2 & H3).
      rewrite H1, H2, H3 in Ef. discriminate.
    + apply (Hbefore b'); [lia|exact Hb'].
Qed.

(** X26.  [dic_find_end_of_word_heuristics] looks for the first morphological
    field of the line that follows a space: two lower-case letters and a
    colon.  It returns the index at which the run of spaces in front of that
    field starts, and [npos] when the line has no such field. *)
Theorem dic_find_end_of_word_spec (line : StrT) :
  size line < npos ->
  (dic_find_end_of_word_heuristics line = npos
   /\ forall b', ~ field_after_space line b')
  \/ exists b,
       0 <= dic_find_end_of_word_heuristics line < b
       /\ (forall q, dic_find_end_of_word_heuristics line <= q < b ->
                     at_ line q = " "%char)
       /\ (dic_find_end_of_word_heuristics line = 0
           \/ at_ line (dic_find_end_of_word_heuristics line - 1)
              <> " "%char)
       /\ field_after_space line b
       /\ forall b', b' < b -> ~ field_after_space line b'.
Proof.
  intros Hline. unfold dic_find_end_of_word_heuristics.
  pose proof (size_nonneg line).
  destruct (Z.ltb_spec (size line) 4).
  - left. split; [reflexivity|]. intros b' (Hb0 & Hb2 & _). lia.
  - apply heuristics_loop_spec; [lia|lia|unfold size; lia|now left|].
    intros b' Hb' (Hb0 & _). lia.
Qed.

Lemma dic_find_end_of_word_spec_witness :
  (dic_find_end_of_word_heuristics (lit "a b  po:n") = npos
   /\ forall b', ~ field_after_space (lit "a b  po:n") b')
  \/ exists b,
       0 <= dic_find_end_of_word_heuristics (lit "a b  po:n") < b
       /\ (forall q,
             dic_find_end_of_word_heuristics (lit "a b  po:n") <= q < b ->
             at_ (lit "a b  po:n") q = " "%char)
       /\ (dic_find_end_of_word_heuristics (lit "a b  po:n") = 0
           \/ at_ (lit "a b  po:n")
                (dic_find_end_of_word_heuristics (lit "a b  po:n") - 1)
              <> " "%char)
       /\ field_after_space (lit "a b  po:n") b
       /\ forall b', b' < b -> ~ field_after_space (lit "a b  po:n") b'.
Proof.
  apply (@dic_find_end_of_word_spec (lit "a b  po:n")).
  vm_compute. reflexivity.
Defined.

End Dic_Line_Facts.

(** ** The dictionary, and what the two parsers return *)

Module Dic_Facts.
Import Std Std_Facts Structures Istream Aff Aff_Facts.
Import Flags_Facts.

Lemma replace_hidden_homonym_spec (words : Dic_Data) (word : StrT)
  (flags : Flag_Set) (words' : Dic_Data) :
  replace_hidden_homonym words word flags = Some words' ->
  map fst words' = map fst words
  /\ In (word, flags) words'
  /\ forall e, In e words -> is_hidden_homonym e = false -> In e words'.
Proof.
  revert words'. induction words as [|w words IH]; intros words';
    cbn [replace_hidden_homonym]; [discriminate|].
  destruct (eqb (fst w) word && is_hidden_homonym w) eqn:E.
  - intros [= <-]. apply andb_prop in E. destruct E as [E1 E2].
    apply eqb_eq in E1. cbn [map fst]. rewrite E1. repeat split.
    + now left.
    + intros e [<-|He] Hh; [congruence|now right].
  - destruct (replace_hidden_homonym words word flags) as [words''|];
      [|discriminate].
    intros [= <-]. destruct (IH _ eq_refl) as (H1 & H2 & H3).
    cbn [map]. rewrite H1. repeat split.
    + now right.
    + intros e [<-|He] Hh; [now left|right; now apply H3].
Qed.

Section Insert.
Context {text_utils : Text_Utils}.

(** The [switch] on the casing of a word never takes away from the
    dictionary. *)
Lemma insert_by_casing_grows (loc : StrT) (words : Dic_Data) (word : StrT)
  (flags : u16string) :
  In (word, Flag_Set_of flags) (insert_by_casing loc words word flags)
  /\ incl (map fst words) (map fst (insert_by_casing loc words word flags))
  /\ (forall e, In e words -> is_hidden_homonym e = false ->
                In e (insert_by_casing loc words word flags)).
Proof.
  assert (Happ : forall l : Dic_Data,
            In (word, Flag_Set_of flags)
              ((words ++ [(word, Flag_Set_of flags)]) ++ l)
            /\ incl (map fst words)
                 (map fst ((words ++ [(word, Flag_Set_of flags)]) ++ l))
            /\ (forall e, In e words -> is_hidden_homonym e = false ->
                  In e ((words ++ [(word, Flag_Set_of flags)]) ++ l))).
  { intros l. repeat split.
    - rewrite !in_app_iff. left. right. now left.
    - intros k Hk. rewrite !map_app, !in_app_iff. left. now left.
    - intros e He _. rewrite !in_app_iff. left. now left. }
  pose proof (Happ []) as Happ0. rewrite app_nil_r in Happ0.
  unfold insert_by_casing.
  destruct (classify_casing loc word);
    try exact Happ0;
    try (destruct (existsb is_hidden_homonym _); [exact Happ0|apply Happ]).
  destruct (replace_hidden_homonym words word (Flag_Set_of flags))
    as [words'|] eqn:Er; [|exact Happ0].
  destruct (replace_hidden_homonym_spec _ _ _ Er) as (H1 & H2 & H3).
  repeat split; try assumption. rewrite H1. apply incl_refl.
Qed.

(** X27.  What the [switch] on the casing of a word does to the dictionary.
    The word is in it afterwards with the flags given; no word is lost; no
    entry is touched but one that carries the hidden-homonym flag; and
    after a word in Pascal or camel case, its upper-case form has an entry
    that carries this flag. *)
Theorem insert_by_casing_keeps (loc : StrT) (words : Dic_Data) (word : StrT)
  (flags : u16string) :
  In (word, Flag_Set_of flags) (insert_by_casing loc words word flags)
  /\ incl (map fst words) (map fst (insert_by_casing loc words word flags))
  /\ (forall e, In e words -> is_hidden_homonym e = false ->
                In e (insert_by_casing loc words word flags))
  /\ (classify_casing loc word = PASCAL \/ classify_casing loc word = CAMEL ->
      existsb is_hidden_homonym
        (equal_range (insert_by_casing loc words word flags)
           (locale_to_upper loc word))
      = true).
Proof.
  destruct (insert_by_casing_grows loc words word flags) as (H1 & H2 & H3).
  repeat split; try assumption.
  assert (Hup : existsb is_hidden_homonym
                  (equal_range
                     ((words ++ [(word, Flag_Set_of flags)])
                      ++ [(locale_to_upper loc word,
                           Flag_Set_of (flags ++ [HIDDEN_HOMONYM_FLAG]))])
                     (locale_to_upper loc word)) = true).
  { rewrite equal_range_app, existsb_app. apply orb_true_iff. right.
    unfold equal_range. cbn [filter fst].
    rewrite (proj2 (eqb_eq _ _) eq_refl). cbn [existsb].
    unfold is_hidden_homonym. cbn [snd].
    rewrite (proj2 (contains_Flag_Set_of _ _)); [reflexivity|].
    apply in_app_iff. right. now left. }
  unfold insert_by_casing.
  intros [Hc|Hc]; rewrite Hc;
    (destruct (existsb is_hidden_homonym
                 (equal_range (words ++ [(word, Flag_Set_of flags)])
                    (locale_to_upper loc word))) eqn:Eh;
     [exact Eh|exact Hup]).
Qed.

Lemma dic_extends_refl (a : Aff_Data) : dic_extends a a.
Proof.
  unfold dic_extends. repeat split.
  - now destruct a.
  - apply incl_refl.
  - auto.
Qed.

Lemma dic_extends_insert (a : Aff_Data) (word : StrT) (flags : u16string) :
  dic_extends a
    (set_words (insert_by_casing (locale_aff a) (words a) word flags) a).
Proof.
  destruct (insert_by_casing_grows (locale_aff a) (words a) word flags)
    as (_ & H2 & H3).
  unfold dic_extends. cbn [words set_words]. repeat split; assumption.
Qed.

Lemma dic_extends_trans (a b c : Aff_Data) :
  dic_extends a b -> dic_extends b c -> dic_extends a c.
Proof.
  intros (H1 & H2 & H3) (H1' & H2' & H3'). unfold dic_extends.
  repeat split.
  - rewrite H1'. rewrite H1. now destruct a.
  - eapply incl_tran; eassumption.
  - intros e He Hh. apply H3'; [now apply H3|exact Hh].
Qed.

Lemma parse_dic_line_extends (line_number : Z) (line : StrT)
  (encoding : Encoding) (a : Aff_Data) :
  post (parse_dic_line line_number line encoding a) (dic_extends a).
Proof.
  unfold parse_dic_line.
  apply post_seq. intros _. apply post_seq. intros _.
  apply post_seq. intros [[word flags]|].
  - destruct (empty word); apply post_ret;
      [apply dic_extends_refl|apply dic_extends_insert].
  - apply post_ret, dic_extends_refl.
Qed.

Lemma parse_dic_lines_extends (rounds : nat) :
  forall (line_number : Z) (line : StrT) (encoding : Encoding)
         (a : Aff_Data) (in_ : istream) (w : World) a' in' w',
    parse_dic_lines rounds line_number line encoding a in_ w
    = Returns (a', in', w') ->
    dic_extends a a'.
Proof.
  induction rounds as [|rounds IH]; intros line_number line encoding a in_ w
    a' in' w'; cbn [parse_dic_lines].
  - intros [= <- _ _]. apply dic_extends_refl.
  - destruct (getline line in_) as [line1 in1].
    destruct (fail in1).
    + intros [= <- _ _]. apply dic_extends_refl.
    + destruct (parse_dic_line (line_number + 1) line1 encoding a w)
        as [[a1 w1]|] eqn:E; [|discriminate].
      intros H. apply IH in H.
      eapply dic_extends_trans; [|exact H].
      eapply parse_dic_line_extends, E.
Qed.

End Insert.

Lemma insert_by_casing_keeps_witness :
  existsb is_hidden_homonym
    (equal_range
       (insert_by_casing (text_utils := ascii_text_utils) [] [] (lit "Ab")
          [88%N])
       (lit "AB"))
  = true.
Proof.
  apply (proj2 (proj2 (proj2 (@insert_by_casing_keeps ascii_text_utils []
                                [] (lit "Ab") [88%N])))).
  left. reflexivity.
Defined.

(** *** The end of the loops over the lines *)

Lemma getline_fail_eof (line : StrT) (i : istream) :
  failbit i = false ->
  fail (snd (getline line i)) = true -> eof (snd (getline line i)) = true.
Proof.
  unfold getline, getline_delim, sentry, good, fail, eof.
  destruct i as [b f e]. cbn [failbit eofbit buf]. intros ->. cbn [negb andb].
  destruct e; cbn [negb]; [reflexivity|].
  cbn [with_buf buf]. destruct (split_at newline b) as [l [rest|]];
    cbn [snd with_buf setstate failbit eofbit]; [discriminate|reflexivity].
Qed.

Lemma strip_bom_failbit (i : istream) : failbit (strip_bom i) = false.
Proof.
  unfold strip_bom, read, sentry.
  destruct (good i) eqn:Eg; cbv beta iota zeta; [|reflexivity].
  set (s := firstn 3 (buf i)).
  destruct (Nat.eqb (length s) 3); cbn [negb orb]; [|reflexivity].
  destruct (negb (eqb s BOM)); [reflexivity|].
  cbn [with_buf failbit]. unfold good in Eg.
  destruct (failbit i); [discriminate|reflexivity].
Qed.

Section Loops_End.
Context {text_utils : Text_Utils}.

Lemma parse_dic_lines_eof (rounds : nat) :
  forall (line_number : Z) (line : StrT) (encoding : Encoding)
         (a : Aff_Data) (in_ : istream) (w : World) a' in' w',
    (length (buf in_) < rounds)%nat -> failbit in_ = false ->
    parse_dic_lines rounds line_number line encoding a in_ w
    = Returns (a', in', w') ->
    eof in' = true.
Proof.
  induction rounds as [|rounds IH]; intros line_number line encoding a in_ w
    a' in' w' Hr Hf; [lia|]. cbn [parse_dic_lines].
  pose proof (getline_fail_eof line in_ Hf) as Hfe.
  pose proof (getline_shorter line in_) as Hs.
  destruct (getline line in_) as [line1 in1]. cbn [snd] in *.
  destruct (fail in1) eqn:Ef.
  - intros [= _ <- _]. now apply Hfe.
  - destruct (parse_dic_line (line_number + 1) line1 encoding a w)
      as [[a1 w1]|]; [|discriminate].
    apply IH; [specialize (Hs eq_refl); lia|exact Ef].
Qed.

Lemma parse_aff_lines_eof (rounds : nat) :
  forall (line_num : Z) (line : StrT) (a : Aff_Data) (in_ : istream)
         (w : World) a' in' w',
    (length (buf in_) < rounds)%nat -> failbit in_ = false ->
    parse_aff_lines rounds line_num line a in_ w = Returns (a', in', w') ->
    eof in' = true.
Proof.
  induction rounds as [|rounds IH]; intros line_num line a in_ w
    a' in' w' Hr Hf; [lia|]. cbn [parse_aff_lines].
  pose proof (getline_fail_eof line in_ Hf) as Hfe.
  pose proof (getline_shorter line in_) as Hs.
  destruct (getline line in_) as [line1 in1]. cbn [snd] in *.
  destruct (fail in1) eqn:Ef.
  - intros [= _ <- _]. now apply Hfe.
  - destruct (parse_aff_line (line_num + 1) line1 a w)
      as [[a1 w1]|]; [|discriminate].
    apply IH; [specialize (Hs eq_refl); lia|exact Ef].
Qed.

(** X28.  When [parse_aff] returns, it returns [true], whatever the stream
    holds and whatever state it is in (a stream as it is modelled here, one
    that reads from memory and never gets [badbit]): [strip_bom] clears
    [failbit], and the loop over the lines ends with [eofbit] set.  A line
    that cannot be parsed is reported on [cerr] and has no effect on the
    value returned. *)
Theorem parse_aff_returns_true (a : Aff_Data) (in_ : istream)
  (cerr0 : list cerr_item) (result : bool) (a' : Aff_Data) (in' : istream)
  (cerr' : list cerr_item) :
  parse_aff a in_ cerr0 = Returns (result, a', in', cerr') ->
  result = true.
Proof.
  unfold parse_aff.
  destruct (parse_aff_lines _ 0 [] (parse_aff_start a) (strip_bom in_) _)
    as [[[a1 in1] w1]|] eqn:E; [|discriminate].
  intros [= <- _ _ _].
  eapply parse_aff_lines_eof; [| |exact E]; [lia|apply strip_bom_failbit].
Qed.

(** X29.  [parse_dic] returns [false] exactly when the first line is missing
    or does not start with a number, and then it leaves the dictionary as it
    was; what the lines after the first hold has no effect on the value
    returned. *)
Theorem parse_dic_result (a : Aff_Data) (in_ : istream)
  (cerr0 : list cerr_item) (result : bool) (a' : Aff_Data) (in' : istream)
  (cerr' : list cerr_item) :
  parse_dic a in_ cerr0 = Returns (result, a', in', cerr') ->
  result
  = negb (fail (snd (getline [] (strip_bom in_)))
          || fail (snd (extract_unsigned SIZE_WIDTH 0
                          (str (istringstream [])
                             (fst (getline [] (strip_bom in_)))))))
  /\ (result = false -> a' = a).
Proof.
  unfold parse_dic.
  destruct (getline [] (strip_bom in_)) as [line in1] eqn:Eg. cbn [fst snd].
  destruct (fail in1) eqn:Ef; [intros [= <- <- _ _]; auto|].
  destruct (extract_unsigned SIZE_WIDTH 0 (str (istringstream []) line))
    as [n ss]. cbn [snd].
  destruct (fail ss); [intros [= <- <- _ _]; auto|].
  destruct (parse_dic_lines _ 1 line _ a in1 _) as [[[a1 in2] w1]|] eqn:E;
    [|discriminate].
  intros [= <- _ _ _]. cbn [orb negb].
  rewrite (parse_dic_lines_eof _ _ _ _ _ _ (Nat.lt_succ_diag_r _) Ef E).
  split; [reflexivity|discriminate].
Qed.

(** X30.  [parse_dic] changes no member of [Aff_Data] but [words], loses no
    word of the dictionary it starts from, and leaves every entry that does
    not carry the hidden-homonym flag as it was. *)
Theorem parse_dic_extends (a : Aff_Data) (in_ : istream)
  (cerr0 : list cerr_item) (result : bool) (a' : Aff_Data) (in' : istream)
  (cerr' : list cerr_item) :
  parse_dic a in_ cerr0 = Returns (result, a', in', cerr') ->
  dic_extends a a'.
Proof.
  unfold parse_dic.
  destruct (getline [] (strip_bom in_)) as [line in1].
  destruct (fail in1); [intros [= _ <- _ _]; apply dic_extends_refl|].
  destruct (extract_unsigned SIZE_WIDTH 0 (str (istringstream []) line))
    as [n ss].
  destruct (fail ss); [intros [= _ <- _ _]; apply dic_extends_refl|].
  destruct (parse_dic_lines _ 1 line _ a in1 _) as [[[a1 in2] w1]|] eqn:E;
    [|discriminate].
  intros [= _ <- _ _]. eapply parse_dic_lines_extends, E.
Qed.

End Loops_End.

Lemma parse_aff_returns_true_witness :
  exists a' in' cerr',
    parse_aff (text_utils := ascii_text_utils) Aff_Data_new
      (istringstream (lit "FLAG bogus" ++ [newline] ++ lit "REP x")) []
    = Returns (true, a', in', cerr').
Proof.
  assert (E : { r | parse_aff (text_utils := ascii_text_utils) Aff_Data_new
                      (istringstream
                         (lit "FLAG bogus" ++ [newline] ++ lit "REP x")) []
                    = Returns r })
    by (eexists; vm_compute; reflexivity).
  destruct E as [[[[result a'] in'] cerr'] E].
  exists a', in', cerr'.
  rewrite E. now rewrite (parse_aff_returns_true _ _ _ E).
Defined.

Lemma parse_dic_result_witness :
  exists a' in' cerr',
    parse_dic (text_utils := ascii_text_utils) utf8_en_US
      (istringstream (lit "words" ++ [newline] ++ lit "abc" ++ [newline])) []
    = Returns (false, a', in', cerr')
    /\ a' = utf8_en_US.
Proof.
  assert (E : { r | parse_dic (text_utils := ascii_text_utils) utf8_en_US
                      (istringstream
                         (lit "words" ++ [newline] ++ lit "abc"
                          ++ [newline])) []
                    = Returns r /\ fst (fst (fst r)) = false })
    by (eexists; vm_compute; split; reflexivity).
  destruct E as [[[[result a'] in'] cerr'] (E & Hr)]. cbn [fst] in Hr.
  subst result. exists a', in', cerr'. split; [exact E|].
  exact (proj2 (parse_dic_result _ _ _ E) eq_refl).
Defined.

Lemma parse_dic_extends_witness :
  exists result a' in' cerr',
    parse_dic (text_utils := ascii_text_utils)
      (set_words [(lit "old", Flag_Set_of [])] utf8_en_US)
      (istringstream (lit "2" ++ [newline] ++ lit "Ab/X" ++ [newline]
                      ++ lit "AB/Y" ++ [newline])) []
    = Returns (result, a', in', cerr')
    /\ dic_extends (set_words [(lit "old", Flag_Set_of [])] utf8_en_US) a'.
Proof.
  assert (E : { r | parse_dic (text_utils := ascii_text_utils)
                      (set_words [(lit "old", Flag_Set_of [])] utf8_en_US)
                      (istringstream
                         (lit "2" ++ [newline] ++ lit "Ab/X" ++ [newline]
                          ++ lit "AB/Y" ++ [newline])) []
                    = Returns r })
    by (eexists; vm_compute; reflexivity).
  destruct E as [[[[result a'] in'] cerr'] E].
  exists result, a', in', cerr'. split; [exact E|].
  exact (parse_dic_extends _ _ _ E).
Defined.

End Dic_Facts.

(** ** The hidden homonym of a word in Pascal or camel case *)

Module Hidden_Homonym_Facts.
Import Std Std_Facts Structures Istream Aff Aff_Facts.
Import Flags_Facts Flag_Set_Facts Dic_Line_Facts Dic_Facts.

(** *** Reading a text line by line *)





Section Lines.
Context {text_utils : Text_Utils}.


End Lines.

(** *** A line made of a word, a slash and flags *)





Section Line.
Context {text_utils : Text_Utils}.


End Line.

(** *** The whole of [parse_dic] *)



Section Whole.
Context {text_utils : Text_Utils}.


End Whole.



End Hidden_Homonym_Facts.
